(** * Apriori: frequent itemsets and association rules

    A shallow embedding of [src/apriori.py] (class [Apriori]) and the
    properties of its level-wise search.

    Conventions of the embedding
    - an item is any hashable value: a type with decidable equality that is
      countable; a [frozenset] of items is a [gset Item];
    - a Python [float] is an IEEE 754 binary64 number, here a [spec_float]
      of the Standard Library with precision 53 and maximal exponent 1024;
    - iterating over a [set] or [frozenset] visits its members once each, in
      an order the language leaves open: the model visits them in the order
      of [elements]; a [dict] is visited in insertion order;
    - an exception aborts the call: a method is a function from the object
      to an [outcome], either the mutated object or the exception raised;
    - [while True] is run with fuel: [apriori fuel self] is [None] when the
      fuel runs out, and is shown below never to be with enough fuel. *)

From Stdlib Require Import ZArith Floats.SpecFloat Lia Bool Ascii.
From stdpp Require Import gmap list fin_maps sets pretty sorting.

Local Open Scope Z_scope.

(** ** Exceptions *)

Inductive exn : Type :=
| KeyError
| IndexError
| ZeroDivisionError.

Inductive outcome (A : Type) : Type :=
| Ok (a : A)
| Raise (e : exn).
Arguments Ok {A} a.
Arguments Raise {A} e.

#[global] Instance outcome_ret : MRet outcome := λ A a, Ok a.
#[global] Instance outcome_bind : MBind outcome := λ A B f m,
  match m with
  | Ok a => f a
  | Raise e => Raise e
  end.

(** A [for] loop whose body may raise: the accumulator is threaded through
    the elements in order, the first exception ends the loop. *)
Fixpoint for_each {A S} (body : S → A → outcome S) (s : S) (l : list A)
  : outcome S :=
  match l with
  | [] => Ok s
  | x :: l' => s' ← body s x; for_each body s' l'
  end.

(** ** Python floats *)

Abbreviation float := spec_float.
Definition prec : Z := 53.
Definition emax : Z := 1024.

(** An [int] as the operand of a division: the mantissa is the integer
    itself, whatever its size, and [SFdiv] rounds the quotient only. *)
Definition float_of_int (a : Z) : float :=
  match a with
  | Z0 => S754_zero false
  | Zpos p => S754_finite false p 0
  | Zneg p => S754_finite true p 0
  end.

(** [a / b] on two [int]s: the quotient rounded once to the nearest double,
    [ZeroDivisionError] when [b] is zero.  (The program divides a count by
    the number of baskets: the quotient is never too large for a double.) *)
Definition int_truediv (a b : Z) : outcome float :=
  if b =? 0 then Raise ZeroDivisionError
  else Ok (SFdiv prec emax (float_of_int a) (float_of_int b)).

Definition float_is_zero (x : float) : bool :=
  match x with
  | S754_zero _ => true
  | _ => false
  end.

(** [x / y] on two [float]s: [ZeroDivisionError] when [y] is [0.0] or
    [-0.0]. *)
Definition float_truediv (x y : float) : outcome float :=
  if float_is_zero y then Raise ZeroDivisionError
  else Ok (SFdiv prec emax x y).

(** [x >= y] on two [float]s; false as soon as one of them is a NaN. *)
Definition float_ge (x y : float) : bool :=
  match SFcompare x y with
  | Some Gt | Some Eq => true
  | _ => false
  end.

(** ** Python containers *)

(** [l[i]]: a negative index counts from the end. *)
Definition getitem {A} (l : list A) (i : Z) : outcome A :=
  let j := if i <? 0 then i + Z.of_nat (length l) else i in
  if j <? 0 then Raise IndexError
  else match l !! Z.to_nat j with
       | Some x => Ok x
       | None => Raise IndexError
       end.

(** [d[key]] on a [dict]. *)
Definition dict_get `{Countable K} {V} (d : gmap K V) (key : K) : outcome V :=
  match d !! key with
  | Some v => Ok v
  | None => Raise KeyError
  end.

(** [enumerate(l)] *)
Definition enumerate {A} (l : list A) : list (nat * A) := imap pair l.

(** A [dict] whose iteration order is observed: the pairs in insertion
    order, one per key. *)
Abbreviation odict K V := (list (K * V)).

Definition odict_get `{EqDecision K} {V} (d : odict K V) (key : K)
  : outcome V :=
  match list_find (λ kv, kv.1 = key) d with
  | Some (_, (_, v)) => Ok v
  | None => Raise KeyError
  end.

(** [d[key] = v] for a key already bound: the pair keeps its place. *)
Definition odict_set `{EqDecision K} {V} (d : odict K V) (key : K) (v : V)
  : odict K V :=
  (λ kv, if decide (kv.1 = key) then (key, v) else kv) <$> d.

(** ** The class *)

Section Algorithm.
Context {Item : Type} `{Countable Item}.

Abbreviation Itemset := (gset Item).
Abbreviation Rule := (gset Item * gset Item * float)%type.

(** The fields of [__init__], followed by two history fields that the
    program does not have: [supp_bound] and [conseq_bound] list, in order,
    the keys of every [supp_dict[key] = ...] and [conseq_dict[key] = ...]
    statement executed.  Nothing reads them. *)
Record Apriori : Type := mkApriori {
  baskets : list Itemset;
  n_baskets : Z;
  min_supp : float;
  min_conf : float;
  cand_list : list (gset Itemset);
  freq_list : list (list Itemset);
  supp_dict : gmap Itemset float;
  conseq_dict : gmap Itemset (list (list Itemset));
  rule_list : list Rule;
  supp_bound : list Itemset;
  conseq_bound : list Itemset
}.

Definition set_cand_list (v : list (gset Itemset)) (self : Apriori) :=
  mkApriori (baskets self) (n_baskets self) (min_supp self) (min_conf self)
    v (freq_list self) (supp_dict self) (conseq_dict self) (rule_list self)
    (supp_bound self) (conseq_bound self).

Definition set_freq_list (v : list (list Itemset)) (self : Apriori) :=
  mkApriori (baskets self) (n_baskets self) (min_supp self) (min_conf self)
    (cand_list self) v (supp_dict self) (conseq_dict self) (rule_list self)
    (supp_bound self) (conseq_bound self).

(** [self.supp_dict[key] = v] *)
Definition bind_supp (key : Itemset) (v : float) (self : Apriori) :=
  mkApriori (baskets self) (n_baskets self) (min_supp self) (min_conf self)
    (cand_list self) (freq_list self) (<[key := v]> (supp_dict self))
    (conseq_dict self) (rule_list self)
    (supp_bound self ++ [key]) (conseq_bound self).

(** [self.conseq_dict[key] = v] *)
Definition bind_conseq (key : Itemset) (v : list (list Itemset))
    (self : Apriori) :=
  mkApriori (baskets self) (n_baskets self) (min_supp self) (min_conf self)
    (cand_list self) (freq_list self) (supp_dict self)
    (<[key := v]> (conseq_dict self)) (rule_list self)
    (supp_bound self) (conseq_bound self ++ [key]).

(** [self.conseq_dict[key].append(x)], the list object found under [key]
    grows in place; the binding of [key] is not touched. *)
Definition append_conseq (key : Itemset) (x : list Itemset) (self : Apriori)
  : outcome Apriori :=
  l ← dict_get (conseq_dict self) key;
  Ok (mkApriori (baskets self) (n_baskets self) (min_supp self)
        (min_conf self) (cand_list self) (freq_list self) (supp_dict self)
        (<[key := l ++ [x]]> (conseq_dict self)) (rule_list self)
        (supp_bound self) (conseq_bound self)).

Definition append_rule (r : Rule) (self : Apriori) :=
  mkApriori (baskets self) (n_baskets self) (min_supp self) (min_conf self)
    (cand_list self) (freq_list self) (supp_dict self) (conseq_dict self)
    (rule_list self ++ [r]) (supp_bound self) (conseq_bound self).

(** [Apriori.__init__], lines 5-33. *)
Definition __init__ (baskets : list Itemset) (min_supp min_conf : float)
  : Apriori :=
  {| baskets := baskets;
     n_baskets := Z.of_nat (length baskets);
     min_supp := min_supp;
     min_conf := min_conf;
     cand_list := [];
     freq_list := [];
     supp_dict := ∅;
     conseq_dict := ∅;
     rule_list := [];
     supp_bound := [];
     conseq_bound := [] |}.

(** The two nested [enumerate] loops shared by [gen_cands] and
    [gen_conseqs]: every pair of positions [i < j], in the order the loops
    meet them. *)
Definition join_pairs (level : list Itemset) : list (Itemset * Itemset) :=
  '(i, x_i) ← enumerate level;
  '(j, x_j) ← enumerate level;
  if bool_decide (i < j)%nat then [(x_i, x_j)] else [].

(** [Apriori.gen_cands], lines 63-85. *)
Definition gen_cands (k : nat) (self : Apriori) : outcome Apriori :=
  cands ←
    (if bool_decide (k = 0%nat) then
       Ok (foldl (λ cands basket,
                    foldl (λ cands item, cands ∪ {[ {[ item ]} ]})
                          cands (elements basket))
                 (∅ : gset Itemset) (baskets self))
     else
       freqs ← getitem (freq_list self) (Z.of_nat k - 1);
       Ok (foldl (λ cands '(freq_i, freq_j),
                    let cand := freq_i ∪ freq_j in
                    if bool_decide (size cand = (k + 1)%nat)
                    then cands ∪ {[ cand ]} else cands)
                 (∅ : gset Itemset) (join_pairs freqs)));
  if bool_decide (cands ≠ ∅)
  then Ok (set_cand_list (cand_list self ++ [cands]) self)
  else Ok self.

(** [Apriori.gen_freqs], lines 87-108.  [cand_cnt] is the only dictionary
    that the program iterates over. *)
Definition gen_freqs (k : nat) (self : Apriori) : outcome Apriori :=
  cands ← getitem (cand_list self) (Z.of_nat k - 1);
  let cand_cnt : odict Itemset Z := (λ k, (k, 0)) <$> elements cands in
  cand_cnt ←
    for_each (λ cand_cnt basket,
      cands' ← getitem (cand_list self) (Z.of_nat k - 1);
      for_each (λ cand_cnt cand,
        if bool_decide (cand ⊆ basket) then
          cnt ← odict_get cand_cnt cand;
          Ok (odict_set cand_cnt cand (cnt + 1))
        else Ok cand_cnt) cand_cnt (elements cands'))
      cand_cnt (baskets self);
  '(freqs, self) ←
    for_each (λ '(freqs, self) '(cand, cnt),
      supp ← int_truediv cnt (n_baskets self);
      if float_ge supp (min_supp self)
      then Ok (freqs ++ [cand], bind_supp cand supp self)
      else Ok (freqs, self)) (([] : list Itemset), self) cand_cnt;
  match freqs with
  | [] => Ok self
  | _ => Ok (set_freq_list (freq_list self ++ [freqs]) self)
  end.

(** [Apriori.check_rule], lines 137-150. *)
Definition check_rule (freq conseq : Itemset) (self : Apriori)
  : outcome (bool * Apriori) :=
  let ante := freq ∖ conseq in
  supp_freq ← dict_get (supp_dict self) freq;
  supp_ante ← dict_get (supp_dict self) ante;
  conf ← float_truediv supp_freq supp_ante;
  if float_ge conf (min_conf self)
  then Ok (true, append_rule (ante, conseq, conf) self)
  else Ok (false, self).

(** [Apriori.gen_conseqs], lines 110-135. *)
Definition gen_conseqs (freq : Itemset) (k : nat) (self : Apriori)
  : outcome Apriori :=
  '(conseqs, self) ←
    (if bool_decide (k = 0%nat) then
       for_each (λ '(conseqs, self) item,
         let conseq : Itemset := {[ item ]} in
         '(ok, self) ← check_rule freq conseq self;
         Ok (if ok : bool then conseqs ++ [conseq] else conseqs, self))
         (([] : list Itemset), self) (elements freq)
     else
       levels ← dict_get (conseq_dict self) freq;
       prev_conseqs ← getitem levels (Z.of_nat k - 1);
       for_each (λ '(conseqs, self) '(conseq_i, conseq_j),
         let conseq := conseq_i ∪ conseq_j in
         if bool_decide (size conseq = (k + 1)%nat) then
           '(ok, self) ← check_rule freq conseq self;
           Ok (if ok : bool then conseqs ++ [conseq] else conseqs, self)
         else Ok (conseqs, self))
         (([] : list Itemset), self) (join_pairs prev_conseqs));
  match conseqs with
  | [] => Ok self
  | _ => append_conseq freq conseqs self
  end.

(** The first loop of [apriori], [while True] (lines 44-51), started at
    [k].  [fuel] bounds the number of iterations; [None] says that it ran
    out. *)
Fixpoint level_loop (fuel k : nat) (self : Apriori)
  : option (outcome Apriori) :=
  match fuel with
  | O => None
  | S fuel =>
      match gen_cands k self with
      | Raise e => Some (Raise e)
      | Ok self =>
          let k := S k in
          if bool_decide (length (cand_list self) < k)%nat
          then Some (Ok self)
          else
            match gen_freqs k self with
            | Raise e => Some (Raise e)
            | Ok self =>
                if bool_decide (length (freq_list self) < k)%nat
                then Some (Ok self)
                else level_loop fuel k self
            end
      end
  end.

(** The loop [while k < i] of [apriori] (lines 57-61); [todo] is [i - k],
    the number of iterations left before the condition fails. *)
Fixpoint conseq_loop (freq : Itemset) (todo k : nat) (self : Apriori)
  : outcome Apriori :=
  match todo with
  | O => Ok self
  | S todo =>
      self ← gen_conseqs freq k self;
      let k := S k in
      levels ← dict_get (conseq_dict self) freq;
      if bool_decide (length levels < k)%nat then Ok self
      else conseq_loop freq todo k self
  end.

(** The second loop of [apriori], over [enumerate(self.freq_list)]
    (lines 52-61). *)
Definition rule_phase (self : Apriori) : outcome Apriori :=
  for_each (λ self '(i, freqs),
    if bool_decide (0 < i)%nat then
      for_each (λ self freq,
        let k := 0%nat in
        let self := bind_conseq freq [] self in
        conseq_loop freq (i - k) k self) self freqs
    else Ok self) self (enumerate (freq_list self)).

(** [Apriori.apriori], lines 35-61. *)
Definition apriori (fuel : nat) (self : Apriori)
  : option (outcome Apriori) :=
  match level_loop fuel 0 self with
  | None => None
  | Some (Raise e) => Some (Raise e)
  | Some (Ok self) => Some (rule_phase self)
  end.

End Algorithm.

(** * Vocabulary of the statements *)

(** ** Doubles used in the examples *)

(** [0.4], [0.5], [0.6], [0.75], [0.8], [1.0] and [2.0] as the parser of
    Python reads them, and [0.7499999999999999], the double below [0.75]. *)

Definition f0_4 : float := S754_finite false 7205759403792794 (-54).
Definition f0_5 : float := S754_finite false 4503599627370496 (-53).
Definition f0_6 : float := S754_finite false 5404319552844595 (-53).
Definition f0_75 : float := S754_finite false 6755399441055744 (-53).
Definition f0_8 : float := S754_finite false 7205759403792794 (-53).
Definition f1_0 : float := S754_finite false 4503599627370496 (-52).

Definition f0_75_pred : float := S754_finite false 6755399441055743 (-53).
Definition f2_0 : float := S754_finite false 4503599627370496 (-51).
Definition f0_0 : float := S754_zero false.

(** [0 < x <= 1], the range the specification gives to both thresholds. *)
Definition in_unit_range (x : float) : bool :=
  SFltb f0_0 x && SFleb x f1_0.

(** The configurations the specification calls invalid. *)
Definition invalid_configuration {Item} `{Countable Item}
    (baskets : list (gset Item)) (min_supp min_conf : float) : Prop :=
  in_unit_range min_supp = false ∨ in_unit_range min_conf = false
  ∨ baskets = [].

(** The baskets of the concrete scenario. *)
Definition scenario : list (gset Z) :=
  [ {[1; 2; 3]}; {[1; 2]}; {[1; 3]}; {[2; 3]}; {[1; 2; 3]} ].

(** ** Deciding equality, reading a result *)

#[global] Instance exn_eq_dec : EqDecision exn.
Proof. solve_decision. Defined.
#[global] Instance float_eq_dec : EqDecision float.
Proof. solve_decision. Defined.
#[global] Instance outcome_eq_dec `{EqDecision A} : EqDecision (outcome A).
Proof. solve_decision. Defined.
#[global] Instance Apriori_eq_dec {Item} `{Countable Item} :
  EqDecision (@Apriori Item _ _).
Proof. solve_decision. Defined.

(** The object a run returned, [d] when it did not return. *)
Definition returned {Item} `{Countable Item}
    (r : option (outcome (@Apriori Item _ _))) (d : Apriori) : Apriori :=
  match r with
  | Some (Ok self) => self
  | _ => d
  end.

Definition returns {Item} `{Countable Item}
    (r : option (outcome (@Apriori Item _ _))) : bool :=
  match r with
  | Some (Ok _) => true
  | _ => false
  end.

(** ** Supports, candidates, invariants *)

Section Specification.
Context {Item : Type} `{Countable Item}.
Implicit Types (bs : list (gset Item)) (c : gset Item).
Implicit Types (self start : @Apriori Item _ _).

(** Number of baskets that contain [c]. *)
Definition count bs c : Z :=
  Z.of_nat (length (filter (λ b, c ⊆ b) bs)).

(** The support ratio of [c]: that number divided by the number of baskets,
    as a double. *)
Definition support bs c : float :=
  SFdiv prec emax (float_of_int (count bs c))
    (float_of_int (Z.of_nat (length bs))).

Definition frequent bs (min_supp : float) c : Prop :=
  float_ge (support bs c) min_supp = true.

#[global] Instance frequent_dec bs min_supp c :
  Decision (frequent bs min_supp c) :=
  decide (float_ge (support bs c) min_supp = true).

(** All distinct singleton itemsets across all baskets. *)
Definition singletons bs : gset (gset Item) :=
  set_map (λ item, {[ item ]}) (⋃ bs).

(** Every union of two distinct itemsets of [level] whose size is [k + 1]. *)
Definition joins (k : nat) (level : list (gset Item)) : gset (gset Item) :=
  list_to_set
    (a ← level; b ← level;
     if bool_decide (a ≠ b ∧ size (a ∪ b) = (k + 1)%nat) then [a ∪ b] else []).

(** The statement [if cands: self.cand_list.append(cands)]. *)
Definition new_cand_level (cands : gset (gset Item)) (self : Apriori)
  : Apriori :=
  if bool_decide (cands ≠ ∅)
  then set_cand_list (cand_list self ++ [cands]) self else self.

(** What [gen_cands k] reads: the baskets when [k = 0], else the frequent
    level of index [k - 1], made of itemsets of size [k]. *)
Definition input_level (k : nat) (self : Apriori) (level : list (gset Item))
  : Prop :=
  match k with
  | O => level = baskets self
  | S k' => freq_list self !! k' = Some level ∧ ∀ a, a ∈ level → size a = k
  end.

(** The candidates the specification asks for. *)
Definition candidates (k : nat) (level : list (gset Item))
  : gset (gset Item) :=
  match k with
  | O => singletons level
  | S _ => joins k level
  end.

(** The statements [self.supp_dict[cand] = supp], one per kept candidate. *)
Definition record_supports bs (kept : list (gset Item)) (self : Apriori)
  : Apriori :=
  foldl (λ self c, bind_supp c (support bs c) self) self kept.

(** The statement [if freqs: self.freq_list.append(freqs)]. *)
Definition new_freq_level (freqs : list (gset Item)) (self : Apriori)
  : Apriori :=
  match freqs with
  | [] => self
  | _ => set_freq_list (freq_list self ++ [freqs]) self
  end.

(** *** The first loop *)

(** What holds of the object each time the first loop of [apriori] is at
    its head, and after it, for the configuration [bs], [ms], [mc]. *)
Record levels_inv bs (ms mc : float) self : Prop := {
  inv_baskets : baskets self = bs;
  inv_n_baskets : n_baskets self = Z.of_nat (length bs);
  inv_min_supp : min_supp self = ms;
  inv_min_conf : min_conf self = mc;
  inv_cands : ∀ t cands, cand_list self !! t = Some cands →
    cands ≠ ∅
    ∧ ∃ level, input_level t self level ∧ cands = candidates t level;
  inv_freqs : ∀ t freqs, freq_list self !! t = Some freqs →
    freqs ≠ []
    ∧ ∃ cands, cand_list self !! t = Some cands
               ∧ freqs = filter (frequent bs ms) (elements cands);
  inv_size : ∀ t cands c, cand_list self !! t = Some cands → c ∈ cands →
    size c = S t ∧ c ⊆ ⋃ bs;
  inv_supp_bound : supp_bound self = concat (freq_list self);
  inv_supp_dict : ∀ c,
    supp_dict self !! c
    = if decide (c ∈ concat (freq_list self)) then Some (support bs c)
      else None
}.

(** Nothing of the second loop has happened. *)
Definition no_rules self : Prop :=
  conseq_dict self = ∅ ∧ rule_list self = [] ∧ conseq_bound self = [].

(** The two ways out of the first loop: [gen_cands] found no candidate of
    the next size, or [gen_freqs] kept none of the candidates it had. *)
Definition level_done bs (ms : float) self : Prop :=
  (length (cand_list self) = length (freq_list self)
   ∧ ∀ level, input_level (length (freq_list self)) self level →
       candidates (length (freq_list self)) level = ∅)
  ∨ (length (cand_list self) = S (length (freq_list self))
     ∧ ∀ cands c, cand_list self !! length (freq_list self) = Some cands →
         c ∈ cands → ¬ frequent bs ms c).

(** *** The second loop *)

(** A rule [(ante, conseq, conf)] is sound for the frequent levels [levels],
    the supports [supp] and the threshold [mc]. *)
Definition sound_rule (levels : list (list (gset Item)))
    (supp : gmap (gset Item) float) (mc : float)
    (r : gset Item * gset Item * float) : Prop :=
  let '(ante, conseq, conf) := r in
  ∃ (i : nat) level freq supp_freq supp_ante,
    levels !! i = Some level ∧ freq ∈ level
    ∧ conseq ⊆ freq ∧ conseq ≠ ∅ ∧ conseq ≠ freq
    ∧ ante = freq ∖ conseq ∧ ante ≠ ∅ ∧ ante ## conseq
    ∧ ante ∪ conseq = freq
    ∧ supp !! freq = Some supp_freq ∧ supp !! ante = Some supp_ante
    ∧ float_truediv supp_freq supp_ante = Ok conf
    ∧ float_ge conf mc = true.

(** The consequence levels [clevels] recorded for the frequent itemset
    [freq]: level [t] holds subsets of [freq] of [t + 1] items, and there
    are fewer levels than [freq] has items. *)
Definition conseq_ok (levels : list (list (gset Item))) (freq : gset Item)
    (clevels : list (list (gset Item))) : Prop :=
  ∃ (i : nat) level,
    (0 < i)%nat ∧ levels !! i = Some level ∧ freq ∈ level
    ∧ (length clevels ≤ i)%nat
    ∧ ∀ (t : nat) lvl conseq, clevels !! t = Some lvl → conseq ∈ lvl →
        conseq ⊆ freq ∧ size conseq = S t.

(** What holds of the object all along the second loop, started from the
    object [start] that the first loop left. *)
Record rules_inv (start self : @Apriori Item _ _) : Prop := {
  rinv_baskets : baskets self = baskets start;
  rinv_n_baskets : n_baskets self = n_baskets start;
  rinv_min_supp : min_supp self = min_supp start;
  rinv_min_conf : min_conf self = min_conf start;
  rinv_cand_list : cand_list self = cand_list start;
  rinv_freq_list : freq_list self = freq_list start;
  rinv_supp_dict : supp_dict self = supp_dict start;
  rinv_supp_bound : supp_bound self = supp_bound start;
  rinv_rules : ∀ r, r ∈ rule_list self →
    sound_rule (freq_list start) (supp_dict start) (min_conf start) r;
  rinv_conseqs : ∀ freq clevels, conseq_dict self !! freq = Some clevels →
    conseq_ok (freq_list start) freq clevels;
  rinv_keys : dom (conseq_dict self) = list_to_set (conseq_bound self)
}.

(** Every non-empty subset of a frequent itemset has a recorded support,
    and it is not zero: what [check_rule] needs of its antecedent. *)
Definition antecedents_ok (start : @Apriori Item _ _) : Prop :=
  ∀ (i : nat) level (freq ante : gset Item),
    freq_list start !! i = Some level → freq ∈ level →
    ante ⊆ freq → ante ≠ ∅ →
    ∃ v, supp_dict start !! ante = Some v ∧ float_is_zero v = false.

(** The keys that the second loop binds in [conseq_dict], in order: the
    itemsets of every frequent level but the first. *)
Definition rule_keys (levels : list (list (gset Item))) : list (gset Item) :=
  concat ((λ '(i, freqs), if bool_decide (0 < i)%nat then freqs else [])
            <$> enumerate levels).

(** A count dictionary over the keys [keys], in their order. *)
Definition tally (g : gset Item → Z) (keys : list (gset Item))
  : list (gset Item * Z) :=
  (λ c, (c, g c)) <$> keys.

(** What the loops of [gen_conseqs] keep true of the consequences kept so
    far and of the object. *)
Definition conseqs_inv start self (freq : gset Item) (k : nat)
    (acc : list (gset Item) * Apriori) : Prop :=
  rules_inv start acc.2
  ∧ conseq_dict acc.2 = conseq_dict self
  ∧ conseq_bound acc.2 = conseq_bound self
  ∧ ∀ conseq, conseq ∈ acc.1 → conseq ⊆ freq ∧ size conseq = S k.

End Specification.

(** [m] satisfies [post] when it returns, and raises only if [safe] fails. *)
Definition spec {A} (safe : Prop) (m : outcome A) (post : A → Prop) : Prop :=
  match m with
  | Ok a => post a
  | Raise _ => ¬ safe
  end.

(** ** Runs used as examples *)

(** The run on the scenario, and the object it returns. *)
Definition scenario_result : option (outcome (@Apriori Z _ _)) :=
  apriori 3 (__init__ scenario f0_6 f0_75).
Definition scenario_self : @Apriori Z _ _ :=
  returned scenario_result (__init__ [] f0_0 f0_0).

(** The run on the basket {1,2,3,4}, and the object it returns. *)
Definition four_items_result : option (outcome (@Apriori Z _ _)) :=
  apriori 5 (__init__ [ {[1; 2; 3; 4]} ] f0_5 f0_5).
Definition four_items_self : @Apriori Z _ _ :=
  returned four_items_result (__init__ [] f0_0 f0_0).

(** The object after [gen_cands 0] on the scenario. *)
Definition scenario_level0 : @Apriori Z _ _ :=
  new_cand_level (singletons scenario) (__init__ scenario f0_6 f0_75).

(** The object a call returned, [d] when it raised. *)
Definition after {Item} `{Countable Item}
    (m : outcome (@Apriori Item _ _)) (d : Apriori) : Apriori :=
  match m with
  | Ok self => self
  | Raise _ => d
  end.

(** The scenario after its first round, when [gen_freqs 1] has met the
    candidates in the order {1}, {2}, {3}: the three are frequent.  The
    second round starts with [gen_cands 1]. *)
Definition scenario_freqs1 : @Apriori Z _ _ :=
  new_freq_level [ {[1]}; {[2]}; {[3]} ]
    (record_supports scenario [ {[1]}; {[2]}; {[3]} ] scenario_level0).
Definition scenario_level1 : @Apriori Z _ _ :=
  after (gen_cands 1 scenario_freqs1) scenario_freqs1.

(** The scenario with [min_conf = 0.5], and the object the run returns. *)
Definition lenient_result : option (outcome (@Apriori Z _ _)) :=
  apriori 3 (__init__ scenario f0_6 f0_5).
Definition lenient_self : @Apriori Z _ _ :=
  returned lenient_result (__init__ [] f0_0 f0_0).

(** ** Rounding to a double *)

(** [X / D] lies between [m] and [m + 1], at the place [l]. *)
Definition located (X D m : Z) (l : location) : Prop :=
  m * D ≤ X < (m + 1) * D
  ∧ l = (if X - m * D =? 0 then loc_Exact
         else loc_Inexact (2 * (X - m * D) ?= D)).

(** The place after one shift to the right. *)
Definition loc_shift (q : Z) (l : location) : location :=
  loc_of_shr_record (shr_1 (shr_record_of_loc q l)).

(** A mantissa [m] at the exponent [e] needs no shift: it has 53 bits, or
    fewer at the least exponent. *)
Definition fits (m e : Z) : Prop :=
  0 ≤ m < 2 ^ 53 ∧ -1074 ≤ e ≤ 970 ∧ (2 ^ 52 ≤ m ∨ e = -1074).

(** Rounding a mantissa that fits, at the place [l]: zero when nothing is
    left, and one more bit when the largest mantissa is rounded up. *)
Definition round_at (m e : Z) (l : location) : float :=
  let m2 := round_nearest_even m l in
  if m2 =? 0 then S754_zero false
  else if m2 <? 2 ^ 53 then S754_finite false (Z.to_pos m2) e
  else S754_finite false (Z.to_pos (2 ^ 52)) (e + 1).

(** [x] is the double nearest to [a / n]: zero when [a / n] is at most
    half the least double, else [M * 2 ^ E] within half a unit in the last
    place; when [M] is the least mantissa of a normal double, the double
    below is twice as near, and [a / n] is not closer to it. *)
Definition rounds_to (a n : Z) (x : float) : Prop :=
  (x = S754_zero false ∧ a * 2 ^ 1075 ≤ n)
  ∨ ∃ (M : positive) (E : Z),
      x = S754_finite false M E ∧ -1074 ≤ E ≤ 0
      ∧ Z.pos M < 2 ^ 53 ∧ (-1074 < E → 2 ^ 52 ≤ Z.pos M)
      ∧ (2 * Z.pos M - 1) * n ≤ a * 2 ^ (1 - E) ≤ (2 * Z.pos M + 1) * n
      ∧ (Z.pos M = 2 ^ 52 → -1074 < E →
         (4 * Z.pos M - 1) * n ≤ a * 2 ^ (2 - E)).

(** ** Rules and consequences *)

Section Rules.
Context {Item : Type} `{Countable Item}.
Implicit Types (bs : list (gset Item)) (freq conseq : gset Item).
Implicit Types (self start : @Apriori Item _ _).

(** The confidence of the rule from [freq] without [conseq] to [conseq]:
    the support ratio of [freq] divided by that of the antecedent. *)
Definition confidence bs freq conseq : float :=
  SFdiv prec emax (support bs freq) (support bs (freq ∖ conseq)).

Definition confident bs (mc : float) freq conseq : Prop :=
  float_ge (confidence bs freq conseq) mc = true.

#[global] Instance confident_dec bs mc freq conseq :
  Decision (confident bs mc freq conseq) :=
  decide (float_ge (confidence bs freq conseq) mc = true).

(** The tuple that [check_rule] appends for [freq] and [conseq]. *)
Definition rule_of bs freq conseq : gset Item * gset Item * float :=
  (freq ∖ conseq, conseq, confidence bs freq conseq).

(** The consequences that the call [gen_conseqs freq k] examines, in
    order, when [clevels] is [conseq_dict[freq]]: one per item of [freq]
    when [k = 0], else the unions of [k + 1] items of two consequences of
    the level before, one per pair of positions. *)
Definition conseq_cands freq (k : nat) (clevels : list (list (gset Item)))
  : list (gset Item) :=
  match k with
  | O => (λ item, {[ item ]}) <$> elements freq
  | S k' =>
      filter (λ c, size c = S k)
        ((λ p, p.1 ∪ p.2) <$> join_pairs (default [] (clevels !! k')))
  end.

(** The rules of the consequences recorded in [d] under the keys [keys]:
    key by key, level by level, consequence by consequence. *)
Definition rules_of bs (keys : list (gset Item))
    (d : gmap (gset Item) (list (list (gset Item))))
  : list (gset Item * gset Item * float) :=
  freq ← keys; lvl ← default [] (d !! freq); rule_of bs freq <$> lvl.

(** Every level of [clevels] holds the confident ones among the
    consequences examined for it, and is not empty. *)
Definition conseq_levels_exact bs (mc : float) freq
    (clevels : list (list (gset Item))) : Prop :=
  ∀ (t : nat) lvl, clevels !! t = Some lvl →
    lvl ≠ []
    ∧ lvl = filter (confident bs mc freq) (conseq_cands freq t clevels).

(** Every consequence examined for [freq] up to the level [k] had an
    antecedent whose support is not zero: [check_rule] divided by it. *)
Definition conseq_levels_checked bs freq (k : nat)
    (clevels : list (list (gset Item))) : Prop :=
  ∀ (t : nat) c, (t < k)%nat → c ∈ conseq_cands freq t clevels →
    float_is_zero (support bs (freq ∖ c)) = false.

(** The consequence levels of an itemset [freq] of [i + 1] items when the
    loop [while k < i] is over: the levels are exact, the loop stopped
    before [i] levels only if the next level had been empty, and every
    consequence of a level that it reached was examined. *)
Definition conseq_levels_done bs (mc : float) freq (i : nat)
    (clevels : list (list (gset Item))) : Prop :=
  (length clevels ≤ i)%nat
  ∧ conseq_levels_exact bs mc freq clevels
  ∧ ((length clevels < i)%nat →
     filter (confident bs mc freq)
       (conseq_cands freq (length clevels) clevels) = [])
  ∧ conseq_levels_checked bs freq (Nat.min i (S (length clevels))) clevels.

(** The fields that the second loop does not write. *)
Record frame self self' : Prop := {
  frame_baskets : baskets self' = baskets self;
  frame_n_baskets : n_baskets self' = n_baskets self;
  frame_min_supp : min_supp self' = min_supp self;
  frame_min_conf : min_conf self' = min_conf self;
  frame_cand_list : cand_list self' = cand_list self;
  frame_freq_list : freq_list self' = freq_list self;
  frame_supp_dict : supp_dict self' = supp_dict self;
  frame_supp_bound : supp_bound self' = supp_bound self
}.

(** The body of the two loops of [gen_conseqs], once the consequence to
    examine is known. *)
Definition check_body freq (acc : list (gset Item) * @Apriori Item _ _)
    conseq : outcome (list (gset Item) * @Apriori Item _ _) :=
  '(ok, self) ← check_rule freq conseq acc.2;
  Ok (if ok : bool then acc.1 ++ [conseq] else acc.1, self).

End Rules.

(** The only exception of the second loop: a division by a support that
    is zero, which [0 < min_supp] excludes. *)
Definition zero_support (ms : float) (e : exn) : Prop :=
  e = ZeroDivisionError ∧ SFltb f0_0 ms = false.

(** [m] satisfies [post] when it returns, and raises only exceptions that
    satisfy [E]. *)
Definition raises_only {A} (E : exn → Prop) (m : outcome A)
    (post : A → Prop) : Prop :=
  match m with
  | Ok a => post a
  | Raise e => E e
  end.

(** ** Small doubles *)


(** A double above zero whose exponent is at most zero, in canonical
    form: 53 bits, or fewer at the least exponent. *)
Definition small_double (M : positive) (E : Z) : Prop :=
  -1074 ≤ E ≤ 0 ∧ Z.pos M < 2 ^ 53 ∧ (-1074 < E → 2 ^ 52 ≤ Z.pos M).

(** [M * 2 ^ E] in units of the least double. *)
Definition scaled (M : positive) (E : Z) : Z := Z.pos M * 2 ^ (E + 1074).

(** ** Methods called on any object *)

Section Methods.
Context {Item : Type} `{Countable Item}.

(** What [l[k - 1]] reads for [k >= 0]: the element of index [k - 1], and
    the last element when [k = 0], the index [-1] counting from the end. *)
Definition read_level {A} (l : list A) (k : nat) : option A :=
  match k with
  | O => last l
  | S k' => l !! k'
  end.

(** The quotient that [gen_freqs] computes for a candidate: the number of
    baskets that contain it divided by [n_baskets]. *)
Definition ratio (self : @Apriori Item _ _) (c : gset Item) : float :=
  SFdiv prec emax (float_of_int (count (baskets self) c))
    (float_of_int (n_baskets self)).

End Methods.

(** ** Occurrences in a list *)

(** [x] occurs at two places of [l]. *)
Definition twice {A} (x : A) (l : list A) : Prop :=
  ∃ l1 l2 l3, l = l1 ++ x :: l2 ++ x :: l3.

(** ** The script *)

(** [formulate] of the script (line 160), on a set of integers listed in
    the order [l]: the members sorted, written in decimal and joined by
    bars. *)
Definition formulate_list (l : list Z) : string :=
  String.concat "|" (pretty <$> merge_sort Z.le l).

(** [formulate s]: the members are listed in the order of [elements]. *)
Definition formulate (s : gset Z) : string := formulate_list (elements s).

(** The string [s] has no bar. *)
Fixpoint bar_free (s : string) : Prop :=
  match s with
  | EmptyString => True
  | String c s' => c ≠ "|"%char ∧ bar_free s'
  end.

(** ** More runs used as examples *)

(** The scenario with its baskets in the opposite order. *)
Definition reversed_result : option (outcome (@Apriori Z _ _)) :=
  apriori 3 (__init__ (reverse scenario) f0_6 f0_75).
Definition reversed_self : @Apriori Z _ _ :=
  returned reversed_result (__init__ [] f0_0 f0_0).

(** The scenario with [min_supp = 0.8]. *)
Definition strict_result : option (outcome (@Apriori Z _ _)) :=
  apriori 3 (__init__ scenario f0_8 f0_75).
Definition strict_self : @Apriori Z _ _ :=
  returned strict_result (__init__ [] f0_0 f0_0).

(** The basket {1,2,3,4} with [min_conf = 0.8]. *)
Definition four_strict_result : option (outcome (@Apriori Z _ _)) :=
  apriori 5 (__init__ [ {[1; 2; 3; 4]} ] f0_5 f0_8).
Definition four_strict_self : @Apriori Z _ _ :=
  returned four_strict_result (__init__ [] f0_0 f0_0).

(** Two baskets {1,2,3} around a basket {4}, then {1,2}, in both orders. *)
Definition three_twice : list (gset Z) :=
  [ {[1; 2; 3]}; {[4]}; {[1; 2; 3]}; {[1; 2]} ].
Definition three_twice_result : option (outcome (@Apriori Z _ _)) :=
  apriori 5 (__init__ three_twice f0_5 f0_5).
Definition three_twice_self : @Apriori Z _ _ :=
  returned three_twice_result (__init__ [] f0_0 f0_0).
Definition three_twice_reversed_result : option (outcome (@Apriori Z _ _)) :=
  apriori 5 (__init__ (reverse three_twice) f0_5 f0_5).
Definition three_twice_reversed_self : @Apriori Z _ _ :=
  returned three_twice_reversed_result (__init__ [] f0_0 f0_0).

(** Three baskets of one item each: no two items are ever together. *)
Definition apart : list (gset Z) := [ {[1]}; {[2]}; {[3]} ].

(** One basket of two items, with [min_supp = 0.0]. *)
Definition pair_result : option (outcome (@Apriori Z _ _)) :=
  apriori 3 (__init__ [ {[1; 2]} ] f0_0 f0_5).
Definition pair_self : @Apriori Z _ _ :=
  returned pair_result (__init__ [] f0_0 f0_0).

(** An object without baskets that has been given one candidate. *)
Definition orphan_level : @Apriori Z _ _ :=
  set_cand_list [ {[ {[1]} ]} ] (__init__ [] f0_5 f0_5).

(** * Theorems *)

(** ** Doubles: the quotient of two counts *)

Lemma float_ge_trans (x y z : float) :
  float_ge x y = true → float_ge y z = true → float_ge x z = true.
Proof.
  unfold float_ge.
  destruct x as [sx|sx| |sx mx ex], y as [sy|sy| |sy my ey],
    z as [sz|sz| |sz mz ez]; simpl; try done;
    try (destruct sx; done); try (destruct sy; done);
    try (destruct sz; done);
    try (destruct sx, sy; done); try (destruct sy, sz; done);
    try (destruct sx, sz; done); try (destruct sx, sy, sz; done).
  destruct sx, sy, sz; try done;
    destruct (Z.compare_spec ex ey), (Z.compare_spec ey ez),
      (Z.compare_spec ex ez); try done; try lia; subst;
    rewrite ?Pos.compare_cont_spec in *; simpl in *;
    destruct (Pos.compare_spec mx my), (Pos.compare_spec my mz),
      (Pos.compare_spec mx mz); try done; try lia.
Qed.

Lemma float_ge_zero_lt (m s : float) :
  SFltb (S754_zero false) m = true → float_ge s m = true →
  float_is_zero s = false.
Proof.
  unfold SFltb, float_ge. destruct s as [ss|ss| |ss ms es]; try done.
  simpl. by destruct m as [sm|sm| |sm mm em]; try destruct sm.
Qed.

(** The number of binary digits of a positive number. *)
Lemma digits2_pos_bounds (p : positive) :
  2 ^ (Z.pos (digits2_pos p) - 1) ≤ Z.pos p < 2 ^ Z.pos (digits2_pos p).
Proof.
  induction p as [p IH|p IH|]; cbn [digits2_pos].
  - rewrite Pos2Z.inj_succ.
    replace (Z.succ (Z.pos (digits2_pos p)) - 1)
      with (Z.succ (Z.pos (digits2_pos p) - 1)) by lia.
    rewrite !Z.pow_succ_r by lia. lia.
  - rewrite Pos2Z.inj_succ.
    replace (Z.succ (Z.pos (digits2_pos p)) - 1)
      with (Z.succ (Z.pos (digits2_pos p) - 1)) by lia.
    rewrite !Z.pow_succ_r by lia. lia.
  - simpl. lia.
Qed.

Lemma Zdigits2_unique (m d : Z) :
  0 < d → 2 ^ (d - 1) ≤ m < 2 ^ d → Zdigits2 m = d.
Proof.
  intros Hd [Hlo Hhi]. destruct m as [|p|p].
  - pose proof (Z.pow_pos_nonneg 2 (d - 1)). lia.
  - cbn [Zdigits2]. pose proof (digits2_pos_bounds p) as [Hl Hh].
    destruct (Z.lt_trichotomy (Z.pos (digits2_pos p)) d) as [Hlt|[Heq|Hgt]];
      [|done|].
    + assert (2 ^ Z.pos (digits2_pos p) ≤ 2 ^ (d - 1))
        by (apply Z.pow_le_mono_r; lia). lia.
    + assert (2 ^ d ≤ 2 ^ (Z.pos (digits2_pos p) - 1))
        by (apply Z.pow_le_mono_r; lia). lia.
  - pose proof (Z.pow_pos_nonneg 2 (d - 1)). lia.
Qed.

(** The location of a remainder, in one formula. *)
Lemma new_location_spec (n r : Z) :
  0 < n → 0 ≤ r < n →
  new_location n r
  = if r =? 0 then loc_Exact else loc_Inexact (2 * r ?= n).
Proof.
  intros Hn Hr. unfold new_location, new_location_even, new_location_odd.
  destruct (Z.even n) eqn:Heven; [done|].
  destruct (r =? 0); [done|]. f_equal.
  assert (Z.odd n = true) as Hodd by (by rewrite <- Z.negb_even, Heven).
  apply Z.odd_spec in Hodd as [k Hk].
  destruct (Z.compare_spec (2 * r + 1) n), (Z.compare_spec (2 * r) n);
    try done; lia.
Qed.

Lemma shr_1_spec (m : Z) (r s : bool) :
  0 ≤ m →
  shr_1 {| shr_m := m; shr_r := r; shr_s := s |}
  = {| shr_m := m / 2; shr_r := Z.odd m; shr_s := r || s |}.
Proof.
  intros Hm. unfold shr_1. destruct m as [|[p|p|]|]; try done; try lia.
  - f_equal. rewrite Pos2Z.inj_xI. 
    replace (2 * Z.pos p + 1) with (1 + Z.pos p * 2) by lia.
    rewrite Z.div_add by lia. done.
  - f_equal. rewrite Pos2Z.inj_xO.
    replace (2 * Z.pos p) with (Z.pos p * 2) by lia.
    by rewrite Z.div_mul by lia.
Qed.

Lemma loc_of_shr_record_of_loc (m : Z) (l : location) :
  loc_of_shr_record (shr_record_of_loc m l) = l.
Proof. by destruct l as [|[]]. Qed.

Lemma shr_record_of_loc_of_shr_record (mrs : shr_record) :
  shr_record_of_loc (shr_m mrs) (loc_of_shr_record mrs) = mrs.
Proof. by destruct mrs as [m [] []]. Qed.

Lemma located_div (X D : Z) :
  0 < D → 0 ≤ X → located X D (X / D) (new_location D (X mod D)).
Proof.
  intros HD HX. pose proof (Z.div_mod X D) as Hdiv.
  pose proof (Z.mod_pos_bound X D HD) as Hmod.
  unfold located. rewrite new_location_spec by done.
  replace (X - X / D * D) with (X mod D) by lia. split; [lia|done].
Qed.

Lemma located_shift (X D q : Z) (l : location) :
  0 < D → 0 ≤ q → located (2 * X) D q l →
  located X D (q / 2) (loc_shift q l).
Proof.
  intros HD Hq [Hq1 ->]. unfold located, loc_shift.
  pose proof (Z.div_mod q 2) as Hdiv.
  pose proof (Z.mod_pos_bound q 2) as Hmod.
  assert (Z.odd q = (q mod 2 =? 1)) as Hodd.
  { rewrite Zmod_odd. by destruct (Z.odd q). }
  set (h := q / 2) in *. set (b := q mod 2) in *.
  assert (q * D = 2 * (h * D) + b * D) as HqD by lia.
  split; [nia|].
  assert (X - h * D = 0 ↔ (2 * X - q * D = 0 ∧ b = 0)) as Hexact by nia.
  destruct (Z.eqb_spec (2 * X - q * D) 0) as [Hr|Hr];
    simpl shr_record_of_loc.
  - rewrite shr_1_spec by done. fold h. rewrite Hodd. simpl.
    destruct (Z.eqb_spec b 1) as [Hb|Hb]; simpl.
    + destruct (Z.eqb_spec (X - h * D) 0) as [?|_]; [lia|].
      f_equal. symmetry. apply Z.compare_eq_iff. nia.
    + destruct (Z.eqb_spec (X - h * D) 0) as [_|?]; [done|lia].
  - assert (shr_1 (match 2 * (2 * X - q * D) ?= D with
                   | Eq => {| shr_m := q; shr_r := true; shr_s := false |}
                   | Lt => {| shr_m := q; shr_r := false; shr_s := true |}
                   | Gt => {| shr_m := q; shr_r := true; shr_s := true |}
                   end)
            = {| shr_m := h; shr_r := Z.odd q; shr_s := true |}) as ->.
    { destruct (2 * (2 * X - q * D) ?= D); rewrite shr_1_spec by done;
        by rewrite ?orb_true_r. }
    rewrite Hodd. destruct (Z.eqb_spec (X - h * D) 0) as [?|_]; [lia|].
    destruct (Z.eqb_spec b 1) as [Hb|Hb]; simpl; f_equal; symmetry.
    + apply Z.compare_gt_iff. nia.
    + apply Z.compare_lt_iff. nia.
Qed.

Lemma round_nearest_even_bounds (m : Z) (l : location) :
  m ≤ round_nearest_even m l ≤ m + 1.
Proof.
  unfold round_nearest_even. destruct l as [|[]]; try lia.
  destruct (Z.even m); lia.
Qed.

Lemma fexp_double (e : Z) : fexp prec emax e = Z.max (e - 53) (-1074).
Proof. done. Qed.

Lemma Zdigits2_le (m k : Z) : 0 ≤ k → 0 ≤ m < 2 ^ k → 0 ≤ Zdigits2 m ≤ k.
Proof.
  intros Hk Hm. destruct m as [|p|p]; try lia; cbn [Zdigits2]; [lia|].
  pose proof (digits2_pos_bounds p) as [Hlo _]. split; [lia|].
  destruct (Z.le_gt_cases (Z.pos (digits2_pos p)) k) as [?|Hgt]; [done|].
  assert (2 ^ k ≤ 2 ^ (Z.pos (digits2_pos p) - 1))
    by (apply Z.pow_le_mono_r; lia). lia.
Qed.

Lemma fexp_fits (m e : Z) : fits m e → fexp prec emax (Zdigits2 m + e) = e.
Proof.
  intros (Hm & He & [Hnormal|Hsub]); rewrite fexp_double.
  - rewrite (Zdigits2_unique m 53) by (done || lia). lia.
  - pose proof (Zdigits2_le m 53). lia.
Qed.

Lemma binary_round_aux_fits (m e : Z) (l : location) :
  fits m e → binary_round_aux prec emax false m e l = round_at m e l.
Proof.
  intros Hfits. unfold binary_round_aux, round_at, shr_fexp.
  rewrite (fexp_fits m e Hfits).
  replace (e - e) with 0 by lia. cbn [shr].
  rewrite loc_of_shr_record_of_loc.
  replace (shr_m (shr_record_of_loc m l)) with m by (by destruct l as [|[]]).
  pose proof (round_nearest_even_bounds m l) as Hm2.
  destruct Hfits as (Hm & He & Hcase).
  set (m2 := round_nearest_even m l) in *.
  destruct (Z.ltb_spec m2 (2 ^ 53)) as [Hlt|Hge].
  - rewrite (fexp_fits m2 e) by (unfold fits; lia).
    replace (e - e) with 0 by lia. cbn [shr shr_record_of_loc shr_m].
    destruct m2 as [|p|p]; try lia; [done|]. cbn [Z.eqb].
    unfold prec, emax. destruct (Z.leb_spec e (1024 - 53)); [done|lia].
  - assert (m2 = 2 ^ 53) as -> by lia.
    rewrite (Zdigits2_unique (2 ^ 53) 54) by (done || lia).
    rewrite fexp_double.
    replace (Z.max (54 + e - 53) (-1074) - e) with 1 by lia.
    cbn [shr shr_record_of_loc]. unfold SpecFloat.iter_pos.
    rewrite shr_1_spec by lia.
    cbn [shr_m]. change (2 ^ 53 / 2) with (2 ^ 52).
    change (2 ^ 52) with (Z.pos (Z.to_pos (2 ^ 52))) at 1.
    cbv iota beta. change (2 ^ 53 =? 0) with false. cbv iota.
    unfold prec, emax. destruct (Z.leb_spec (e + 1) (1024 - 53)); [done|lia].
Qed.

Lemma binary_round_aux_shift (q e : Z) (l : location) :
  2 ^ 53 ≤ q < 2 ^ 54 → -1075 ≤ e ≤ 969 →
  binary_round_aux prec emax false q e l
  = round_at (q / 2) (e + 1) (loc_shift q l).
Proof.
  intros Hq He.
  assert (2 ^ 52 ≤ q / 2 < 2 ^ 53) as Hh.
  { split; [apply Z.div_le_lower_bound; lia|
            apply Z.div_lt_upper_bound; lia]. }
  assert (fits (q / 2) (e + 1)) as Hfits by (unfold fits; lia).
  rewrite <- binary_round_aux_fits by done.
  unfold binary_round_aux at 1. unfold shr_fexp at 1.
  rewrite (Zdigits2_unique q 54) by (done || lia).
  rewrite fexp_double.
  replace (Z.max (54 + e - 53) (-1074) - e) with 1 by lia. cbn [shr].
  unfold binary_round_aux, shr_fexp at 2.
  rewrite (fexp_fits _ _ Hfits).
  replace (e + 1 - (e + 1)) with 0 by lia. cbn [shr].
  unfold loc_shift, SpecFloat.iter_pos.
  assert (shr_m (shr_1 (shr_record_of_loc q l)) = q / 2) as Hm.
  { destruct l as [|[]]; cbn [shr_record_of_loc];
      by rewrite shr_1_spec by lia. }
  rewrite <- Hm. by rewrite !shr_record_of_loc_of_shr_record.
Qed.

Lemma round_at_rounds (a n m e : Z) (l : location) :
  0 < n → 0 ≤ a → e ≤ -1 → fits m e →
  located (a * 2 ^ (- e)) n m l →
  rounds_to a n (round_at m e l).
Proof.
  intros Hn Ha He (Hm & He' & Hcase) [HX Hl]. unfold round_at, rounds_to.
  set (P := 2 ^ (- e)) in *.
  assert (2 ^ (1 - e) = 2 * P) as Hp1.
  { replace (1 - e) with (Z.succ (- e)) by lia.
    by rewrite Z.pow_succ_r by lia. }
  assert (2 ^ (2 - e) = 4 * P) as Hp2.
  { replace (2 - e) with (Z.succ (Z.succ (- e))) by lia.
    rewrite !Z.pow_succ_r by lia. fold P. lia. }
  assert (2 ^ (1 - (e + 1)) = P) as Hp3 by (unfold P; f_equal; lia).
  assert (2 ^ (2 - (e + 1)) = 2 * P) as Hp4
    by (rewrite <- Hp1; f_equal; lia).
  set (X := a * P) in *. set (R := X - m * n) in *.
  assert (0 ≤ R < n) as HR by (unfold R; lia).
  assert (X = m * n + R) as HXR by (unfold R; lia).
  assert (a * (2 * P) = 2 * (m * n) + 2 * R) as H2X by (fold X; lia).
  assert (a * (4 * P) = 4 * (m * n) + 4 * R) as H4X by (fold X; lia).
  assert (∀ m2 : Z, (m2 = m ∧ 2 * R ≤ n) ∨ (m2 = m + 1 ∧ n ≤ 2 * R) →
    (((if m2 =? 0 then S754_zero false
       else if m2 <? 2 ^ 53 then S754_finite false (Z.to_pos m2) e
       else S754_finite false (Z.to_pos (2 ^ 52)) (e + 1))
      = S754_zero false ∧ a * 2 ^ 1075 ≤ n)
     ∨ ∃ (M : positive) (E : Z),
      (if m2 =? 0 then S754_zero false
       else if m2 <? 2 ^ 53 then S754_finite false (Z.to_pos m2) e
       else S754_finite false (Z.to_pos (2 ^ 52)) (e + 1))
      = S754_finite false M E ∧ -1074 ≤ E ≤ 0
      ∧ Z.pos M < 2 ^ 53 ∧ (-1074 < E → 2 ^ 52 ≤ Z.pos M)
      ∧ (2 * Z.pos M - 1) * n ≤ a * 2 ^ (1 - E) ≤ (2 * Z.pos M + 1) * n
      ∧ (Z.pos M = 2 ^ 52 → -1074 < E →
         (4 * Z.pos M - 1) * n ≤ a * 2 ^ (2 - E))))
    as Hcases.
  { intros m2 Hm2. destruct (Z.eqb_spec m2 0) as [Hz|Hnz].
    { left. split; [done|].
      destruct Hm2 as [[? ?]|[? ?]]; [|lia]. subst m2 m.
      assert (e = -1074) as He1 by lia.
      replace (2 ^ 1075) with (2 * P); [lia|].
      rewrite <- Hp1. f_equal. lia. }
    right. destruct (Z.ltb_spec m2 (2 ^ 53)) as [Hlt|Hge].
    - exists (Z.to_pos m2), e. rewrite Z2Pos.id by lia.
      rewrite Hp1, Hp2, H2X, H4X.
      split; [done|]. split; [lia|]. split; [lia|]. split; [lia|].
      destruct Hm2 as [[-> ?]|[-> ?]]; (split; [|intros ? ?]); nia.
    - exists (Z.to_pos (2 ^ 52)), (e + 1). rewrite Z2Pos.id by lia.
      rewrite Hp3, Hp4, H2X. fold X. rewrite HXR.
      split; [done|]. split; [lia|]. split; [lia|]. split; [lia|].
      destruct Hm2 as [[-> ?]|[-> ?]]; [lia|].
      assert (m = 2 ^ 53 - 1) as Hm' by lia.
      split; [|intros _ _]; nia. }
  apply Hcases. unfold round_nearest_even. rewrite Hl.
  destruct (Z.eqb_spec R 0) as [HR0|HR0]; [left; lia|].
  destruct (Z.compare_spec (2 * R) n) as [Heq|Hlt|Hgt].
  - destruct (Z.even m); [left|right]; lia.
  - left; lia.
  - right; lia.
Qed.

(** The quotient of two integers [1 <= a <= n], as a double. *)
Lemma int_div_rounds (a n : Z) :
  1 ≤ a ≤ n →
  rounds_to a n (SFdiv prec emax (float_of_int a) (float_of_int n)).
Proof.
  intros Ha. destruct a as [|pa|pa]; try lia.
  destruct n as [|pn|pn]; try lia.
  cbn [float_of_int SFdiv xorb]. unfold SFdiv_core_binary.
  cbn [Zdigits2].
  pose proof (digits2_pos_bounds pa) as Hda.
  pose proof (digits2_pos_bounds pn) as Hdn.
  set (da := Z.pos (digits2_pos pa)) in *.
  set (dn := Z.pos (digits2_pos pn)) in *.
  assert (0 < da ≤ dn) as Hd.
  { split; [done|].
    destruct (Z.le_gt_cases da dn) as [?|Hgt]; [done|].
    assert (2 ^ dn ≤ 2 ^ (da - 1)) by (apply Z.pow_le_mono_r; lia). lia. }
  rewrite fexp_double.
  set (s := Z.min (53 + dn - da) 1074).
  replace (Z.min (Z.max (da + 0 - (dn + 0) - 53) (-1074)) (0 - 0))
    with (- s) by (unfold s; lia).
  replace (0 - 0 - - s) with s by lia.
  assert (53 ≤ s ≤ 1074) as Hs by (unfold s; lia).
  destruct s as [|ps|ps] eqn:Hseq; try lia. rewrite <- Hseq in *.
  rewrite Z.shiftl_mul_pow2 by lia.
  set (N := Z.pos pa * 2 ^ s).
  assert (0 < 2 ^ s) as Hpow by (apply Z.pow_pos_nonneg; lia).
  assert (N < 2 ^ 54 * Z.pos pn) as HNhi.
  { assert (2 ^ da * 2 ^ s ≤ 2 ^ 54 * 2 ^ (dn - 1)) as H2.
    { rewrite <- !Z.pow_add_r by lia. apply Z.pow_le_mono_r; lia. }
    unfold N. nia. }
  assert (Z.div_eucl N (Z.pos pn) = (N / Z.pos pn, N mod Z.pos pn)) as ->.
  { unfold Z.div, Z.modulo. by destruct (Z.div_eucl N (Z.pos pn)). }
  set (q := N / Z.pos pn).
  assert (0 ≤ q < 2 ^ 54) as Hq.
  { split; [apply Z.div_pos; lia|apply Z.div_lt_upper_bound; lia]. }
  pose proof (located_div N (Z.pos pn)) as Hloc.
  fold q in Hloc. specialize (Hloc ltac:(lia) ltac:(lia)).
  assert (N = Z.pos pa * 2 ^ s) as HNeq by done.
  assert (s = 1074 ∨ 2 ^ 52 ≤ q) as Hcase.
  { destruct (Z.eq_dec s 1074) as [?|Hne]; [by left|right].
    assert (s = 53 + dn - da) as Hs' by lia.
    assert (2 ^ (da - 1) * 2 ^ s = 2 ^ 52 * 2 ^ dn) as H1.
    { rewrite <- !Z.pow_add_r by lia. f_equal. lia. }
    apply Z.div_le_lower_bound; [lia|]. unfold N. nia. }
  clearbody q N.
  destruct (Z.lt_ge_cases q (2 ^ 53)) as [Hlt|Hge].
  - assert (fits q (- s)) as Hfits by (unfold fits; lia).
    rewrite binary_round_aux_fits by done.
    apply round_at_rounds; try done; try lia.
    by rewrite Z.opp_involutive, <- HNeq.
  - rewrite binary_round_aux_shift by lia.
    apply round_at_rounds; try lia.
    + unfold fits.
      assert (2 ^ 52 ≤ q / 2 < 2 ^ 53); [clear - Hq Hge|lia].
      split; [apply Z.div_le_lower_bound; lia|
              apply Z.div_lt_upper_bound; lia].
    + apply located_shift; try lia.
      replace (2 * (Z.pos pa * 2 ^ (- (- s + 1))))
        with N; [done|].
      rewrite HNeq. replace s with (Z.succ (- (- s + 1))) at 1 by lia.
      rewrite Z.pow_succ_r by lia. lia.
Qed.

Lemma int_div_zero (n : Z) :
  0 < n →
  SFdiv prec emax (float_of_int 0) (float_of_int n) = S754_zero false.
Proof. by destruct n. Qed.

Lemma float_ge_refl_finite s m e :
  float_ge (S754_finite s m e) (S754_finite s m e) = true.
Proof.
  unfold float_ge. simpl.
  destruct s; rewrite Z.compare_refl, Pos.compare_cont_refl; done.
Qed.

(** The quotient of two counts grows with the numerator. *)
Lemma int_div_mono (a b n : Z) :
  0 ≤ a ≤ b → b ≤ n → 0 < n →
  float_ge (SFdiv prec emax (float_of_int b) (float_of_int n))
           (SFdiv prec emax (float_of_int a) (float_of_int n)) = true.
Proof.
  intros Hab Hbn Hn.
  destruct (Z.eq_dec a 0) as [->|Ha].
  { rewrite (int_div_zero n) by done.
    destruct (Z.eq_dec b 0) as [->|Hb]; [by rewrite int_div_zero|].
    by destruct (int_div_rounds b n) as [[-> _]|(M & E & -> & _)]; [lia|..]. }
  destruct (Z.eq_dec a b) as [->|Hne].
  { by destruct (int_div_rounds b n) as [[-> _]|(M & E & -> & _)];
      [lia|..|apply float_ge_refl_finite]. }
  assert (a < b) as Hlt by lia.
  assert (0 < 2 ^ 1075) as Hbig by (by apply Z.pow_pos_nonneg).
  destruct (int_div_rounds a n)
    as [[Hfa Hza]|(Ma & Ea & Hfa & HEa & HMa & HNa & Hba & Hsa)]; [lia|..];
    destruct (int_div_rounds b n)
      as [[Hfb Hzb]|(Mb & Eb & Hfb & HEb & HMb & HNb & Hbb & Hsb)];
    try lia; rewrite Hfa, Hfb; try done.
  { (* [b / n] rounds to zero, hence so does [a / n] *)
    exfalso.
    assert (a * 2 ^ (1 - Ea) ≤ a * 2 ^ 1075).
    { apply Z.mul_le_mono_nonneg_l; [lia|]. apply Z.pow_le_mono_r; lia. }
    assert (a * 2 ^ 1075 < b * 2 ^ 1075) by (apply Z.mul_lt_mono_pos_r; lia).
    assert (1 * n ≤ (2 * Z.pos Ma - 1) * n)
      by (apply Z.mul_le_mono_nonneg_r; lia).
    lia. }
  unfold float_ge. cbn [SFcompare].
  rewrite Pos.compare_cont_spec. cbn [Pos.switch_Eq].
  assert (Eb < Ea → False) as Hexp.
  { intros HE.
    assert (0 < 2 ^ (1 - Eb)) by (apply Z.pow_pos_nonneg; lia).
    assert (a * 2 ^ (2 - Ea) ≤ a * 2 ^ (1 - Eb)).
    { apply Z.mul_le_mono_nonneg_l; [lia|]. apply Z.pow_le_mono_r; lia. }
    assert (2 ^ (2 - Ea) = 2 * 2 ^ (1 - Ea)) as Hp.
    { replace (2 - Ea) with (Z.succ (1 - Ea)) by lia.
      by rewrite Z.pow_succ_r by lia. }
    assert ((2 ^ 54 - 1) * n ≤ a * 2 ^ (2 - Ea)).
    { destruct (Z.eq_dec (Z.pos Ma) (2 ^ 52)) as [Heq|Hneq].
      - specialize (Hsa Heq ltac:(lia)). rewrite Heq in Hsa. lia.
      - rewrite Hp.
        assert ((2 ^ 53 + 1) * n ≤ (2 * Z.pos Ma - 1) * n)
          by (apply Z.mul_le_mono_nonneg_r; lia).
        lia. }
    assert (a * 2 ^ (1 - Eb) < b * 2 ^ (1 - Eb))
      by (apply Z.mul_lt_mono_pos_r; lia).
    assert ((2 * Z.pos Mb + 1) * n ≤ (2 ^ 54 - 1) * n)
      by (apply Z.mul_le_mono_nonneg_r; lia).
    lia. }
  destruct (Z.compare_spec Eb Ea) as [Heq|HltE|HgtE]; [|lia|done].
  subst Ea. destruct (Pos.compare_spec Mb Ma) as [?|HltM|?]; try done.
  exfalso. assert (0 < 2 ^ (1 - Eb)) by (apply Z.pow_pos_nonneg; lia).
  assert (a * 2 ^ (1 - Eb) < b * 2 ^ (1 - Eb))
    by (apply Z.mul_lt_mono_pos_r; lia).
  assert ((2 * Z.pos Mb + 1) * n ≤ (2 * Z.pos Ma - 1) * n)
    by (apply Z.mul_le_mono_nonneg_r; lia).
  lia.
Qed.

Lemma float_gt_zero_trans (m s : float) :
  SFltb (S754_zero false) m = true → float_ge s m = true →
  SFltb (S754_zero false) s = true.
Proof.
  unfold SFltb, float_ge.
  destruct s as [ss|ss| |ss ms es], m as [sm|sm| |sm mm em]; simpl;
    try done; try (by destruct sm); try (by destruct ss);
    try (by destruct ss, sm).
Qed.

(** ** The program *)

Section Properties.
Context {Item : Type} `{Countable Item}.
Implicit Types (bs : list (gset Item)) (c : gset Item).
Implicit Types (self start : @Apriori Item _ _).

Lemma elem_of_enumerate {A} (l : list A) i x :
  (i, x) ∈ enumerate l ↔ l !! i = Some x.
Proof.
  unfold enumerate. rewrite elem_of_lookup_imap. split.
  - intros (j & y & Heq & Hj). by simplify_eq.
  - intros Hi. by exists i, x.
Qed.

Lemma elem_of_join_pairs (level : list (gset Item)) a b :
  (a, b) ∈ join_pairs level
  ↔ ∃ i j, (i < j)%nat ∧ level !! i = Some a ∧ level !! j = Some b.
Proof.
  unfold join_pairs. rewrite list_elem_of_bind. split.
  - intros ([i x] & Hin & Hx). apply list_elem_of_bind in Hin.
    destruct Hin as ([j y] & Hin & Hy).
    case_bool_decide; [|by apply elem_of_nil in Hin].
    apply list_elem_of_singleton in Hin. simplify_eq.
    exists i, j. by rewrite <- !elem_of_enumerate.
  - intros (i & j & Hij & Hi & Hj). exists (i, a).
    split; [|by apply elem_of_enumerate].
    apply list_elem_of_bind. exists (j, b).
    split; [|by apply elem_of_enumerate].
    rewrite bool_decide_true by done. by apply list_elem_of_singleton.
Qed.


Lemma elem_of_concat {A} (x : A) (ls : list (list A)) :
  x ∈ concat ls ↔ ∃ l, l ∈ ls ∧ x ∈ l.
Proof.
  induction ls as [|l ls IH]; simpl.
  - split; [by intros ?%elem_of_nil|]. by intros (l & ?%elem_of_nil & _).
  - rewrite elem_of_app, IH. setoid_rewrite elem_of_cons. naive_solver.
Qed.

(** *** Loops that only add to a set *)

Lemma foldl_union_list {A} `{Countable B} (g : A → gset B) (acc : gset B) l :
  foldl (λ acc x, acc ∪ g x) acc l = acc ∪ ⋃ (g <$> l).
Proof.
  revert acc. induction l as [|x l IH]; intros acc; simpl.
  - set_solver.
  - rewrite IH. set_solver.
Qed.

Lemma foldl_ext_in {A B} (f g : B → A → B) (b : B) (l : list A) :
  (∀ b x, x ∈ l → f b x = g b x) → foldl f b l = foldl g b l.
Proof.
  revert b. induction l as [|x l IH]; intros b Hfg; simpl; [done|].
  rewrite Hfg by left. apply IH. intros b' y Hy. apply Hfg. by right.
Qed.

Lemma gen_cands_singletons bs :
  foldl (λ cands basket,
           foldl (λ cands item, cands ∪ {[ {[ item ]} ]})
                 cands (elements basket))
        (∅ : gset (gset Item)) bs
  = singletons bs.
Proof.
  rewrite (foldl_ext_in _ (λ cands basket,
             cands ∪ set_map (λ item, {[ item ]}) basket)).
  - rewrite foldl_union_list. unfold singletons. apply set_eq. intros c.
    rewrite elem_of_union, elem_of_union_list, elem_of_map.
    setoid_rewrite elem_of_union_list. setoid_rewrite list_elem_of_fmap.
    split.
    + intros [Hc|(X & (b & -> & Hb) & Hc)]; [set_solver|].
      apply elem_of_map in Hc as (item & -> & Hitem). eauto.
    + intros (item & -> & b & Hb & Hitem). right.
      exists (set_map (λ item, {[ item ]}) b). split; [eauto|].
      apply elem_of_map. eauto.
  - intros cands basket _.
    rewrite (foldl_union_list (λ item, {[ {[ item ]} ]})). f_equal.
    apply set_eq. intros c. rewrite elem_of_union_list, elem_of_map. split.
    + intros (X & (item & -> & Hitem)%list_elem_of_fmap & Hc).
      apply elem_of_singleton in Hc. apply elem_of_elements in Hitem. eauto.
    + intros (item & -> & Hitem). exists {[ {[ item ]} ]}.
      split; [|by apply elem_of_singleton].
      apply list_elem_of_fmap. exists item. by rewrite elem_of_elements.
Qed.

Lemma elem_of_singletons bs c :
  c ∈ singletons bs
  ↔ ∃ basket item, basket ∈ bs ∧ item ∈ basket ∧ c = {[ item ]}.
Proof.
  unfold singletons. rewrite elem_of_map. setoid_rewrite elem_of_union_list.
  naive_solver.
Qed.

Lemma elem_of_joins k level c :
  c ∈ joins k level
  ↔ ∃ a b, a ∈ level ∧ b ∈ level ∧ a ≠ b ∧ c = a ∪ b ∧ size c = (k + 1)%nat.
Proof.
  unfold joins. rewrite elem_of_list_to_set, list_elem_of_bind. split.
  - intros (a & Hc & Ha). apply list_elem_of_bind in Hc as (b & Hc & Hb).
    case_bool_decide as Hab; [|by apply elem_of_nil in Hc].
    apply list_elem_of_singleton in Hc as ->.
    destruct Hab as [Hab Hsz]. by exists a, b.
  - intros (a & b & Ha & Hb & Hab & -> & Hsz). exists a. split; [|done].
    apply list_elem_of_bind. exists b. split; [|done].
    rewrite bool_decide_true by done. by apply list_elem_of_singleton.
Qed.

(** The join loop of [gen_cands], for any list of itemsets. *)
Lemma elem_of_gen_cands_joins (k : nat) (level : list (gset Item)) c :
  c ∈ foldl (λ cands '(freq_i, freq_j),
               if bool_decide (size (freq_i ∪ freq_j) = (k + 1)%nat)
               then cands ∪ {[ freq_i ∪ freq_j ]} else cands)
            (∅ : gset (gset Item)) (join_pairs level)
  ↔ ∃ i j a b, (i < j)%nat ∧ level !! i = Some a ∧ level !! j = Some b
               ∧ c = a ∪ b ∧ size c = (k + 1)%nat.
Proof.
  rewrite (foldl_ext_in _ (λ cands p,
             cands ∪ (if bool_decide (size (p.1 ∪ p.2) = (k + 1)%nat)
                      then {[ p.1 ∪ p.2 ]} else ∅))).
  2:{ intros cands [a b] _. simpl. case_bool_decide; set_solver. }
  rewrite foldl_union_list, elem_of_union, elem_of_union_list. split.
  - intros [Hc|(X & (p & -> & Hp)%list_elem_of_fmap & Hc)]; [set_solver|].
    destruct p as [a b]. apply elem_of_join_pairs in Hp as (i & j & ? & ? & ?).
    simpl in Hc. case_bool_decide; [|set_solver].
    apply elem_of_singleton in Hc as ->. by exists i, j, a, b.
  - intros (i & j & a & b & Hij & Hi & Hj & -> & Hsz). right.
    exists {[ a ∪ b ]}. split; [|by apply elem_of_singleton].
    apply list_elem_of_fmap. exists (a, b). simpl.
    rewrite bool_decide_true by done. split; [done|].
    apply elem_of_join_pairs. eauto.
Qed.

(** On a level made of itemsets of size [k], two positions hold the same
    itemset or their union is larger: positions and itemsets agree. *)
Lemma gen_cands_joins (k : nat) (level : list (gset Item)) :
  (∀ a, a ∈ level → size a = k) →
  foldl (λ cands '(freq_i, freq_j),
           if bool_decide (size (freq_i ∪ freq_j) = (k + 1)%nat)
           then cands ∪ {[ freq_i ∪ freq_j ]} else cands)
        (∅ : gset (gset Item)) (join_pairs level)
  = joins k level.
Proof.
  intros Hsize. apply set_eq. intros c.
  rewrite elem_of_gen_cands_joins, elem_of_joins. split.
  - intros (i & j & a & b & Hij & Hi & Hj & -> & Hsz). exists a, b.
    split; [by eapply list_elem_of_lookup_2|].
    split; [by eapply list_elem_of_lookup_2|].
    split; [|done]. intros ->.
    assert (size b = k) by (eapply Hsize, list_elem_of_lookup_2; done).
    replace (b ∪ b) with b in Hsz by set_solver. lia.
  - intros (a & b & Ha & Hb & Hab & -> & Hsz).
    apply list_elem_of_lookup in Ha as [i Hi].
    apply list_elem_of_lookup in Hb as [j Hj].
    destruct (lt_eq_lt_dec i j) as [[Hlt|Heq]|Hgt].
    + exists i, j, a, b. done.
    + subst j. congruence.
    + exists j, i, b, a. rewrite (comm_L (∪) b a). done.
Qed.


Lemma getitem_pred {A} (l : list A) (k : nat) :
  getitem l (Z.of_nat (S k) - 1)
  = match l !! k with Some x => Ok x | None => Raise IndexError end.
Proof.
  unfold getitem.
  replace (Z.of_nat (S k) - 1) with (Z.of_nat k) by lia.
  destruct (Z.ltb_spec (Z.of_nat k) 0) as [?|_]; [lia|].
  destruct (Z.ltb_spec (Z.of_nat k) 0) as [?|_]; [lia|].
  by rewrite Nat2Z.id.
Qed.

Lemma gen_cands_0 self :
  gen_cands 0 self = Ok (new_cand_level (singletons (baskets self)) self).
Proof.
  unfold gen_cands, new_cand_level. simpl. rewrite gen_cands_singletons.
  by destruct (bool_decide _).
Qed.

Lemma gen_cands_S self k level :
  freq_list self !! k = Some level →
  (∀ a, a ∈ level → size a = S k) →
  gen_cands (S k) self = Ok (new_cand_level (joins (S k) level) self).
Proof.
  intros Hlevel Hsize. unfold gen_cands, new_cand_level.
  rewrite bool_decide_false by done. rewrite getitem_pred, Hlevel.
  cbn [mbind outcome_bind].
  rewrite (gen_cands_joins (S k) level Hsize). by destruct (bool_decide _).
Qed.

Lemma gen_cands_input (k : nat) self (level : list (gset Item)) :
  input_level k self level →
  gen_cands k self = Ok (new_cand_level (candidates k level) self).
Proof.
  intros Hlevel. destruct k as [|k]; simpl in Hlevel.
  - subst level. apply gen_cands_0.
  - destruct Hlevel as [Hlevel Hsize]. by apply gen_cands_S.
Qed.

Lemma candidates_nil k : candidates k [] = (∅ : gset (gset Item)).
Proof. by destruct k. Qed.

(** *** Loops that may raise *)

(** The rule for a loop: [inv done s] holds of the elements already
    visited and the accumulator; an exception is excused only when [safe]
    fails. *)
Lemma for_each_spec {A S} (inv : list A → S → Prop) (safe : Prop)
    (body : S → A → outcome S) (s0 : S) (l : list A) :
  inv [] s0 →
  (∀ done x rest s, l = done ++ x :: rest → inv done s →
     match body s x with
     | Ok s' => inv (done ++ [x]) s'
     | Raise _ => ¬ safe
     end) →
  match for_each body s0 l with
  | Ok s' => inv l s'
  | Raise _ => ¬ safe
  end.
Proof.
  intros H0 Hstep.
  enough (∀ rest done s, l = done ++ rest → inv done s →
    match for_each body s rest with
    | Ok s' => inv l s'
    | Raise _ => ¬ safe
    end) as Hgen by (by apply (Hgen l [] s0)).
  induction rest as [|x rest IH]; intros done s Hl Hinv; simpl.
  - by rewrite Hl, app_nil_r.
  - specialize (Hstep done x rest s Hl Hinv).
    destruct (body s x) as [s'|e]; simpl; [|done].
    apply (IH (done ++ [x])); [|done]. by rewrite <- app_assoc.
Qed.

Lemma bind_Ok {A B} (m : outcome A) (a : A) (f : A → outcome B) :
  m = Ok a → (m ≫= f) = f a.
Proof. by intros ->. Qed.

(** *** Counting *)

Lemma odict_get_tally g keys c :
  c ∈ keys → odict_get (tally g keys) c = Ok (g c).
Proof.
  intros Hc. unfold odict_get, tally.
  destruct (list_find _ _) as [[i [c' v]]|] eqn:Hfind.
  - apply list_find_Some in Hfind as (Hi & Hkey & _). simpl in Hkey.
    rewrite list_lookup_fmap in Hi.
    destruct (keys !! i) as [c''|]; simplify_eq/=. done.
  - apply list_find_None in Hfind. rewrite Forall_forall in Hfind.
    destruct (Hfind (c, g c)); [|done].
    apply list_elem_of_fmap. by exists c.
Qed.

Lemma odict_set_tally g keys c v :
  odict_set (tally g keys) c v
  = tally (λ c', if decide (c' = c) then v else g c') keys.
Proof.
  unfold odict_set, tally. rewrite <- list_fmap_compose.
  apply list_fmap_ext. intros i c' _. simpl. by case_decide; simplify_eq.
Qed.

(** One basket: the counts of the candidates it contains go up by one. *)
Lemma gen_freqs_count_basket (basket : gset Item) keys todo g :
  NoDup todo → todo ⊆ keys →
  ∃ g', for_each (λ cand_cnt cand,
           if bool_decide (cand ⊆ basket) then
             cnt ← odict_get cand_cnt cand;
             Ok (odict_set cand_cnt cand (cnt + 1))
           else Ok cand_cnt) (tally g keys) todo
        = Ok (tally g' keys)
    ∧ ∀ c, g' c = g c + (if bool_decide (c ∈ todo ∧ c ⊆ basket) then 1 else 0).
Proof.
  revert g. induction todo as [|x todo IH]; intros g Hnd Hsub.
  - exists g. split; [done|]. intros c.
    rewrite bool_decide_false; [lia|]. intros [Hc _].
    by apply elem_of_nil in Hc.
  - apply NoDup_cons in Hnd as [Hx Hnd].
    assert (x ∈ keys) by (apply Hsub; left).
    assert (todo ⊆ keys) by (intros c Hc; apply Hsub; by right).
    simpl. case_bool_decide as Hxb.
    + rewrite odict_get_tally by done. cbn [mbind outcome_bind].
      rewrite odict_set_tally.
      destruct (IH (λ c', if decide (c' = x) then g x + 1 else g c'))
        as (g' & -> & Hg'); [done..|].
      exists g'. split; [done|]. intros c. rewrite Hg'.
      case_decide as Hcx.
      * subst c. rewrite bool_decide_false by naive_solver.
        rewrite bool_decide_true; [lia|]. split; [left|done].
      * case_bool_decide as Ha; case_bool_decide as Hb; try lia.
        -- destruct Hb. destruct Ha. split; [by right|done].
        -- destruct Ha. destruct Hb as [[?|?]%elem_of_cons ?]; done.
    + cbn [mbind outcome_bind mret outcome_ret].
      destruct (IH g) as (g' & -> & Hg'); [done..|].
      exists g'. split; [done|]. intros c. rewrite Hg'.
      case_bool_decide as Ha; case_bool_decide as Hb; try lia.
      * destruct Hb. destruct Ha. split; [by right|done].
      * destruct Ha. destruct Hb as [[?|?]%elem_of_cons ?]; [|done].
        by subst.
Qed.

Lemma count_cons bs (b : gset Item) c :
  count (b :: bs) c = (if bool_decide (c ⊆ b) then 1 else 0) + count bs c.
Proof.
  unfold count. rewrite filter_cons. case_decide.
  - rewrite bool_decide_true by done. simpl length. lia.
  - rewrite bool_decide_false by done. lia.
Qed.

(** All baskets: every candidate ends with its [count]. *)
Lemma gen_freqs_count (get : outcome (gset (gset Item))) cands bs g :
  get = Ok cands →
  ∃ g', for_each (λ cand_cnt basket,
           cands' ← get;
           for_each (λ cand_cnt cand,
             if bool_decide (cand ⊆ basket) then
               cnt ← odict_get cand_cnt cand;
               Ok (odict_set cand_cnt cand (cnt + 1))
             else Ok cand_cnt) cand_cnt (elements cands'))
          (tally g (elements cands)) bs
        = Ok (tally g' (elements cands))
    ∧ ∀ c, c ∈ cands → g' c = g c + count bs c.
Proof.
  intros ->. revert g. induction bs as [|b bs IH]; intros g.
  - exists g. split; [done|]. intros c _. unfold count. simpl. lia.
  - cbn [for_each mbind outcome_bind].
    destruct (gen_freqs_count_basket b (elements cands) (elements cands) g)
      as (g1 & -> & Hg1); [apply NoDup_elements|done|].
    cbn [mbind outcome_bind].
    destruct (IH g1) as (g' & Hrun & Hg'). cbn [mbind outcome_bind] in Hrun.
    rewrite Hrun. exists g'. split; [done|].
    intros c Hc. rewrite Hg' by done. rewrite Hg1, count_cons.
    assert (c ∈ elements cands) by (by apply elem_of_elements).
    repeat case_bool_decide; naive_solver lia.
Qed.

(** *** Filtering *)

Lemma int_truediv_ok (a n : Z) :
  n ≠ 0 →
  int_truediv a n = Ok (SFdiv prec emax (float_of_int a) (float_of_int n)).
Proof.
  intros Hn. unfold int_truediv.
  by destruct (Z.eqb_spec n 0).
Qed.

Lemma gen_freqs_filter (n : Z) (ms : float) (ratio : gset Item → float)
    keys (g : gset Item → Z) freqs self :
  n ≠ 0 → n_baskets self = n → min_supp self = ms →
  (∀ c, c ∈ keys →
     ratio c = SFdiv prec emax (float_of_int (g c)) (float_of_int n)) →
  for_each (λ '(freqs, self) '(cand, cnt),
      supp ← int_truediv cnt (n_baskets self);
      if float_ge supp (min_supp self)
      then Ok (freqs ++ [cand], bind_supp cand supp self)
      else Ok (freqs, self)) (freqs, self) (tally g keys)
  = Ok (freqs ++ filter (λ c, float_ge (ratio c) ms = true) keys,
        foldl (λ self c, bind_supp c (ratio c) self) self
              (filter (λ c, float_ge (ratio c) ms = true) keys)).
Proof.
  intros Hn. revert freqs self.
  induction keys as [|c keys IH]; intros freqs self Hnb Hms Hratio.
  - simpl. by rewrite app_nil_r.
  - cbn [tally fmap list_fmap for_each]. rewrite Hnb, Hms.
    rewrite int_truediv_ok by done. cbn [mbind outcome_bind].
    rewrite <- (Hratio c) by left. rewrite filter_cons.
    fold (tally g keys).
    destruct (float_ge (ratio c) ms) eqn:Hge.
    + rewrite decide_True by done. cbn [mbind outcome_bind].
      rewrite IH; [|done|done|by intros; apply Hratio; right].
      by rewrite <- app_assoc.
    + rewrite decide_False by congruence. cbn [mbind outcome_bind].
      apply IH; [done|done|by intros; apply Hratio; right].
Qed.

(** [gen_freqs] as one state update. *)
Lemma gen_freqs_S self (k : nat) cands :
  cand_list self !! k = Some cands →
  n_baskets self = Z.of_nat (length (baskets self)) →
  baskets self ≠ [] →
  gen_freqs (S k) self
  = Ok (let kept := filter (frequent (baskets self) (min_supp self))
                           (elements cands) in
        new_freq_level kept (record_supports (baskets self) kept self)).
Proof.
  intros Hk Hn Hbs. unfold gen_freqs.
  pose proof (getitem_pred (cand_list self) k) as Hget. rewrite Hk in Hget.
  revert Hget. generalize (getitem (cand_list self) (Z.of_nat (S k) - 1)).
  intros get Hget.
  destruct (gen_freqs_count get cands (baskets self) (λ _, 0))
    as (g & Hcount & Hg); [done|].
  rewrite (bind_Ok get cands _ Hget). cbv beta zeta.
  change ((λ k0 : gset Item, (k0, 0)) <$> elements cands)
    with (tally (λ _, 0) (elements cands)).
  rewrite Hcount. cbn [mbind outcome_bind].
  rewrite (gen_freqs_filter (n_baskets self) (min_supp self)
             (support (baskets self))); [| |done|done|].
  - cbn [mbind outcome_bind app]. unfold new_freq_level, record_supports.
    by destruct (filter _ _).
  - rewrite Hn. destruct (baskets self); [done|]. simpl length. lia.
  - intros c Hc. unfold support. rewrite Hg by (by apply elem_of_elements).
    by rewrite Hn.
Qed.

Lemma record_supports_snoc bs kept c self :
  record_supports bs (kept ++ [c]) self
  = bind_supp c (support bs c) (record_supports bs kept self).
Proof. unfold record_supports. by rewrite foldl_app. Qed.

Lemma record_supports_fields bs kept self :
  let self' := record_supports bs kept self in
  baskets self' = baskets self ∧ n_baskets self' = n_baskets self
  ∧ min_supp self' = min_supp self ∧ min_conf self' = min_conf self
  ∧ cand_list self' = cand_list self ∧ freq_list self' = freq_list self
  ∧ conseq_dict self' = conseq_dict self ∧ rule_list self' = rule_list self
  ∧ conseq_bound self' = conseq_bound self
  ∧ supp_bound self' = supp_bound self ++ kept.
Proof.
  induction kept as [|c kept IH] using rev_ind; simpl.
  - by rewrite app_nil_r.
  - cbv zeta in IH. rewrite record_supports_snoc. simpl. destruct_and!.
    rewrite app_assoc. repeat split; congruence.
Qed.

Lemma record_supports_lookup bs kept self c :
  supp_dict (record_supports bs kept self) !! c
  = if decide (c ∈ kept) then Some (support bs c) else supp_dict self !! c.
Proof.
  induction kept as [|c' kept IH] using rev_ind.
  - case_decide as Hc; [by apply elem_of_nil in Hc|done].
  - rewrite record_supports_snoc. simpl. rewrite lookup_insert.
    destruct (decide (c' = c)) as [->|Hne].
    + rewrite decide_True; [done|]. apply elem_of_app. right. left.
    + rewrite IH. destruct (decide (c ∈ kept)) as [Hk|Hk].
      * rewrite decide_True; [done|]. apply elem_of_app. by left.
      * rewrite decide_False; [done|].
        intros [?|?%list_elem_of_singleton]%elem_of_app; done.
Qed.

Lemma new_freq_level_fields freqs self :
  let self' := new_freq_level freqs self in
  baskets self' = baskets self ∧ n_baskets self' = n_baskets self
  ∧ min_supp self' = min_supp self ∧ min_conf self' = min_conf self
  ∧ cand_list self' = cand_list self ∧ supp_dict self' = supp_dict self
  ∧ conseq_dict self' = conseq_dict self ∧ rule_list self' = rule_list self
  ∧ conseq_bound self' = conseq_bound self
  ∧ supp_bound self' = supp_bound self
  ∧ freq_list self'
    = if decide (freqs = []) then freq_list self else freq_list self ++ [freqs].
Proof. by destruct freqs. Qed.

Lemma new_cand_level_fields cands self :
  let self' := new_cand_level cands self in
  baskets self' = baskets self ∧ n_baskets self' = n_baskets self
  ∧ min_supp self' = min_supp self ∧ min_conf self' = min_conf self
  ∧ freq_list self' = freq_list self ∧ supp_dict self' = supp_dict self
  ∧ conseq_dict self' = conseq_dict self ∧ rule_list self' = rule_list self
  ∧ conseq_bound self' = conseq_bound self
  ∧ supp_bound self' = supp_bound self
  ∧ cand_list self'
    = if decide (cands = ∅) then cand_list self else cand_list self ++ [cands].
Proof.
  unfold new_cand_level. case_bool_decide; case_decide; done.
Qed.

Lemma float_ge_SFeqb x y : SFeqb x y = true → float_ge x y = true.
Proof.
  unfold SFeqb, float_ge. by destruct (SFcompare x y) as [[]|].
Qed.

Lemma float_ge_SFltb x y : SFltb x y = true → float_ge x y = false.
Proof.
  unfold SFltb, float_ge. by destruct (SFcompare x y) as [[]|].
Qed.

(** C5: [gen_cands k] returns, and the candidates it has found are those
    of the specification for its input level: all singletons of the baskets
    when [k = 0], all unions of size [k + 1] of two distinct itemsets of the
    frequent level of size [k] otherwise, as a set.  The candidate list of
    the object it returns is the one it was given followed by that set,
    when the set is not empty; nothing else has changed, and an empty input
    level gives no candidate and leaves the object as it was. *)
Theorem gen_cands_candidates (k : nat) self (level : list (gset Item)) :
  input_level k self level →
  ∃ self' (cands : gset (gset Item)),
    gen_cands k self = Ok self'
    ∧ cand_list self'
      = (if decide (cands = ∅) then cand_list self
         else cand_list self ++ [cands])
    ∧ cands = candidates k level
    ∧ (∀ c, c ∈ cands ↔
         match k with
         | O => ∃ basket item, basket ∈ level ∧ item ∈ basket ∧ c = {[ item ]}
         | S _ => ∃ a b, a ∈ level ∧ b ∈ level ∧ a ≠ b
                         ∧ c = a ∪ b ∧ size c = (k + 1)%nat
         end)
    ∧ (level = [] → cands = ∅ ∧ self' = self)
    ∧ baskets self' = baskets self ∧ n_baskets self' = n_baskets self
    ∧ min_supp self' = min_supp self ∧ min_conf self' = min_conf self
    ∧ freq_list self' = freq_list self ∧ supp_dict self' = supp_dict self
    ∧ conseq_dict self' = conseq_dict self ∧ rule_list self' = rule_list self
    ∧ supp_bound self' = supp_bound self
    ∧ conseq_bound self' = conseq_bound self.
Proof.
  intros Hlevel. pose proof (gen_cands_input k self level Hlevel) as Hrun.
  pose proof (new_cand_level_fields (candidates k level) self) as Hnew.
  cbv zeta in Hnew.
  destruct Hnew as (? & ? & ? & ? & ? & ? & ? & ? & ? & ? & Hcl).
  exists (new_cand_level (candidates k level) self), (candidates k level).
  split; [done|]. split; [done|]. split; [done|]. split.
  { intros c. destruct k; [apply elem_of_singletons|apply elem_of_joins]. }
  split; [|done].
  intros ->. rewrite candidates_nil in *. split; [done|].
  unfold new_cand_level. by rewrite bool_decide_false by naive_solver.
Qed.

(** C3: with at least one basket, [gen_freqs] keeps exactly the candidates
    of the level whose support ratio (the number of baskets containing the
    candidate, divided by the number of baskets) is [>=] [min_supp]: a
    ratio equal to [min_supp] is kept, a ratio below it is not.  The ratio
    is the double nearest to the quotient of the two numbers.  The kept
    candidates form the new frequent level, and [supp_dict] binds each of
    them to that ratio and is unchanged elsewhere. *)
Theorem gen_freqs_keeps_frequent self (k : nat) (cands : gset (gset Item)) :
  cand_list self !! k = Some cands →
  n_baskets self = Z.of_nat (length (baskets self)) →
  baskets self ≠ [] →
  ∃ self' kept,
    gen_freqs (S k) self = Ok self'
    ∧ freq_list self'
      = (if decide (kept = []) then freq_list self
         else freq_list self ++ [kept])
    ∧ NoDup kept
    ∧ (∀ c, int_truediv (count (baskets self) c) (n_baskets self)
            = Ok (support (baskets self) c))
    ∧ (∀ c, rounds_to (count (baskets self) c)
              (Z.of_nat (length (baskets self))) (support (baskets self) c))
    ∧ (∀ c, c ∈ kept ↔
         c ∈ cands
         ∧ float_ge (support (baskets self) c) (min_supp self) = true)
    ∧ (∀ c, c ∈ cands →
         SFeqb (support (baskets self) c) (min_supp self) = true →
         c ∈ kept)
    ∧ (∀ c, SFltb (support (baskets self) c) (min_supp self) = true →
         c ∉ kept)
    ∧ (∀ c, c ∈ kept →
         supp_dict self' !! c = Some (support (baskets self) c))
    ∧ (∀ c, c ∉ kept → supp_dict self' !! c = supp_dict self !! c).
Proof.
  intros Hk Hn Hbs.
  set (kept := filter (frequent (baskets self) (min_supp self))
                      (elements cands)).
  exists (new_freq_level kept (record_supports (baskets self) kept self)), kept.
  assert (∀ c, c ∈ kept ↔
    c ∈ cands ∧ float_ge (support (baskets self) c) (min_supp self) = true)
    as Hkept.
  { intros c. unfold kept. rewrite list_elem_of_filter, elem_of_elements.
    unfold frequent. tauto. }
  pose proof (new_freq_level_fields kept
    (record_supports (baskets self) kept self)) as Hnew.
  pose proof (record_supports_fields (baskets self) kept self) as Hrec.
  cbv zeta in Hnew, Hrec.
  destruct Hnew as (_ & _ & _ & _ & _ & Hsupp & _ & _ & _ & _ & Hnew).
  destruct Hrec as (_ & _ & _ & _ & _ & Hrec & _).
  split; [by apply gen_freqs_S|].
  split; [by rewrite Hnew, Hrec|].
  split; [apply NoDup_filter, NoDup_elements|].
  split.
  { intros c. rewrite int_truediv_ok; [unfold support; congruence|].
    rewrite Hn. destruct (baskets self); [done|]. simpl length. lia. }
  split.
  { intros c. unfold support.
    assert (0 ≤ count (baskets self) c ≤ Z.of_nat (length (baskets self)))
      as Hc.
    { unfold count.
      pose proof (length_filter (λ b, c ⊆ b) (baskets self)). lia. }
    destruct (decide (count (baskets self) c = 0)) as [Hz|Hnz].
    - assert (0 < Z.of_nat (length (baskets self))) as Hpos
        by (destruct (baskets self); [done|simpl length; lia]).
      rewrite Hz, int_div_zero by done. left. split; [done|lia].
    - apply int_div_rounds. lia. }
  split; [done|].
  split; [intros c Hc Heq; apply Hkept; auto using float_ge_SFeqb|].
  split.
  { intros c Hlt [_ Hge]%Hkept. apply float_ge_SFltb in Hlt. congruence. }
  split; intros c Hc.
  - rewrite Hsupp, record_supports_lookup. by rewrite decide_True.
  - rewrite Hsupp, record_supports_lookup. by rewrite decide_False.
Qed.

(** *** The first loop *)

Lemma levels_inv_init bs ms mc : levels_inv bs ms mc (__init__ bs ms mc).
Proof. by split. Qed.

Lemma levels_inv_freq_size bs ms mc self t freqs c :
  levels_inv bs ms mc self → freq_list self !! t = Some freqs → c ∈ freqs →
  size c = S t ∧ c ⊆ ⋃ bs ∧ frequent bs ms c
  ∧ ∃ cands, cand_list self !! t = Some cands ∧ c ∈ cands.
Proof.
  intros Hinv Ht Hc.
  destruct (inv_freqs _ _ _ _ Hinv t freqs Ht) as (_ & cands & Hcands & ->).
  apply list_elem_of_filter in Hc as [Hfreq Hc]. apply elem_of_elements in Hc.
  destruct (inv_size _ _ _ _ Hinv t cands c Hcands Hc) as [? ?]. eauto 10.
Qed.

Lemma levels_inv_input bs ms mc self (j : nat) :
  levels_inv bs ms mc self → length (freq_list self) = j →
  ∃ level, input_level j self level
    ∧ (∀ c, c ∈ candidates j level → size c = S j ∧ c ⊆ ⋃ bs).
Proof.
  intros Hinv Hj. destruct j as [|j].
  - exists (baskets self). split; [done|]. intros c. cbn [candidates].
    rewrite elem_of_singletons. intros (b & item & Hb & Hitem & ->).
    split; [apply size_singleton|]. rewrite (inv_baskets _ _ _ _ Hinv) in Hb.
    apply singleton_subseteq_l, elem_of_union_list. eauto.
  - destruct (lookup_lt_is_Some_2 (freq_list self) j) as [level Hlevel];
      [lia|].
    exists level. split.
    + split; [done|]. intros a Ha.
      by destruct (levels_inv_freq_size _ _ _ _ _ _ _ Hinv Hlevel Ha).
    + intros c. cbn [candidates]. rewrite elem_of_joins.
      intros (a & b & Ha & Hb & _ & -> & Hsz). split; [lia|].
      destruct (levels_inv_freq_size _ _ _ _ _ _ _ Hinv Hlevel Ha)
        as (_ & ? & _).
      destruct (levels_inv_freq_size _ _ _ _ _ _ _ Hinv Hlevel Hb)
        as (_ & ? & _).
      set_solver.
Qed.

Lemma input_level_unique k self level level' :
  input_level k self level → input_level k self level' → level = level'.
Proof.
  destruct k; simpl; [congruence|]. intros [? _] [? _]. congruence.
Qed.

Lemma input_level_mono k self self' level :
  baskets self' = baskets self →
  (∀ t freqs, freq_list self !! t = Some freqs →
     freq_list self' !! t = Some freqs) →
  input_level k self level → input_level k self' level.
Proof.
  intros Hbs Hfl. destruct k; simpl; [congruence|]. intros [? ?]. auto.
Qed.

Lemma gen_cands_step bs ms mc self (j : nat) :
  levels_inv bs ms mc self →
  length (cand_list self) = j → length (freq_list self) = j →
  ∃ level,
    input_level j self level
    ∧ gen_cands j self = Ok (new_cand_level (candidates j level) self)
    ∧ (candidates j level ≠ ∅ →
       levels_inv bs ms mc (new_cand_level (candidates j level) self)).
Proof.
  intros Hinv Hcl Hfl.
  destruct (levels_inv_input _ _ _ _ j Hinv Hfl) as (level & Hlevel & Hsz).
  exists level. split; [done|].
  split; [by apply gen_cands_input|]. intros Hne.
  pose proof (new_cand_level_fields (candidates j level) self) as Hf.
  cbv zeta in Hf. rewrite decide_False in Hf by done.
  destruct Hf as (F1 & F2 & F3 & F4 & F5 & F6 & F7 & F8 & F9 & F10 & F11).
  destruct Hinv as [I1 I2 I3 I4 I5 I6 I7 I8 I9].
  split; try congruence.
  - intros t cands. rewrite F11. intros Ht.
    apply lookup_app_Some in Ht as [Ht|[Hlen Ht]].
    + destruct (I5 t cands Ht) as (? & lvl & ? & ?). split; [done|].
      exists lvl. split; [|done].
      eapply input_level_mono; [| |done]; [done|by rewrite F5].
    + apply list_lookup_singleton_Some in Ht as [Ht <-].
      assert (t = j) as -> by lia. split; [done|]. exists level.
      split; [|done]. eapply input_level_mono; [| |done]; [done|by rewrite F5].
  - intros t freqs. rewrite F5, F11. intros Ht.
    destruct (I6 t freqs Ht) as (? & cands & Hc & ?). split; [done|].
    exists cands. split; [|done]. by apply lookup_app_l_Some.
  - intros t cands c. rewrite F11. intros Ht Hc.
    apply lookup_app_Some in Ht as [Ht|[Hlen Ht]]; [by eapply I7|].
    apply list_lookup_singleton_Some in Ht as [Ht <-].
    assert (t = j) as -> by lia. by apply Hsz.
  - intros c. rewrite F6, F5. apply I9.
Qed.

Lemma levels_inv_nonempty bs ms mc self t cands :
  levels_inv bs ms mc self → cand_list self !! t = Some cands → bs ≠ [].
Proof.
  intros Hinv Ht ->.
  destruct (inv_cands _ _ _ _ Hinv t cands Ht) as (Hne & _).
  apply Hne, set_eq. intros c. split; [|set_solver]. intros Hc.
  destruct (inv_size _ _ _ _ Hinv t cands c Ht Hc) as [Hsz Hsub].
  simpl in Hsub. assert (c = ∅) as -> by set_solver.
  rewrite size_empty in Hsz. lia.
Qed.

Lemma gen_freqs_step bs ms mc self (j : nat) cands :
  levels_inv bs ms mc self →
  length (freq_list self) = j → cand_list self !! j = Some cands →
  let kept := filter (frequent bs ms) (elements cands) in
  gen_freqs (S j) self
  = Ok (new_freq_level kept (record_supports bs kept self))
  ∧ (kept ≠ [] →
     levels_inv bs ms mc (new_freq_level kept (record_supports bs kept self))).
Proof.
  intros Hinv Hfl Hj kept.
  pose proof (levels_inv_nonempty _ _ _ _ _ _ Hinv Hj) as Hbs.
  pose proof (new_freq_level_fields kept (record_supports bs kept self))
    as Hf.
  pose proof (record_supports_fields bs kept self) as Hr.
  pose proof (record_supports_lookup bs kept self) as Hlook.
  cbv zeta in Hf, Hr.
  destruct Hinv as [I1 I2 I3 I4 I5 I6 I7 I8 I9].
  split.
  { rewrite (gen_freqs_S self j cands); [|done|congruence|congruence].
    cbv zeta. by rewrite I1, I3. }
  intros Hne. rewrite decide_False in Hf by done.
  destruct Hf as (F1 & F2 & F3 & F4 & F5 & F6 & F7 & F8 & F9 & F10 & F11).
  destruct Hr as (R1 & R2 & R3 & R4 & R5 & R6 & R7 & R8 & R9 & R10).
  split; try congruence.
  - intros t cands'. rewrite F5, R5. intros Ht.
    destruct (I5 t cands' Ht) as (? & lvl & ? & ?). split; [done|].
    exists lvl. split; [|done]. eapply input_level_mono; [| |done].
    + congruence.
    + intros t' freqs Ht'. rewrite F11, R6. by apply lookup_app_l_Some.
  - intros t freqs. rewrite F11, F5, R5, R6. intros Ht.
    apply lookup_app_Some in Ht as [Ht|[Hlen Ht]]; [by apply I6|].
    apply list_lookup_singleton_Some in Ht as [Ht <-].
    assert (t = j) as -> by lia. split; [done|]. by exists cands.
  - intros t cands' c. rewrite F5, R5. apply I7.
  - rewrite F10, R10, F11, R6, I8, concat_app. simpl. by rewrite app_nil_r.
  - intros c. rewrite F6, Hlook, F11, R6, I9, concat_app. simpl.
    rewrite app_nil_r.
    destruct (decide (c ∈ kept)) as [Hk|Hk].
    + rewrite decide_True; [done|]. apply elem_of_app. by right.
    + destruct (decide (c ∈ concat (freq_list self))) as [Hc|Hc].
      * rewrite decide_True; [done|]. apply elem_of_app. by left.
      * rewrite decide_False; [done|]. by intros [?|?]%elem_of_app.
Qed.

Lemma no_rules_new_cand_level cands self :
  no_rules self → no_rules (new_cand_level cands self).
Proof.
  unfold no_rules.
  pose proof (new_cand_level_fields cands self) as Hf. cbv zeta in Hf.
  destruct Hf as (_ & _ & _ & _ & _ & _ & -> & -> & -> & _). done.
Qed.

Lemma no_rules_new_freq_level bs kept self :
  no_rules self →
  no_rules (new_freq_level kept (record_supports bs kept self)).
Proof.
  unfold no_rules.
  pose proof (new_freq_level_fields kept (record_supports bs kept self))
    as Hf.
  pose proof (record_supports_fields bs kept self) as Hr.
  cbv zeta in Hf, Hr.
  destruct Hf as (_ & _ & _ & _ & _ & _ & -> & -> & -> & _).
  destruct Hr as (_ & _ & _ & _ & _ & _ & -> & -> & -> & _). done.
Qed.

(** A frequent level of index [t] holds itemsets of [t + 1] items of the
    baskets: there are at most as many levels as items. *)
Lemma levels_inv_bound bs ms mc self :
  levels_inv bs ms mc self → (length (freq_list self) ≤ size (⋃ bs))%nat.
Proof.
  intros Hinv.
  destruct (freq_list self) as [|f fs _] eqn:Hfl using rev_ind; [simpl; lia|].
  assert (freq_list self !! length fs = Some f) as Ht
    by (rewrite Hfl; by apply list_lookup_middle).
  destruct (inv_freqs _ _ _ _ Hinv _ _ Ht) as (Hne & _).
  destruct f as [|c f]; [done|].
  destruct (levels_inv_freq_size _ _ _ _ _ _ c Hinv Ht) as (Hsz & Hsub & _);
    [left|].
  apply subseteq_size in Hsub. rewrite length_app. simpl. lia.
Qed.

(** The first loop from its head at level [j]: it does not raise; it ends
    in one of the two ways of [level_done], unless the fuel runs out, which
    takes more levels than there are items. *)
Lemma level_loop_spec bs ms mc (fuel j : nat) self :
  levels_inv bs ms mc self → no_rules self →
  length (cand_list self) = j → length (freq_list self) = j →
  match level_loop fuel j self with
  | Some (Ok self') =>
      levels_inv bs ms mc self' ∧ no_rules self' ∧ level_done bs ms self'
  | Some (Raise _) => False
  | None => (fuel + j ≤ size (⋃ bs))%nat
  end.
Proof.
  revert j self. induction fuel as [|fuel IH]; intros j self Hinv Hno Hcl Hfl.
  { simpl. rewrite <- Hfl. by eapply levels_inv_bound. }
  cbn [level_loop].
  destruct (gen_cands_step _ _ _ _ j Hinv Hcl Hfl)
    as (level & Hlevel & -> & Hinv1).
  pose proof (new_cand_level_fields (candidates j level) self) as Hf.
  cbv zeta in Hf.
  destruct Hf as (F1 & F2 & F3 & F4 & F5 & F6 & F7 & F8 & F9 & F10 & F11).
  destruct (decide (candidates j level = ∅)) as [Hempty|Hne].
  { (* no candidate of the next size *)
    rewrite bool_decide_true by (rewrite F11; lia).
    unfold new_cand_level. rewrite bool_decide_false by naive_solver.
    split; [done|]. split; [done|]. left. split; [lia|].
    rewrite Hfl. intros level' Hlevel'.
    by rewrite (input_level_unique _ _ _ _ Hlevel' Hlevel). }
  specialize (Hinv1 Hne).
  pose proof (no_rules_new_cand_level (candidates j level) self Hno) as Hno1.
  rewrite bool_decide_false by (rewrite F11, length_app; simpl; lia).
  set (self1 := new_cand_level (candidates j level) self) in *.
  assert (cand_list self1 !! j = Some (candidates j level)) as Hj.
  { rewrite F11, <- Hcl. by apply list_lookup_middle. }
  assert (length (freq_list self1) = j) as Hfl1 by congruence.
  pose proof (gen_freqs_step _ _ _ _ j _ Hinv1 Hfl1 Hj) as Hstep.
  cbv zeta in Hstep.
  set (kept := filter (frequent bs ms) (elements (candidates j level))) in *.
  destruct Hstep as [-> Hinv2].
  pose proof (new_freq_level_fields kept (record_supports bs kept self1))
    as Hg.
  pose proof (record_supports_fields bs kept self1) as Hr.
  cbv zeta in Hg, Hr.
  destruct Hg as (G1 & G2 & G3 & G4 & G5 & G6 & G7 & G8 & G9 & G10 & G11).
  destruct Hr as (R1 & R2 & R3 & R4 & R5 & R6 & R7 & R8 & R9 & R10).
  destruct (decide (kept = [])) as [Hkept|Hkept].
  { (* no candidate is frequent *)
    rewrite bool_decide_true by (rewrite G11, R6; lia).
    rewrite Hkept. cbn [new_freq_level record_supports foldl].
    split; [done|]. split; [done|]. right. rewrite Hfl1.
    split; [rewrite F11, length_app; simpl; lia|].
    intros cands c Hcands Hc Hfreq. rewrite Hj in Hcands.
    injection Hcands as <-.
    assert (c ∈ kept) as Hin;
      [|rewrite Hkept in Hin; by apply elem_of_nil in Hin].
    apply list_elem_of_filter. by rewrite elem_of_elements. }
  rewrite bool_decide_false by (rewrite G11, R6, length_app; simpl; lia).
  assert (match level_loop fuel (S j)
                  (new_freq_level kept (record_supports bs kept self1)) with
          | Some (Ok self') =>
              levels_inv bs ms mc self' ∧ no_rules self'
              ∧ level_done bs ms self'
          | Some (Raise _) => False
          | None => (fuel + S j ≤ size (⋃ bs))%nat
          end) as Hrec.
  { apply IH.
    - by apply Hinv2.
    - by apply no_rules_new_freq_level.
    - rewrite G5, R5, F11, length_app; simpl; lia.
    - rewrite G11, R6, length_app; simpl; lia. }
  destruct (level_loop fuel (S j) _) as [[self'|e]|]; [done|done|lia].
Qed.

(** *** A small logic for calls that may raise *)

Lemma spec_ret {A} safe (a : A) (post : A → Prop) :
  post a → spec safe (Ok a) post.
Proof. done. Qed.

Lemma spec_bind {A B} safe (m : outcome A) (f : A → outcome B)
    (mid : A → Prop) (post : B → Prop) :
  spec safe m mid → (∀ a, mid a → spec safe (f a) post) →
  spec safe (m ≫= f) post.
Proof. destruct m as [a|e]; simpl; [|done]. intros Ha Hf. by apply Hf. Qed.

Lemma spec_mono {A} safe (m : outcome A) (post post' : A → Prop) :
  spec safe m post → (∀ a, post a → post' a) → spec safe m post'.
Proof. destruct m; simpl; auto. Qed.

Lemma spec_for_each {A S} safe (inv : list A → S → Prop)
    (body : S → A → outcome S) (s0 : S) (l : list A) :
  inv [] s0 →
  (∀ done x rest s, l = done ++ x :: rest → inv done s →
     spec safe (body s x) (inv (done ++ [x]))) →
  spec safe (for_each body s0 l) (inv l).
Proof. apply for_each_spec. Qed.

Lemma spec_safe {A} (safe : Prop) (m : outcome A) (post : A → Prop) :
  spec safe m post → safe → ∃ a, m = Ok a ∧ post a.
Proof. destruct m as [a|e]; simpl; [eauto|done]. Qed.

(** *** The second loop *)

Lemma rules_inv_refl start :
  no_rules start → rules_inv start start.
Proof.
  intros (Hcd & Hrl & Hcb). split; try done.
  - intros r. rewrite Hrl. by intros ?%elem_of_nil.
  - intros freq clevels. by rewrite Hcd, lookup_empty.
  - by rewrite Hcd, Hcb, dom_empty_L.
Qed.

Section second_loop.
Context (bs : list (gset Item)) (ms mc : float) (start : @Apriori Item _ _).
Context (Hlevels : levels_inv bs ms mc start).

Lemma check_rule_spec self (i : nat) level freq conseq :
  rules_inv start self →
  freq_list start !! i = Some level → freq ∈ level →
  conseq ⊆ freq → conseq ≠ ∅ → conseq ≠ freq →
  spec (antecedents_ok start) (check_rule freq conseq self) (λ '(_, self'),
    rules_inv start self'
    ∧ conseq_dict self' = conseq_dict self
    ∧ conseq_bound self' = conseq_bound self).
Proof.
  intros Hinv Hi Hfreq Hsub Hne Hneq. unfold check_rule. cbv zeta.
  assert (freq ∖ conseq ≠ ∅) as Hante.
  { intros Hempty. apply Hneq. apply set_eq. intros x. split; [apply Hsub|].
    intros Hx. destruct (decide (x ∈ conseq)); [done|]. set_solver. }
  rewrite (rinv_supp_dict _ _ Hinv), (rinv_min_conf _ _ Hinv).
  assert (supp_dict start !! freq = Some (support bs freq)) as Hsf.
  { rewrite (inv_supp_dict _ _ _ _ Hlevels), decide_True; [done|].
    apply elem_of_concat. exists level.
    split; [by eapply list_elem_of_lookup_2|done]. }
  unfold dict_get. rewrite Hsf. cbn [mbind outcome_bind].
  destruct (supp_dict start !! (freq ∖ conseq)) as [v|] eqn:Hsa;
    cbn [mbind outcome_bind spec].
  2:{ intros Hsafe.
      destruct (Hsafe i level freq (freq ∖ conseq)) as (v & Hv & _);
        [done|done|set_solver|done|congruence]. }
  unfold float_truediv. destruct (float_is_zero v) eqn:Hz;
    cbn [mbind outcome_bind spec].
  { intros Hsafe.
    destruct (Hsafe i level freq (freq ∖ conseq)) as (v' & Hv' & Hz');
      [done|done|set_solver|done|congruence]. }
  destruct (float_ge _ _) eqn:Hge; cbn [spec]; [|done].
  split; [|done]. destruct Hinv. split; try done.
  intros r. simpl. rewrite elem_of_app, list_elem_of_singleton.
  intros [Hr| ->]; [auto|].
  exists i, level, freq, (support bs freq), v.
  unfold float_truediv. rewrite Hz.
  split_and!; try done.
  - set_solver.
  - apply set_eq. intros x. rewrite elem_of_union, elem_of_difference.
    split; [intros [[? _]|?]; auto|].
    intros Hx. destruct (decide (x ∈ conseq)); auto.
Qed.

Lemma conseqs_inv_check self (i : nat) level freq k conseq acc :
  freq_list start !! i = Some level → freq ∈ level → (k < i)%nat →
  conseq ⊆ freq → size conseq = S k →
  conseqs_inv start self freq k acc →
  spec (antecedents_ok start)
    ('(ok, self') ← check_rule freq conseq acc.2;
     Ok (if ok : bool then acc.1 ++ [conseq] else acc.1, self'))
    (conseqs_inv start self freq k).
Proof.
  intros Hi Hfreq Hk Hsub Hsize (Hinv & Hcd & Hcb & Hacc).
  destruct (levels_inv_freq_size _ _ _ _ _ _ _ Hlevels Hi Hfreq)
    as (Hsz & _).
  eapply spec_bind.
  - apply (check_rule_spec acc.2 i level freq conseq); try done.
    + intros ->. rewrite size_empty in Hsize. lia.
    + intros ->. lia.
  - intros [ok self'] (Hinv' & Hcd' & Hcb'). apply spec_ret.
    split; [done|]. split; [simpl; congruence|].
    split; [simpl; congruence|]. simpl. intros c.
    destruct ok; [|by apply Hacc].
    rewrite elem_of_app, list_elem_of_singleton.
    intros [?| ->]; [by apply Hacc|done].
Qed.

Lemma rules_inv_append_conseq self freq conseqs clevels (i k : nat) level :
  rules_inv start self →
  freq_list start !! i = Some level → freq ∈ level → (k < i)%nat →
  conseq_dict self !! freq = Some clevels → length clevels = k →
  (∀ conseq, conseq ∈ conseqs → conseq ⊆ freq ∧ size conseq = S k) →
  ∃ self', append_conseq freq conseqs self = Ok self'
    ∧ rules_inv start self'
    ∧ conseq_bound self' = conseq_bound self
    ∧ conseq_dict self' = <[freq := clevels ++ [conseqs]]> (conseq_dict self).
Proof.
  intros Hinv Hi Hfreq Hk Hcl Hlen Hconseqs. unfold append_conseq, dict_get.
  rewrite Hcl. cbn [mbind outcome_bind]. eexists. split; [done|].
  split; [|done]. destruct Hinv. split; try done; simpl.
  - intros f cl. rewrite lookup_insert. case_decide as Hf; [|by auto].
    subst f. intros [= <-]. exists i, level. split; [lia|].
    split; [done|]. split; [done|].
    split; [rewrite length_app; simpl; lia|].
    intros t lvl conseq Ht Hc.
    apply lookup_app_Some in Ht as [Ht|[Hge Ht]].
    + destruct (rinv_conseqs0 freq clevels Hcl)
        as (i' & level' & _ & _ & _ & _ & Hold). by eapply Hold.
    + apply list_lookup_singleton_Some in Ht as [Ht <-].
      assert (t = k) as -> by lia. by apply Hconseqs.
  - rewrite dom_insert_L, <- rinv_keys0.
    apply (elem_of_dom_2 (conseq_dict self)) in Hcl. set_solver.
Qed.

Lemma gen_conseqs_spec self (i k : nat) level freq clevels :
  rules_inv start self →
  freq_list start !! i = Some level → freq ∈ level → (k < i)%nat →
  conseq_dict self !! freq = Some clevels → length clevels = k →
  spec (antecedents_ok start) (gen_conseqs freq k self) (λ self',
    rules_inv start self'
    ∧ conseq_bound self' = conseq_bound self
    ∧ (∀ f, f ≠ freq → conseq_dict self' !! f = conseq_dict self !! f)
    ∧ ∃ clevels', conseq_dict self' !! freq = Some clevels'
        ∧ (length clevels' = k ∨ length clevels' = S k)).
Proof.
  intros Hinv Hi Hfreq Hk Hcl Hlen. unfold gen_conseqs.
  apply spec_bind with (mid := conseqs_inv start self freq k).
  - (* the loops *)
    assert (conseqs_inv start self freq k ([], self)) as Hinit.
    { split; [done|]. split; [done|]. split; [done|].
      by intros c ?%elem_of_nil. }
    case_bool_decide as Hk0.
    + apply spec_for_each with (inv := λ _, conseqs_inv start self freq k);
        [done|].
      intros done item rest [conseqs self'] Hl Hacc. cbv zeta.
      apply (conseqs_inv_check self i level freq k {[ item ]}
               (conseqs, self')); try done.
      * apply singleton_subseteq_l, elem_of_elements. rewrite Hl.
        apply elem_of_app. right. left.
      * rewrite Hk0. apply size_singleton.
    + destruct k as [|k]; [done|]. unfold dict_get. rewrite Hcl.
      cbn [mbind outcome_bind]. rewrite getitem_pred.
      destruct (lookup_lt_is_Some_2 clevels k) as [prev Hprev]; [lia|].
      rewrite Hprev. cbn [mbind outcome_bind].
      apply spec_for_each with (inv := λ _, conseqs_inv start self freq (S k));
        [done|].
      intros done [a b] rest [conseqs self'] Hl Hacc. cbv zeta.
      case_bool_decide as Hsz; [|by apply spec_ret].
      apply (conseqs_inv_check self i level freq (S k) (a ∪ b)
               (conseqs, self')); try done; [|lia].
      assert ((a, b) ∈ join_pairs prev) as Hab
        by (rewrite Hl; apply elem_of_app; right; left).
      apply elem_of_join_pairs in Hab as (ia & ib & _ & Ha & Hb).
      destruct (rinv_conseqs _ _ Hinv freq clevels Hcl)
        as (i' & level' & _ & _ & _ & _ & Hold).
      destruct (Hold k prev a Hprev) as [? _];
        [by eapply list_elem_of_lookup_2|].
      destruct (Hold k prev b Hprev) as [? _];
        [by eapply list_elem_of_lookup_2|].
      set_solver.
  - (* recording the level *)
    intros [conseqs self'] (Hinv' & Hcd & Hcb & Hacc). simpl in *.
    destruct conseqs as [|c conseqs].
    + apply spec_ret. split; [done|]. split; [done|].
      split; [by intros; rewrite Hcd|]. exists clevels.
      rewrite Hcd. split; [done|by left].
    + destruct (rules_inv_append_conseq self' freq (c :: conseqs) clevels
                  i k level) as (self'' & -> & Hinv'' & Hcb'' & Hcd'');
        try done; [by rewrite Hcd|].
      apply spec_ret. split; [done|]. split; [congruence|].
      rewrite Hcd'', Hcd. split.
      * intros f Hf. by rewrite lookup_insert_ne.
      * exists (clevels ++ [c :: conseqs]). rewrite lookup_insert_eq.
        split; [done|]. right. rewrite length_app. simpl. lia.
Qed.

Lemma conseq_loop_spec (i : nat) level freq (todo : nat) :
  freq_list start !! i = Some level → freq ∈ level →
  ∀ (k : nat) self clevels,
    rules_inv start self → (k + todo = i)%nat →
    conseq_dict self !! freq = Some clevels → length clevels = k →
    spec (antecedents_ok start) (conseq_loop freq todo k self) (λ self',
      rules_inv start self' ∧ conseq_bound self' = conseq_bound self).
Proof.
  intros Hi Hfreq. induction todo as [|todo IH];
    intros k self clevels Hinv Hk Hcl Hlen; cbn [conseq_loop].
  { by apply spec_ret. }
  eapply spec_bind.
  { apply (gen_conseqs_spec self i k level freq clevels); try done. lia. }
  intros self' (Hinv' & Hcb & _ & clevels' & Hcl' & Hlen'). cbv zeta.
  unfold dict_get. rewrite Hcl'. cbn [mbind outcome_bind].
  case_bool_decide as Hstop; [by apply spec_ret|].
  eapply spec_mono.
  - apply (IH (S k) self' clevels'); [done|lia|done|lia].
  - intros self'' [? ?]. split; [done|congruence].
Qed.

Lemma rules_inv_bind_conseq self (i : nat) level freq :
  rules_inv start self →
  freq_list start !! i = Some level → freq ∈ level → (0 < i)%nat →
  rules_inv start (bind_conseq freq [] self).
Proof.
  intros Hinv Hi Hfreq Hpos. destruct Hinv. split; try done; simpl.
  - intros f cl. rewrite lookup_insert. case_decide as Hf; [|by auto].
    intros [= <-]. subst f. exists i, level.
    split; [done|]. split; [done|]. split; [done|]. split; [simpl; lia|].
    intros t lvl conseq Ht. by rewrite lookup_nil in Ht.
  - rewrite dom_insert_L, list_to_set_app_L, rinv_keys0. set_solver.
Qed.

(** The loop over one frequent level of index [i > 0]. *)
Lemma rule_level_spec self (i : nat) level :
  rules_inv start self →
  freq_list start !! i = Some level → (0 < i)%nat →
  spec (antecedents_ok start)
    (for_each (λ self freq,
       let k := 0%nat in
       let self := bind_conseq freq [] self in
       conseq_loop freq (i - k) k self) self level)
    (λ self', rules_inv start self'
              ∧ conseq_bound self' = conseq_bound self ++ level).
Proof.
  intros Hinv Hi Hpos.
  apply spec_for_each with (inv := λ done self',
    rules_inv start self'
    ∧ conseq_bound self' = conseq_bound self ++ done).
  { split; [done|]. by rewrite app_nil_r. }
  intros done freq rest self' Hl [Hinv' Hcb]. cbv zeta.
  assert (freq ∈ level) as Hfreq
    by (rewrite Hl; apply elem_of_app; right; left).
  eapply spec_mono.
  - apply (conseq_loop_spec i level freq (i - 0) Hi Hfreq 0%nat
             (bind_conseq freq [] self') []); [|lia| |done].
    + by eapply rules_inv_bind_conseq.
    + simpl. apply lookup_insert_eq.
  - intros self'' [? Hcb'']. split; [done|]. rewrite Hcb''. simpl.
    by rewrite Hcb, <- app_assoc.
Qed.

Lemma rule_phase_spec :
  no_rules start →
  spec (antecedents_ok start) (rule_phase start) (λ self,
    rules_inv start self
    ∧ conseq_bound self = rule_keys (freq_list start)).
Proof.
  intros Hno. unfold rule_phase, rule_keys.
  apply spec_for_each with (inv := λ done self,
    rules_inv start self
    ∧ conseq_bound self
      = concat ((λ '(i, freqs),
                   if bool_decide (0 < i)%nat then freqs else [])
                  <$> done)).
  { split; [by apply rules_inv_refl|]. by destruct Hno as (_ & _ & ->). }
  intros done [i level] rest self Hl [Hinv Hcb].
  assert (freq_list start !! i = Some level) as Hi.
  { apply elem_of_enumerate. rewrite Hl. apply elem_of_app. right. left. }
  rewrite fmap_app, concat_app. cbn [fmap list_fmap concat].
  rewrite app_nil_r, <- Hcb.
  case_bool_decide as Hpos.
  - by apply rule_level_spec.
  - apply spec_ret. by rewrite app_nil_r.
Qed.

End second_loop.

(** *** Keys are bound once *)

Lemma NoDup_concat {A} (ls : list (list A)) :
  (∀ l, l ∈ ls → NoDup l) →
  (∀ (i j : nat) li lj x,
     ls !! i = Some li → ls !! j = Some lj → x ∈ li → x ∈ lj → i = j) →
  NoDup (concat ls).
Proof.
  induction ls as [|l ls IH]; intros Hnd Hdisj; simpl; [constructor|].
  apply NoDup_app. split; [apply Hnd; left|]. split.
  - intros x Hx (l' & Hl' & Hx')%elem_of_concat.
    apply list_elem_of_lookup in Hl' as [j Hj].
    by specialize (Hdisj 0%nat (S j) l l' x eq_refl Hj Hx Hx').
  - apply IH.
    + intros l' Hl'. apply Hnd. by right.
    + intros i j li lj x Hi Hj Hxi Hxj.
      by specialize (Hdisj (S i) (S j) li lj x Hi Hj Hxi Hxj) as [= ->].
Qed.

Lemma levels_inv_NoDup bs ms mc self :
  levels_inv bs ms mc self → NoDup (concat (freq_list self)).
Proof.
  intros Hinv. apply NoDup_concat.
  - intros l [t Ht]%list_elem_of_lookup.
    destruct (inv_freqs _ _ _ _ Hinv t l Ht) as (_ & cands & _ & ->).
    apply NoDup_filter, NoDup_elements.
  - intros i j li lj x Hi Hj Hxi Hxj.
    destruct (levels_inv_freq_size _ _ _ _ _ _ _ Hinv Hi Hxi) as (? & _).
    destruct (levels_inv_freq_size _ _ _ _ _ _ _ Hinv Hj Hxj) as (? & _).
    lia.
Qed.

Lemma rule_keys_tail (levels : list (list (gset Item))) :
  rule_keys levels = concat (tail levels).
Proof.
  unfold rule_keys, enumerate. destruct levels as [|l levels]; [done|].
  rewrite imap_cons. cbn [fmap list_fmap concat tail]. simpl.
  f_equal. rewrite fmap_imap.
  rewrite (imap_ext _ (const id)); [|done].
  by rewrite imap_const, list_fmap_id.
Qed.

Lemma rule_keys_NoDup (levels : list (list (gset Item))) :
  NoDup (concat levels) → NoDup (rule_keys levels).
Proof.
  rewrite rule_keys_tail. destruct levels as [|l levels]; [done|]. simpl.
  by intros (_ & _ & ?)%NoDup_app.
Qed.

(** *** The whole run *)

(** A run either runs out of fuel, with no more fuel than there are items
    in the baskets, or leaves the first loop in a state [start] from which
    the second loop is run. *)
Lemma apriori_spec bs ms mc (fuel : nat) :
  match apriori fuel (__init__ bs ms mc) with
  | None => (fuel ≤ size (⋃ bs))%nat
  | Some r =>
      ∃ start,
        level_loop fuel 0 (__init__ bs ms mc) = Some (Ok start)
        ∧ levels_inv bs ms mc start ∧ no_rules start
        ∧ level_done bs ms start
        ∧ r = rule_phase start
        ∧ spec (antecedents_ok start) r (λ self,
            rules_inv start self
            ∧ conseq_bound self = rule_keys (freq_list start))
  end.
Proof.
  unfold apriori.
  pose proof (level_loop_spec bs ms mc fuel 0 (__init__ bs ms mc)
                (levels_inv_init bs ms mc)) as Hloop.
  destruct (level_loop fuel 0 _) as [[start|e]|].
  - destruct Hloop as (Hinv & Hno & Hdone); [done..|].
    exists start. split_and!; try done.
    by eapply rule_phase_spec.
  - by destruct Hloop.
  - rewrite Nat.add_0_r in Hloop. by apply Hloop.
Qed.

Lemma level_loop_fuel (fuel extra k : nat) self r :
  level_loop fuel k self = Some r → level_loop (fuel + extra) k self = Some r.
Proof.
  revert k self. induction fuel as [|fuel IH]; intros k self; [done|].
  cbn [level_loop Nat.add]. destruct (gen_cands k self) as [self1|e]; [|done].
  case_bool_decide; [done|].
  destruct (gen_freqs (S k) self1) as [self2|e]; [|done].
  case_bool_decide; [done|]. apply IH.
Qed.

Lemma apriori_fuel (fuel fuel' : nat) self r r' :
  apriori fuel self = Some r → apriori fuel' self = Some r' → r = r'.
Proof.
  unfold apriori. intros Hr Hr'.
  destruct (level_loop fuel 0 self) as [o|] eqn:Ho; [|done].
  destruct (level_loop fuel' 0 self) as [o'|] eqn:Ho'; [|done].
  apply (level_loop_fuel _ fuel') in Ho.
  apply (level_loop_fuel _ fuel) in Ho'.
  rewrite (Nat.add_comm fuel' fuel) in Ho'. rewrite Ho in Ho'.
  injection Ho' as <-. destruct o; congruence.
Qed.

(** C2: every rule [(ante, conseq, conf)] in the rule list of a run that
    returned comes from an itemset [freq] of a frequent level: [conseq] is a
    non-empty subset of [freq] other than [freq], [ante] is [freq] minus
    [conseq] and is not empty, the two are disjoint and their union is
    [freq]; both [freq] and [ante] have a support in [supp_dict], that of
    [ante] is not zero, [conf] is the first divided by the second as
    doubles, and [conf >= min_conf], the threshold the run was given. *)
Theorem rules_are_sound bs ms mc (fuel : nat) self
    (ante conseq : gset Item) (conf : float) :
  apriori fuel (__init__ bs ms mc) = Some (Ok self) →
  (ante, conseq, conf) ∈ rule_list self →
  ∃ (i : nat) level freq supp_freq supp_ante,
    freq_list self !! i = Some level ∧ freq ∈ level
    ∧ conseq ⊆ freq ∧ conseq ≠ ∅ ∧ conseq ≠ freq
    ∧ ante = freq ∖ conseq ∧ ante ≠ ∅ ∧ ante ## conseq
    ∧ ante ∪ conseq = freq
    ∧ supp_dict self !! freq = Some supp_freq
    ∧ supp_dict self !! ante = Some supp_ante
    ∧ float_is_zero supp_ante = false
    ∧ conf = SFdiv prec emax supp_freq supp_ante
    ∧ float_ge conf (min_conf self) = true
    ∧ min_conf self = mc.
Proof.
  intros Hrun Hr. pose proof (apriori_spec bs ms mc fuel) as Hspec.
  rewrite Hrun in Hspec.
  destruct Hspec as (start & _ & Hinv & _ & _ & _ & Hrules & _).
  destruct Hrules as [? ? ? Hmc ? Hfl Hsd ? Hsound ? ?].
  destruct (Hsound (ante, conseq, conf) Hr)
    as (i & level & freq & supp_freq & supp_ante & Hi & Hin & Hsub & Hne
        & Hnf & Hante & Hane & Hdisj & Hun & Hsf & Hsa & Hdiv & Hge).
  exists i, level, freq, supp_freq, supp_ante.
  rewrite Hfl, Hsd, Hmc. unfold float_truediv in Hdiv.
  destruct (float_is_zero supp_ante) eqn:Hz; [done|].
  injection Hdiv as <-.
  split_and!; try done. apply Hinv.
Qed.

(** C6: with one unit of fuel more than there are items in the baskets, and
    with any more than that, the run ends, whatever the baskets and the
    thresholds, and its result does not depend on the fuel.  The first loop
    does not raise and is left either because no candidate of the next size
    exists or because no candidate of the last candidate level is frequent.
    When the run returns, each frequent itemset has fewer consequence
    levels than items: the inner loop stopped within the size of the
    itemset. *)
Theorem apriori_terminates bs ms mc (extra : nat) :
  ∃ r start,
    apriori (S (size (⋃ bs)) + extra) (__init__ bs ms mc) = Some r
    ∧ (∀ fuel r', apriori fuel (__init__ bs ms mc) = Some r' → r' = r)
    ∧ level_loop (S (size (⋃ bs)) + extra) 0 (__init__ bs ms mc)
      = Some (Ok start)
    ∧ level_done bs ms start
    ∧ r = rule_phase start
    ∧ ∀ self, r = Ok self →
        ∀ freq clevels, conseq_dict self !! freq = Some clevels →
          (length clevels < size freq)%nat.
Proof.
  pose proof (apriori_spec bs ms mc (S (size (⋃ bs)) + extra)) as Hspec.
  destruct (apriori _ _) as [r|] eqn:Hrun; [|lia].
  destruct Hspec as (start & Hloop & Hinv & _ & Hdone & -> & Hrules).
  exists (rule_phase start), start. split_and!; try done.
  - intros fuel r' Hr'. by eapply apriori_fuel.
  - intros self Hself freq clevels Hcl. rewrite Hself in Hrules.
    destruct Hrules as [Hrinv _].
    destruct (rinv_conseqs _ _ Hrinv freq clevels Hcl)
      as (i & level & _ & Hi & Hfreq & Hlen & _).
    destruct (levels_inv_freq_size _ _ _ _ _ _ _ Hinv Hi Hfreq) as (-> & _).
    lia.
Qed.

(** C8: in a run that returned, no key was bound twice in [supp_dict] and
    none twice in [conseq_dict]: the keys of the executed statements
    [supp_dict[key] = ...] have no repetition, nor have those of
    [conseq_dict[key] = ...]; these keys are the keys of the two
    dictionaries, and each support found at the end is the one written by
    the only binding of its key. *)
Theorem dictionaries_bound_once bs ms mc (fuel : nat) self :
  apriori fuel (__init__ bs ms mc) = Some (Ok self) →
  NoDup (supp_bound self) ∧ NoDup (conseq_bound self)
  ∧ dom (supp_dict self) = list_to_set (supp_bound self)
  ∧ dom (conseq_dict self) = list_to_set (conseq_bound self)
  ∧ ∀ key, key ∈ supp_bound self →
      supp_dict self !! key = Some (support bs key).
Proof.
  intros Hrun. pose proof (apriori_spec bs ms mc fuel) as Hspec.
  rewrite Hrun in Hspec.
  destruct Hspec as (start & _ & Hinv & _ & _ & _ & Hrules & Hcb).
  destruct Hrules as [? ? ? ? ? ? Hsd Hsb ? ? Hkeys].
  pose proof (levels_inv_NoDup _ _ _ _ Hinv) as Hnd.
  rewrite Hsd, Hsb, Hcb, (inv_supp_bound _ _ _ _ Hinv).
  split; [done|]. split; [by apply rule_keys_NoDup|].
  split; [|split].
  - apply set_eq. intros c.
    rewrite elem_of_dom, (inv_supp_dict _ _ _ _ Hinv), elem_of_list_to_set.
    case_decide; [by split; eauto|].
    split; [by intros [? ?]|done].
  - by rewrite Hkeys, Hcb.
  - intros key Hkey. rewrite (inv_supp_dict _ _ _ _ Hinv).
    by rewrite decide_True.
Qed.

(** *** Supports of subsets *)

Lemma count_bounds bs c : 0 ≤ count bs c ≤ Z.of_nat (length bs).
Proof.
  unfold count. pose proof (length_filter (λ b, c ⊆ b) bs). lia.
Qed.

Lemma count_anti bs (a b : gset Item) :
  a ⊆ b → count bs b ≤ count bs a.
Proof.
  intros Hab. unfold count. apply inj_le.
  induction bs as [|x bs IH]; [done|]. rewrite !filter_cons.
  destruct (decide (b ⊆ x)) as [Hb|Hb].
  - rewrite decide_True by set_solver. simpl. lia.
  - destruct (decide (a ⊆ x)); simpl; lia.
Qed.

Lemma support_anti bs (a b : gset Item) :
  bs ≠ [] → a ⊆ b →
  float_ge (support bs a) (support bs b) = true.
Proof.
  intros Hbs Hab. unfold support. apply int_div_mono.
  - pose proof (count_bounds bs b). pose proof (count_anti bs a b Hab). lia.
  - apply count_bounds.
  - destruct bs; [done|simpl length; lia].
Qed.

Lemma frequent_subset bs ms (a b : gset Item) :
  bs ≠ [] → a ⊆ b →
  frequent bs ms b → frequent bs ms a.
Proof.
  intros Hbs Hab Hb. unfold frequent in *.
  eapply float_ge_trans; [|done]. by apply support_anti.
Qed.

(** Every subset of [t + 1] items of a frequent itemset is in the frequent
    level of index [t]. *)
Lemma downward_closed bs ms mc self :
  levels_inv bs ms mc self →
  ∀ (t : nat) (sub : gset Item) (i : nat) level freq,
    freq_list self !! i = Some level → freq ∈ level →
    sub ⊆ freq → size sub = S t →
    ∃ level', freq_list self !! t = Some level' ∧ sub ∈ level'.
Proof.
  intros Hinv. induction t as [|t IH];
    intros sub i level freq Hi Hfreq Hsub Hsize.
  - (* one item *)
    apply size_1_elem_of in Hsize as [x Hx]. apply leibniz_equiv in Hx.
    subst sub.
    destruct (levels_inv_freq_size _ _ _ _ _ _ _ Hinv Hi Hfreq)
      as (_ & HU & Hfr & cands & Hcands & _).
    pose proof (levels_inv_nonempty _ _ _ _ _ _ Hinv Hcands) as Hbs.
    destruct (lookup_lt_is_Some_2 (freq_list self) 0) as [level0 H0];
      [apply lookup_lt_Some in Hi; lia|].
    exists level0. split; [done|].
    destruct (inv_freqs _ _ _ _ Hinv 0%nat level0 H0)
      as (_ & cands0 & Hc0 & ->).
    destruct (inv_cands _ _ _ _ Hinv 0%nat cands0 Hc0)
      as (_ & lvl & Hlvl & ->).
    simpl in Hlvl. subst lvl. rewrite (inv_baskets _ _ _ _ Hinv).
    apply list_elem_of_filter. split.
    + by eapply frequent_subset.
    + apply elem_of_elements. cbn [candidates]. apply elem_of_singletons.
      assert (x ∈ ⋃ bs) as (b & Hb & Hxb)%elem_of_union_list by set_solver.
      by exists b, x.
  - (* more items: the union of two subsets with one item less each *)
    destruct (levels_inv_freq_size _ _ _ _ _ _ _ Hinv Hi Hfreq)
      as (Hsz & HU & Hfr & cands & Hcands & _).
    pose proof (levels_inv_nonempty _ _ _ _ _ _ Hinv Hcands) as Hbs.
    destruct (size_pos_elem_of sub) as [x Hx]; [lia|].
    destruct (size_pos_elem_of (sub ∖ {[x]})) as [y Hy].
    { rewrite size_difference by set_solver. rewrite size_singleton. lia. }
    assert (size (sub ∖ {[x]}) = S t) as Hsx.
    { rewrite size_difference by set_solver. rewrite size_singleton. lia. }
    assert (size (sub ∖ {[y]}) = S t) as Hsy.
    { rewrite size_difference by set_solver. rewrite size_singleton. lia. }
    destruct (IH (sub ∖ {[x]}) i level freq) as (lvl & Hlvl & Hin1);
      [done|done|set_solver|done|].
    destruct (IH (sub ∖ {[y]}) i level freq) as (lvl' & Hlvl' & Hin2);
      [done|done|set_solver|done|].
    rewrite Hlvl in Hlvl'. injection Hlvl' as <-.
    assert (size sub ≤ size freq)%nat as Hle by (by apply subseteq_size).
    destruct (lookup_lt_is_Some_2 (freq_list self) (S t)) as [level1 H1];
      [apply lookup_lt_Some in Hi; lia|].
    exists level1. split; [done|].
    destruct (inv_freqs _ _ _ _ Hinv (S t) level1 H1)
      as (_ & cands1 & Hc1 & ->).
    destruct (inv_cands _ _ _ _ Hinv (S t) cands1 Hc1)
      as (_ & lvl1 & [Hlvl1 _] & ->).
    rewrite Hlvl in Hlvl1. injection Hlvl1 as <-.
    apply list_elem_of_filter. split.
    + by eapply frequent_subset.
    + apply elem_of_elements. cbn [candidates]. apply elem_of_joins.
      exists (sub ∖ {[x]}), (sub ∖ {[y]}).
      split; [done|]. split; [done|]. split; [set_solver|].
      split; [|lia]. apply set_eq. intros z.
      rewrite elem_of_union, !elem_of_difference, !elem_of_singleton.
      split; [|tauto]. intros Hz.
      destruct (decide (z = x)) as [->|?]; [|tauto].
      right. split; [done|]. set_solver.
Qed.

Lemma antecedents_ok_levels bs ms mc start :
  levels_inv bs ms mc start → SFltb f0_0 ms = true →
  ∀ (i : nat) level freq ante,
    freq_list start !! i = Some level → freq ∈ level →
    ante ⊆ freq → ante ≠ ∅ →
    supp_dict start !! ante = Some (support bs ante)
    ∧ float_is_zero (support bs ante) = false
    ∧ SFltb f0_0 (support bs ante) = true.
Proof.
  intros Hinv Hms i level freq ante Hi Hfreq Hsub Hne.
  destruct (size ante) as [|t] eqn:Hsize;
    [by apply size_empty_inv, leibniz_equiv in Hsize|].
  destruct (downward_closed _ _ _ _ Hinv t ante i level freq)
    as (level' & Ht & Hin); [done..|].
  destruct (levels_inv_freq_size _ _ _ _ _ _ _ Hinv Ht Hin)
    as (_ & _ & Hfr & _).
  split; [|split].
  - rewrite (inv_supp_dict _ _ _ _ Hinv), decide_True; [done|].
    apply elem_of_concat. exists level'.
    split; [by eapply list_elem_of_lookup_2|done].
  - by eapply float_ge_zero_lt.
  - by eapply float_gt_zero_trans.
Qed.

(** C10: with at least one basket and [0 < min_supp], the run returns: no
    lookup of [check_rule] fails and no division is by zero.  The first
    loop has recorded, for every non-empty subset [ante] of every frequent
    itemset, the support of [ante], and this support is greater than zero;
    the second loop leaves [supp_dict] as it found it. *)
Theorem check_rule_never_raises bs ms mc (fuel : nat) r :
  bs ≠ [] → SFltb f0_0 ms = true →
  apriori fuel (__init__ bs ms mc) = Some r →
  ∃ start self,
    level_loop fuel 0 (__init__ bs ms mc) = Some (Ok start)
    ∧ r = Ok self
    ∧ freq_list self = freq_list start
    ∧ supp_dict self = supp_dict start
    ∧ ∀ (i : nat) level freq ante,
        freq_list start !! i = Some level → freq ∈ level →
        ante ⊆ freq → ante ≠ ∅ →
        ∃ v, supp_dict start !! ante = Some v
             ∧ float_is_zero v = false ∧ SFltb f0_0 v = true
             ∧ ∀ x, float_truediv x v = Ok (SFdiv prec emax x v).
Proof.
  intros _ Hms Hrun. pose proof (apriori_spec bs ms mc fuel) as Hspec.
  rewrite Hrun in Hspec.
  destruct Hspec as (start & Hloop & Hinv & _ & _ & -> & Hrules).
  pose proof (antecedents_ok_levels _ _ _ _ Hinv Hms) as Hante.
  destruct (spec_safe _ _ _ Hrules) as (self & Hself & Hrinv & _).
  { intros i level freq ante Hi Hfreq Hsub Hne.
    destruct (Hante i level freq ante) as (Hv & Hz & _); [done..|]. eauto. }
  exists start, self. split; [done|]. split; [done|].
  split; [apply (rinv_freq_list _ _ Hrinv)|].
  split; [apply (rinv_supp_dict _ _ Hrinv)|].
  intros i level freq ante Hi Hfreq Hsub Hne.
  destruct (Hante i level freq ante) as (Hv & Hz & Hpos); [done..|].
  exists (support bs ante). split_and!; try done.
  intros x. unfold float_truediv. by rewrite Hz.
Qed.

(** C7: in a run that returned,
    when the supports of [A] and of a superset [B] of [A] are both recorded,
    that of [A] is [>=] that of [B]; and a candidate that failed the test
    against [min_supp], which is to say a candidate that is in no frequent
    level, has no superset in any frequent level. *)
Theorem support_is_antimonotone bs ms mc (fuel : nat) self :
  apriori fuel (__init__ bs ms mc) = Some (Ok self) →
  (∀ (A B : gset Item) supp_A supp_B,
     A ⊆ B →
     supp_dict self !! A = Some supp_A → supp_dict self !! B = Some supp_B →
     float_ge supp_A supp_B = true)
  ∧ (∀ (t : nat) cands (C : gset Item),
       cand_list self !! t = Some cands → C ∈ cands →
       (float_ge (support bs C) ms = false ↔ C ∉ concat (freq_list self))
       ∧ (C ∉ concat (freq_list self) →
          ∀ S, C ⊆ S → S ∉ concat (freq_list self))).
Proof.
  intros Hrun. pose proof (apriori_spec bs ms mc fuel) as Hspec.
  rewrite Hrun in Hspec.
  destruct Hspec as (start & _ & Hinv & _ & Hdone & _ & Hrules & _).
  destruct Hrules as [_ _ _ _ Hcl Hfl Hsd _ _ _ _].
  rewrite Hcl, Hfl, Hsd. clear Hcl Hfl Hsd Hrun self. split.
  - intros A B supp_A supp_B HAB.
    rewrite !(inv_supp_dict _ _ _ _ Hinv).
    destruct (decide (A ∈ _)) as [_|_]; [|done].
    destruct (decide (B ∈ _)) as [HB|_]; [|done].
    intros [= <-] [= <-].
    apply elem_of_concat in HB as (level & [i Hi]%list_elem_of_lookup & HB).
    destruct (levels_inv_freq_size _ _ _ _ _ _ _ Hinv Hi HB)
      as (_ & _ & _ & cands & Hcands & _).
    apply support_anti; [|done].
    by eapply levels_inv_nonempty.
  - intros t cands C Ht HC.
    pose proof (levels_inv_nonempty _ _ _ _ _ _ Hinv Ht) as Hbs.
    assert (float_ge (support bs C) ms = false
            ↔ C ∉ concat (freq_list start)) as Hfailed.
    { rewrite elem_of_concat. split.
      - intros Hfail (level & [i Hi]%list_elem_of_lookup & Hin).
        destruct (levels_inv_freq_size _ _ _ _ _ _ _ Hinv Hi Hin)
          as (_ & _ & Hfr & _).
        unfold frequent in Hfr. congruence.
      - intros Hnot. destruct (float_ge _ _) eqn:Hge; [|done].
        exfalso. apply Hnot.
        destruct (freq_list start !! t) as [level|] eqn:Hlevel.
        + exists level. split; [by eapply list_elem_of_lookup_2|].
          destruct (inv_freqs _ _ _ _ Hinv t level Hlevel)
            as (_ & cands' & Hc' & ->).
          rewrite Ht in Hc'. injection Hc' as <-.
          apply list_elem_of_filter. by rewrite elem_of_elements.
        + apply lookup_ge_None in Hlevel. apply lookup_lt_Some in Ht as Hlt.
          destruct Hdone as [[Hlen' _]|[Hlen' Hnone]]; [lia|].
          assert (t = length (freq_list start)) as -> by lia.
          by destruct (Hnone cands C Ht HC). }
    split; [done|]. intros Hnot S HCS HS.
    apply Hfailed in Hnot.
    apply elem_of_concat in HS as (level & [i Hi]%list_elem_of_lookup & HS).
    destruct (levels_inv_freq_size _ _ _ _ _ _ _ Hinv Hi HS)
      as (_ & _ & Hfr & _).
    pose proof (frequent_subset bs ms C S Hbs HCS Hfr) as HfrC.
    unfold frequent in HfrC. congruence.
Qed.

(** C1, amended: nothing checks the configuration.  With no basket at all,
    whatever [min_supp] and [min_conf] are, inside (0, 1] or not, the run
    returns normally and leaves the object as [__init__] built it: no
    candidate, no frequent itemset, no support, no rule. *)
Theorem empty_baskets_accepted (ms mc : float) (fuel : nat) :
  apriori (S fuel) (__init__ ([] : list (gset Item)) ms mc)
  = Some (Ok (__init__ [] ms mc)).
Proof.
  unfold apriori. cbn [level_loop]. rewrite gen_cands_0.
  assert (new_cand_level (singletons (baskets (__init__ [] ms mc)))
            (__init__ ([] : list (gset Item)) ms mc)
          = __init__ [] ms mc) as ->.
  { unfold new_cand_level. rewrite bool_decide_false; [done|].
    intros Hne. by apply Hne. }
  by rewrite bool_decide_true by (simpl; lia).
Qed.

End Properties.

(** ** Runs on concrete inputs *)

Lemma returns_returned {Item} `{Countable Item}
    (r : option (outcome (@Apriori Item _ _))) (d : Apriori) :
  returns r = true → r = Some (Ok (returned r d)).
Proof. destruct r as [[?|?]|]; simpl; congruence. Qed.

(** Closed goals about a run are settled by evaluation; a conjunction is
    split first, so that each part is evaluated on its own. *)
Ltac by_evaluation :=
  lazymatch goal with
  | |- _ ∧ _ => split; [compute_done | by_evaluation]
  | |- _ => compute_done
  end.

Ltac run_of r :=
  exists (returned r (__init__ [] f0_0 f0_0));
  split; [apply returns_returned; vm_compute; reflexivity|].

Lemma lookup_twice_not_NoDup {A} (l : list A) (i j : nat) (x : A) :
  l !! i = Some x → l !! j = Some x → i ≠ j → ¬ NoDup l.
Proof.
  intros Hi Hj Hij Hnd. apply Hij. exact (NoDup_lookup l i j x Hnd Hi Hj).
Qed.

(** C9: on the single basket {1,2,3,4} with both thresholds 0.5 the run
    returns normally and its rule list holds the rule {1} -> {2,3,4} with
    confidence 1.0 three times: the consequent {2,3,4} is reached as the
    union of three different pairs of kept consequents of size 2, and each
    occurrence is checked and appended on its own.  The rule list has 58
    entries, of which 50 are distinct. *)
Theorem rule_list_repeats_a_rule :
  ∃ self : Apriori,
    apriori 5 (__init__ [ {[1; 2; 3; 4]} ] f0_5 f0_5) = Some (Ok self)
    ∧ length (filter (λ r, r = ({[1]}, {[2; 3; 4]}, f1_0)) (rule_list self))
      = 3%nat
    ∧ length (rule_list self) = 58%nat
    ∧ length (remove_dups (rule_list self)) = 50%nat
    ∧ ¬ NoDup (rule_list self).
Proof.
  run_of (apriori 5 (__init__ [ {[1; 2; 3; 4]} ] f0_5 f0_5)).
  do 3 (split; [compute_done|]).
  apply (lookup_twice_not_NoDup _ 46 48 ({[1]}, {[2; 3; 4]}, f1_0));
    [compute_done | compute_done | lia].
Qed.

(** C1, as the specification states it, fails: an empty basket collection
    with thresholds 0.5 is an invalid configuration, and so is the basket
    {1} with min_supp = 2.0, yet both runs return normally. *)
Lemma invalid_configuration_accepted :
  invalid_configuration ([] : list (gset Z)) f0_5 f0_5
  ∧ apriori 1 (__init__ ([] : list (gset Z)) f0_5 f0_5)
    = Some (Ok (__init__ [] f0_5 f0_5))
  ∧ invalid_configuration [ ({[1]} : gset Z) ] f2_0 f0_5
  ∧ ∃ self : Apriori,
      apriori 1 (__init__ [ ({[1]} : gset Z) ] f2_0 f0_5) = Some (Ok self)
      ∧ freq_list self = [] ∧ rule_list self = [].
Proof.
  split; [right; right; reflexivity|].
  split; [compute_done|].
  split; [left; compute_done|].
  run_of (apriori 1 (__init__ [ ({[1]} : gset Z) ] f2_0 f0_5)).
  by_evaluation.
Qed.

(** C4, as the specification states it, fails: on the scenario the run
    records no rule with antecedent {1} and consequent {2}, whatever the
    confidence. *)
Lemma scenario_has_no_rule_1_2 :
  ∃ self : Apriori,
    apriori 3 (__init__ scenario f0_6 f0_75) = Some (Ok self)
    ∧ ∀ conf, ({[1]}, {[2]}, conf) ∉ rule_list self.
Proof.
  run_of (apriori 3 (__init__ scenario f0_6 f0_75)).
  intros conf.
  replace (rule_list _) with ([] : list (gset Z * gset Z * float))
    by compute_done.
  apply not_elem_of_nil.
Qed.

(** C4, amended: on the scenario with min_supp = 0.6 and min_conf = 0.75
    the run returns normally; the frequent itemsets are {1}, {2}, {3} with
    support 0.8 and {1,2}, {1,3}, {2,3} with support 0.6, and nothing else:
    {1,2,3} is a candidate of support 2/5 = 0.4, below 0.6.  The confidence
    of each rule between two items is 0.6 / 0.8, which in double arithmetic
    is 0.7499999999999999, below 0.75: the rule list is empty. *)
Theorem scenario_run :
  ∃ self : Apriori,
    apriori 3 (__init__ scenario f0_6 f0_75) = Some (Ok self)
    ∧ supp_dict self
      = {[ {[1]} := f0_8; {[2]} := f0_8; {[3]} := f0_8;
           {[1; 2]} := f0_6; {[1; 3]} := f0_6; {[2; 3]} := f0_6 ]}
    ∧ (list_to_set <$> freq_list self : list (gset (gset Z)))
      = [ {[ {[1]}; {[2]}; {[3]} ]}; {[ {[1; 2]}; {[1; 3]}; {[2; 3]} ]} ]
    ∧ cand_list self !! 2%nat = Some {[ {[1; 2; 3]} ]}
    ∧ int_truediv 2 5 = Ok f0_4
    ∧ float_ge f0_4 f0_6 = false
    ∧ float_truediv f0_6 f0_8 = Ok f0_75_pred
    ∧ float_ge f0_75_pred f0_75 = false
    ∧ rule_list self = [].
Proof.
  run_of (apriori 3 (__init__ scenario f0_6 f0_75)).
  by_evaluation.
Qed.

(** ** Instances of the theorems above *)

Lemma scenario_returns : scenario_result = Some (Ok scenario_self).
Proof. apply returns_returned. vm_compute. reflexivity. Qed.

Lemma four_items_returns : four_items_result = Some (Ok four_items_self).
Proof. apply returns_returned. vm_compute. reflexivity. Qed.

Lemma lenient_returns : lenient_result = Some (Ok lenient_self).
Proof. apply returns_returned. vm_compute. reflexivity. Qed.

(** [gen_cands] at [k = 0] on the scenario, at [k = 1] on the frequent
    items of the scenario, and at [k = 0] without baskets. *)
Lemma gen_cands_candidates_witness :
  (input_level 0 (__init__ scenario f0_6 f0_75) scenario
   ∧ ∃ self',
       gen_cands 0 (__init__ scenario f0_6 f0_75) = Ok self'
       ∧ cand_list self' = [ {[ {[1]}; {[2]}; {[3]} ]} ]
       ∧ freq_list self' = [])
  ∧ (input_level 1 scenario_freqs1 [ {[1]}; {[2]}; {[3]} ]
     ∧ ∃ self',
         gen_cands 1 scenario_freqs1 = Ok self'
         ∧ cand_list self'
           = [ {[ {[1]}; {[2]}; {[3]} ]};
               {[ {[1; 2]}; {[1; 3]}; {[2; 3]} ]} ]
         ∧ freq_list self' = [ [ {[1]}; {[2]}; {[3]} ] ])
  ∧ (input_level 0 (__init__ ([] : list (gset Z)) f0_6 f0_75) []
     ∧ gen_cands 0 (__init__ ([] : list (gset Z)) f0_6 f0_75)
       = Ok (__init__ [] f0_6 f0_75)).
Proof.
  assert (input_level 0 (__init__ scenario f0_6 f0_75) scenario) as Hlevel0
    by reflexivity.
  assert (input_level 1 scenario_freqs1 [ {[1]}; {[2]}; {[3]} ]) as Hlevel1.
  { split; [compute_done|]. intros a Ha.
    repeat (apply elem_of_cons in Ha as [->|Ha]); try compute_done.
    by apply elem_of_nil in Ha. }
  assert (input_level 0 (__init__ ([] : list (gset Z)) f0_6 f0_75) [])
    as Hnone by reflexivity.
  split; [split; [exact Hlevel0|]|split; [split; [exact Hlevel1|]|
    split; [exact Hnone|]]].
  - destruct (gen_cands_candidates 0 _ scenario Hlevel0)
      as (self' & cands & Hrun & Hcl & -> & _ & _ & _ & _ & _ & _ & Hfl & _).
    exists self'. split; [exact Hrun|].
    rewrite Hcl, Hfl. split; compute_done.
  - destruct (gen_cands_candidates 1 _ _ Hlevel1)
      as (self' & cands & Hrun & Hcl & -> & _ & _ & _ & _ & _ & _ & Hfl & _).
    exists self'. split; [exact Hrun|].
    rewrite Hcl, Hfl. split; compute_done.
  - destruct (gen_cands_candidates 0 _ [] Hnone)
      as (self' & cands & Hrun & _ & _ & _ & Hnil & _).
    destruct (Hnil eq_refl) as [_ ->]. exact Hrun.
Defined.

(** [gen_freqs 2] on the scenario: each pair of items is in three baskets
    of five, and 3 / 5 as a double is [min_supp = 0.6] itself. *)
Lemma gen_freqs_keeps_frequent_witness :
  cand_list scenario_level1 !! 1%nat
  = Some {[ {[1; 2]}; {[1; 3]}; {[2; 3]} ]}
  ∧ n_baskets scenario_level1 = Z.of_nat (length (baskets scenario_level1))
  ∧ baskets scenario_level1 ≠ []
  ∧ count (baskets scenario_level1) {[1; 2]} = 3
  ∧ Z.of_nat (length (baskets scenario_level1)) = 5
  ∧ SFeqb f0_6 (min_supp scenario_level1) = true
  ∧ ∃ self' (kept : list (gset Z)),
      gen_freqs 2 scenario_level1 = Ok self'
      ∧ freq_list self' = freq_list scenario_level1 ++ [kept]
      ∧ NoDup kept
      ∧ (∀ c, c ∈ kept ↔ c ∈ ({[ {[1; 2]}; {[1; 3]}; {[2; 3]} ]}
                                : gset (gset Z)))
      ∧ {[1; 2]} ∈ kept
      ∧ supp_dict self' !! ({[1; 2]} : gset Z) = Some f0_6
      ∧ rounds_to 3 5 f0_6
      ∧ supp_dict self' !! ({[1; 2; 3]} : gset Z) = None.
Proof.
  assert (cand_list scenario_level1 !! 1%nat
          = Some {[ {[1; 2]}; {[1; 3]}; {[2; 3]} ]}) as Hcands
    by compute_done.
  assert (n_baskets scenario_level1
          = Z.of_nat (length (baskets scenario_level1))) as Hn
    by compute_done.
  assert (baskets scenario_level1 ≠ []) as Hne by compute_done.
  assert (count (baskets scenario_level1) {[1; 2]} = 3) as Hcount
    by compute_done.
  assert (Z.of_nat (length (baskets scenario_level1)) = 5) as Hlen
    by compute_done.
  assert (support (baskets scenario_level1) {[1; 2]} = f0_6) as Hsupp
    by compute_done.
  assert (SFeqb f0_6 (min_supp scenario_level1) = true) as Heq
    by compute_done.
  assert (∀ c : gset Z,
            c ∈ ({[ {[1; 2]}; {[1; 3]}; {[2; 3]} ]} : gset (gset Z)) →
            float_ge (support (baskets scenario_level1) c)
              (min_supp scenario_level1) = true) as Hall.
  { intros c Hc. repeat (apply elem_of_union in Hc as [Hc|Hc]);
      apply elem_of_singleton in Hc; rewrite Hc; compute_done. }
  assert (supp_dict scenario_level1 !! ({[1; 2; 3]} : gset Z) = None)
    as Hnone by compute_done.
  assert (({[1; 2; 3]} : gset Z)
          ∉ ({[ {[1; 2]}; {[1; 3]}; {[2; 3]} ]} : gset (gset Z))) as Hout
    by compute_done.
  split; [exact Hcands|]. split; [exact Hn|]. split; [exact Hne|].
  split; [exact Hcount|]. split; [exact Hlen|]. split; [exact Heq|].
  destruct (gen_freqs_keeps_frequent scenario_level1 1 _ Hcands Hn Hne)
    as (self' & kept & Hrun & Hfl & Hnd & _ & Hround & Hkept & Hbound
        & Hbelow & Hbind & Hrest).
  assert ({[1; 2]} ∈ kept) as Hin.
  { apply Hkept. split; [|apply Hall]; apply elem_of_union; left;
      apply elem_of_union; left; apply elem_of_singleton; reflexivity. }
  exists self', kept. split; [exact Hrun|]. split.
  { rewrite Hfl. destruct (decide (kept = [])) as [Hnil|_]; [|reflexivity].
    rewrite Hnil in Hin. apply elem_of_nil in Hin. destruct Hin. }
  split; [exact Hnd|]. split.
  { intros c. split.
    - intros Hc. apply Hkept in Hc. exact (proj1 Hc).
    - intros Hc. apply Hkept. split; [exact Hc|exact (Hall c Hc)]. }
  split; [exact Hin|]. split.
  { rewrite (Hbind _ Hin), Hsupp. reflexivity. }
  split.
  { pose proof (Hround {[1; 2]}) as Hr.
    rewrite Hcount, Hlen, Hsupp in Hr. exact Hr. }
  rewrite Hrest; [exact Hnone|].
  intros Hc. apply Hkept in Hc. exact (Hout (proj1 Hc)).
Defined.

(** The rule {1} -> {2} of the scenario with [min_conf = 0.5]: its
    confidence is 0.6 / 0.8, in doubles 0.7499999999999999. *)
Lemma rules_are_sound_witness :
  apriori 3 (__init__ scenario f0_6 f0_5) = Some (Ok lenient_self)
  ∧ ({[1]}, {[2]}, f0_75_pred) ∈ rule_list lenient_self
  ∧ ∃ (i : nat) level (freq : gset Z) supp_freq supp_ante,
      freq_list lenient_self !! i = Some level ∧ freq ∈ level
      ∧ {[2]} ⊆ freq ∧ ({[2]} : gset Z) ≠ ∅ ∧ {[2]} ≠ freq
      ∧ {[1]} = freq ∖ {[2]} ∧ ({[1]} : gset Z) ≠ ∅
      ∧ ({[1]} : gset Z) ## {[2]}
      ∧ {[1]} ∪ {[2]} = freq
      ∧ supp_dict lenient_self !! freq = Some supp_freq
      ∧ supp_dict lenient_self !! ({[1]} : gset Z) = Some supp_ante
      ∧ float_is_zero supp_ante = false
      ∧ f0_75_pred = SFdiv prec emax supp_freq supp_ante
      ∧ float_ge f0_75_pred (min_conf lenient_self) = true
      ∧ min_conf lenient_self = f0_5
      ∧ supp_freq = f0_6 ∧ supp_ante = f0_8.
Proof.
  assert (({[1]}, {[2]}, f0_75_pred) ∈ rule_list lenient_self) as Hrule
    by compute_done.
  assert (supp_dict lenient_self !! ({[1]} ∪ {[2]} : gset Z) = Some f0_6)
    as Hv by compute_done.
  assert (supp_dict lenient_self !! ({[1]} : gset Z) = Some f0_8)
    as Hw by compute_done.
  split; [exact lenient_returns|]. split; [exact Hrule|].
  destruct (rules_are_sound scenario f0_6 f0_5 3 lenient_self
              {[1]} {[2]} f0_75_pred lenient_returns Hrule)
    as (i & level & freq & supp_freq & supp_ante & Hi & Hin & Hsub & Hne
        & Hnf & Hante & Hane & Hdisj & Hun & Hsf & Hsa & Hnz & Hconf & Hge
        & Hmc).
  exists i, level, freq, supp_freq, supp_ante.
  split; [exact Hi|]. split; [exact Hin|]. split; [exact Hsub|].
  split; [exact Hne|]. split; [exact Hnf|]. split; [exact Hante|].
  split; [exact Hane|]. split; [exact Hdisj|]. split; [exact Hun|].
  split; [exact Hsf|]. split; [exact Hsa|]. split; [exact Hnz|].
  split; [exact Hconf|]. split; [exact Hge|]. split; [exact Hmc|].
  split.
  - rewrite <- Hun, Hv in Hsf. injection Hsf as <-. reflexivity.
  - rewrite Hw in Hsa. injection Hsa as <-. reflexivity.
Defined.

Lemma support_is_antimonotone_witness :
  apriori 3 (__init__ scenario f0_6 f0_75) = Some (Ok scenario_self)
  ∧ (∀ (A B : gset Z) supp_A supp_B,
       A ⊆ B →
       supp_dict scenario_self !! A = Some supp_A →
       supp_dict scenario_self !! B = Some supp_B →
       float_ge supp_A supp_B = true)
  ∧ (∀ (t : nat) cands (C : gset Z),
       cand_list scenario_self !! t = Some cands → C ∈ cands →
       (float_ge (support scenario C) f0_6 = false
        ↔ C ∉ concat (freq_list scenario_self))
       ∧ (C ∉ concat (freq_list scenario_self) →
          ∀ S, C ⊆ S → S ∉ concat (freq_list scenario_self))).
Proof.
  split; [exact scenario_returns|].
  exact (support_is_antimonotone scenario f0_6 f0_75 3 scenario_self
           scenario_returns).
Defined.

Lemma dictionaries_bound_once_witness :
  apriori 3 (__init__ scenario f0_6 f0_75) = Some (Ok scenario_self)
  ∧ NoDup (supp_bound scenario_self) ∧ NoDup (conseq_bound scenario_self)
  ∧ dom (supp_dict scenario_self) = list_to_set (supp_bound scenario_self)
  ∧ dom (conseq_dict scenario_self)
    = list_to_set (conseq_bound scenario_self)
  ∧ ∀ key, key ∈ supp_bound scenario_self →
      supp_dict scenario_self !! key = Some (support scenario key).
Proof.
  split; [exact scenario_returns|].
  exact (dictionaries_bound_once scenario f0_6 f0_75 3 scenario_self
           scenario_returns).
Defined.

Lemma check_rule_never_raises_witness :
  scenario ≠ [] ∧ SFltb f0_0 f0_6 = true
  ∧ apriori 3 (__init__ scenario f0_6 f0_75) = Some (Ok scenario_self)
  ∧ ∃ start self,
      level_loop 3 0 (__init__ scenario f0_6 f0_75) = Some (Ok start)
      ∧ Ok scenario_self = Ok self
      ∧ freq_list self = freq_list start
      ∧ supp_dict self = supp_dict start
      ∧ ∀ (i : nat) level (freq ante : gset Z),
          freq_list start !! i = Some level → freq ∈ level →
          ante ⊆ freq → ante ≠ ∅ →
          ∃ v, supp_dict start !! ante = Some v
               ∧ float_is_zero v = false ∧ SFltb f0_0 v = true
               ∧ ∀ x, float_truediv x v = Ok (SFdiv prec emax x v).
Proof.
  assert (scenario ≠ []) as Hne by discriminate.
  assert (SFltb f0_0 f0_6 = true) as Hpos by reflexivity.
  split; [exact Hne|]. split; [exact Hpos|].
  split; [exact scenario_returns|].
  exact (check_rule_never_raises scenario f0_6 f0_75 3 (Ok scenario_self)
           Hne Hpos scenario_returns).
Defined.

(** ** Doubles: the quotient of two supports *)

Lemma located_scale (X D m c : Z) (l : location) :
  0 < c → located X D m l → located (X * c) (D * c) m l.
Proof.
  intros Hc [HX ->]. split; [nia|].
  replace (X * c - m * (D * c)) with ((X - m * D) * c) by ring.
  destruct (Z.eqb_spec (X - m * D) 0) as [->|Hne].
  - by rewrite Z.mul_0_l.
  - destruct (Z.eqb_spec ((X - m * D) * c) 0) as [Hz|_]; [nia|].
    f_equal. set (r := X - m * D).
    destruct (Z.compare_spec (2 * (r * c)) (D * c)),
      (Z.compare_spec (2 * r) D); try done; exfalso; nia.
Qed.

Lemma small_double_digits (M : positive) (E : Z) :
  small_double M E →
  0 < Z.pos (digits2_pos M) ≤ 53 ∧ (-1074 < E → Z.pos (digits2_pos M) = 53).
Proof.
  intros (HE & HM & Hnorm). pose proof (digits2_pos_bounds M) as Hd.
  set (d := Z.pos (digits2_pos M)) in *.
  assert (0 < d) as Hpos by done.
  assert (d ≤ 53) as Hle.
  { destruct (Z.le_gt_cases d 53) as [?|Hgt]; [done|].
    assert (2 ^ 53 ≤ 2 ^ (d - 1)) by (apply Z.pow_le_mono_r; lia). lia. }
  split; [done|]. intros HE'. specialize (Hnorm HE').
  destruct (Z.le_gt_cases 53 d) as [?|Hlt]; [lia|].
  assert (2 ^ d ≤ 2 ^ 52) by (apply Z.pow_le_mono_r; lia). lia.
Qed.

(** The order of two small doubles is that of their values. *)
Lemma float_ge_scaled (Mx My : positive) (Ex Ey : Z) :
  small_double Mx Ex → small_double My Ey →
  float_ge (S754_finite false My Ey) (S754_finite false Mx Ex) = true →
  scaled Mx Ex ≤ scaled My Ey
  ∧ (scaled Mx Ex = scaled My Ey → Mx = My ∧ Ex = Ey).
Proof.
  intros (HEx & HMx & Hnx) (HEy & HMy & Hny). unfold float_ge, scaled.
  cbn [SFcompare]. rewrite Pos.compare_cont_spec. cbn [Pos.switch_Eq].
  assert (0 < 2 ^ (Ex + 1074)) as Hpx by (apply Z.pow_pos_nonneg; lia).
  destruct (Z.compare_spec Ey Ex) as [->|Hlt|Hgt]; [|done|].
  - destruct (Pos.compare_spec My Mx) as [->|Hlt|Hgt]; [done|done|].
    intros _. split; [nia|]. intros Heq. exfalso. nia.
  - intros _. specialize (Hny ltac:(lia)).
    assert (2 ^ (Ex + 1075) ≤ 2 ^ (Ey + 1074)) as Hpow
      by (apply Z.pow_le_mono_r; lia).
    assert (2 ^ (Ex + 1075) = 2 * 2 ^ (Ex + 1074)) as Hp.
    { replace (Ex + 1075) with (Z.succ (Ex + 1074)) by lia.
      by rewrite Z.pow_succ_r by lia. }
    assert (Z.pos Mx * 2 ^ (Ex + 1074) < 2 ^ 53 * 2 ^ (Ex + 1074))
      by (apply Z.mul_lt_mono_pos_r; lia).
    assert (2 ^ 52 * 2 ^ (Ey + 1074) ≤ Z.pos My * 2 ^ (Ey + 1074))
      by (apply Z.mul_le_mono_nonneg_r; lia).
    assert (2 ^ 52 * 2 ^ (Ex + 1075) ≤ 2 ^ 52 * 2 ^ (Ey + 1074))
      by (apply Z.mul_le_mono_nonneg_l; lia).
    split; [lia|]. intros Heq. exfalso. lia.
Qed.

(** The quotient of a small double by one that is not below it is rounded
    to the nearest double. *)
Lemma float_div_rounds (Mx My : positive) (Ex Ey : Z) :
  small_double Mx Ex → small_double My Ey →
  float_ge (S754_finite false My Ey) (S754_finite false Mx Ex) = true →
  rounds_to (scaled Mx Ex) (scaled My Ey)
    (SFdiv prec emax (S754_finite false Mx Ex) (S754_finite false My Ey)).
Proof.
  intros Hx Hy Hge.
  destruct (small_double_digits Mx Ex Hx) as [Hdx Hdx'].
  destruct (small_double_digits My Ey Hy) as [Hdy Hdy'].
  pose proof (digits2_pos_bounds Mx) as Hbx.
  pose proof (digits2_pos_bounds My) as Hby.
  destruct Hx as (HEx & HMx & Hnx), Hy as (HEy & HMy & Hny).
  cbn [SFdiv xorb]. unfold SFdiv_core_binary. cbn [Zdigits2].
  set (dx := Z.pos (digits2_pos Mx)) in *.
  set (dy := Z.pos (digits2_pos My)) in *.
  assert (dx + Ex ≤ dy + Ey) as Hd.
  { revert Hge. unfold float_ge. cbn [SFcompare].
    rewrite Pos.compare_cont_spec. cbn [Pos.switch_Eq].
    destruct (Z.compare_spec Ey Ex) as [->|Hlt|Hgt]; [|done|].
    - destruct (Pos.compare_spec My Mx) as [->|Hlt|Hgt]; [lia|done|].
      intros _. destruct (Z.le_gt_cases dx dy) as [?|Hgt']; [lia|].
      assert (2 ^ dy ≤ 2 ^ (dx - 1)) by (apply Z.pow_le_mono_r; lia). lia.
    - intros _. specialize (Hdy' ltac:(lia)). lia. }
  rewrite fexp_double.
  set (s0 := Z.min (53 + dy + Ey - dx - Ex) 1074).
  replace (Z.min (Z.max (dx + Ex - (dy + Ey) - 53) (-1074)) (Ex - Ey))
    with (- s0) by (unfold s0; lia).
  assert (53 ≤ s0 ≤ 1074) as Hs0 by (unfold s0; lia).
  set (s := Ex - Ey - - s0).
  assert (0 ≤ s ≤ 53 + dy - dx) as Hs by (unfold s, s0; lia).
  assert (0 < 2 ^ s) as Hpow by (apply Z.pow_pos_nonneg; lia).
  assert (match s with
          | 0 => Z.pos Mx
          | Z.pos _ => Z.shiftl (Z.pos Mx) s
          | Z.neg _ => 0
          end = Z.pos Mx * 2 ^ s) as ->.
  { destruct s as [|ps|ps] eqn:Hseq; [simpl; lia| |lia].
    by rewrite Z.shiftl_mul_pow2. }
  set (N := Z.pos Mx * 2 ^ s).
  assert (N < 2 ^ 54 * Z.pos My) as HNhi.
  { assert (2 ^ dx * 2 ^ s ≤ 2 ^ 54 * 2 ^ (dy - 1)) as H2.
    { rewrite <- !Z.pow_add_r by lia. apply Z.pow_le_mono_r; lia. }
    assert (Z.pos Mx * 2 ^ s < 2 ^ dx * 2 ^ s)
      by (apply Z.mul_lt_mono_pos_r; lia).
    assert (2 ^ 54 * 2 ^ (dy - 1) ≤ 2 ^ 54 * Z.pos My)
      by (apply Z.mul_le_mono_nonneg_l; lia).
    unfold N. lia. }
  assert (Z.div_eucl N (Z.pos My) = (N / Z.pos My, N mod Z.pos My)) as ->.
  { unfold Z.div, Z.modulo. by destruct (Z.div_eucl N (Z.pos My)). }
  set (q := N / Z.pos My).
  assert (0 ≤ N) as HN0 by (unfold N; lia).
  assert (0 ≤ q < 2 ^ 54) as Hq.
  { split; [apply Z.div_pos; lia|apply Z.div_lt_upper_bound; lia]. }
  pose proof (located_div N (Z.pos My)) as Hloc.
  fold q in Hloc. specialize (Hloc ltac:(lia) ltac:(lia)).
  assert (s0 = 1074 ∨ 2 ^ 52 ≤ q) as Hcase.
  { destruct (Z.eq_dec s0 1074) as [?|Hne]; [by left|right].
    assert (s = 53 + dy - dx) as Hs' by (unfold s, s0 in *; lia).
    assert (2 ^ (dx - 1) * 2 ^ s = 2 ^ 52 * 2 ^ dy) as H1.
    { rewrite <- !Z.pow_add_r by lia. f_equal. lia. }
    assert (2 ^ (dx - 1) * 2 ^ s ≤ Z.pos Mx * 2 ^ s)
      by (apply Z.mul_le_mono_nonneg_r; lia).
    assert (2 ^ 52 * Z.pos My ≤ 2 ^ 52 * 2 ^ dy)
      by (apply Z.mul_le_mono_nonneg_l; lia).
    apply Z.div_le_lower_bound; [lia|]. unfold N. lia. }
  set (c := 2 ^ (Ey + 1074)).
  assert (0 < c) as Hc by (apply Z.pow_pos_nonneg; lia).
  assert (scaled Mx Ex * 2 ^ s0 = N * c) as Hscale.
  { unfold scaled, N, c. rewrite <- !Z.mul_assoc, <- !Z.pow_add_r by lia.
    f_equal. f_equal. unfold s. lia. }
  assert (0 < scaled My Ey) as Hn by (unfold scaled; fold c; lia).
  assert (0 ≤ scaled Mx Ex) as Ha.
  { unfold scaled.
    assert (0 < 2 ^ (Ex + 1074)) by (apply Z.pow_pos_nonneg; lia). lia. }
  assert (located (scaled Mx Ex * 2 ^ s0) (scaled My Ey) q
            (new_location (Z.pos My) (N mod Z.pos My))) as Hloc'.
  { rewrite Hscale. unfold scaled at 1. fold c. by apply located_scale. }
  clearbody q N s.
  destruct (Z.lt_ge_cases q (2 ^ 53)) as [Hlt|Hge'].
  - assert (fits q (- s0)) as Hfits by (unfold fits; lia).
    rewrite binary_round_aux_fits by done.
    apply round_at_rounds; try done; try lia.
    by rewrite Z.opp_involutive.
  - rewrite binary_round_aux_shift by lia.
    apply round_at_rounds; try lia.
    + unfold fits.
      assert (2 ^ 52 ≤ q / 2 < 2 ^ 53); [clear - Hq Hge'|lia].
      split; [apply Z.div_le_lower_bound; lia|
              apply Z.div_lt_upper_bound; lia].
    + apply located_shift; try lia.
      replace (2 * (scaled Mx Ex * 2 ^ (- (- s0 + 1))))
        with (scaled Mx Ex * 2 ^ s0); [done|].
      replace s0 with (Z.succ (- (- s0 + 1))) at 1 by lia.
      rewrite Z.pow_succ_r by lia. lia.
Qed.

Lemma rounds_to_cases (a n : Z) (x : float) :
  rounds_to a n x →
  x = S754_zero false ∨ ∃ M E, x = S754_finite false M E ∧ small_double M E.
Proof.
  intros [[-> _]|(M & E & -> & ? & ? & ? & _)]; [by left|right].
  by exists M, E.
Qed.

(** Rounding to the nearest double keeps the order of two quotients that
    differ. *)
Lemma rounds_to_lt_mono (a n b m : Z) (x y : float) :
  0 < n → 0 < m → 0 ≤ a → 0 ≤ b → a * m < b * n →
  rounds_to a n x → rounds_to b m y → float_ge y x = true.
Proof.
  intros Hn Hm Ha Hb Hlt Hx Hy.
  assert (0 < 2 ^ 1075) as Hbig by (by apply Z.pow_pos_nonneg).
  assert (0 < n * m) as Hnm by lia.
  destruct Hx as [[-> Hza]|(Ma & Ea & -> & HEa & HMa & HNa & Hba & Hsa)].
  { by destruct Hy as [[-> _]|(Mb & Eb & -> & _)]. }
  destruct Hy as [[-> Hzb]|(Mb & Eb & -> & HEb & HMb & HNb & Hbb & Hsb)].
  { (* [b / m] rounds to zero, [a / n] does not *)
    exfalso. destruct Hba as [Hlo _].
    assert (a * 2 ^ (1 - Ea) ≤ a * 2 ^ 1075).
    { apply Z.mul_le_mono_nonneg_l; [lia|]. apply Z.pow_le_mono_r; lia. }
    assert ((2 * Z.pos Ma - 1) * n * m ≤ a * 2 ^ (1 - Ea) * m)
      by (apply Z.mul_le_mono_nonneg_r; lia).
    assert (a * 2 ^ (1 - Ea) * m ≤ a * 2 ^ 1075 * m)
      by (apply Z.mul_le_mono_nonneg_r; lia).
    assert (a * m * 2 ^ 1075 < b * n * 2 ^ 1075)
      by (apply Z.mul_lt_mono_pos_r; lia).
    assert (b * 2 ^ 1075 * n ≤ m * n)
      by (apply Z.mul_le_mono_nonneg_r; lia).
    assert (1 * (n * m) ≤ (2 * Z.pos Ma - 1) * (n * m))
      by (apply Z.mul_le_mono_nonneg_r; lia).
    lia. }
  unfold float_ge. cbn [SFcompare].
  rewrite Pos.compare_cont_spec. cbn [Pos.switch_Eq].
  destruct Hba as [Hlo _], Hbb as [_ Hhi].
  assert (Eb < Ea → False) as Hexp.
  { intros HE.
    assert (0 < 2 ^ (1 - Eb)) by (apply Z.pow_pos_nonneg; lia).
    assert (2 ^ (2 - Ea) ≤ 2 ^ (1 - Eb)) by (apply Z.pow_le_mono_r; lia).
    assert (2 ^ (2 - Ea) = 2 * 2 ^ (1 - Ea)) as Hp.
    { replace (2 - Ea) with (Z.succ (1 - Ea)) by lia.
      by rewrite Z.pow_succ_r by lia. }
    assert ((2 ^ 54 - 1) * n ≤ a * 2 ^ (2 - Ea)) as Hlow.
    { destruct (Z.eq_dec (Z.pos Ma) (2 ^ 52)) as [Heq|Hneq].
      - specialize (Hsa Heq ltac:(lia)). rewrite Heq in Hsa. lia.
      - rewrite Hp.
        assert ((2 ^ 53 + 1) * n ≤ (2 * Z.pos Ma - 1) * n)
          by (apply Z.mul_le_mono_nonneg_r; lia).
        lia. }
    assert ((2 * Z.pos Mb + 1) * m ≤ (2 ^ 54 - 1) * m)
      by (apply Z.mul_le_mono_nonneg_r; lia).
    assert ((2 ^ 54 - 1) * n * m ≤ a * 2 ^ (2 - Ea) * m)
      by (apply Z.mul_le_mono_nonneg_r; lia).
    assert (a * m * 2 ^ (2 - Ea) ≤ a * m * 2 ^ (1 - Eb))
      by (apply Z.mul_le_mono_nonneg_l; lia).
    assert (a * m * 2 ^ (1 - Eb) < b * n * 2 ^ (1 - Eb))
      by (apply Z.mul_lt_mono_pos_r; lia).
    assert (b * 2 ^ (1 - Eb) * n ≤ (2 ^ 54 - 1) * m * n)
      by (apply Z.mul_le_mono_nonneg_r; lia).
    lia. }
  destruct (Z.compare_spec Eb Ea) as [Heq|HltE|HgtE]; [|lia|done].
  subst Ea. destruct (Pos.compare_spec Mb Ma) as [?|HltM|?]; try done.
  exfalso. assert (0 < 2 ^ (1 - Eb)) by (apply Z.pow_pos_nonneg; lia).
  assert ((2 * Z.pos Ma - 1) * n * m ≤ a * 2 ^ (1 - Eb) * m)
    by (apply Z.mul_le_mono_nonneg_r; lia).
  assert (a * m * 2 ^ (1 - Eb) < b * n * 2 ^ (1 - Eb))
    by (apply Z.mul_lt_mono_pos_r; lia).
  assert (b * 2 ^ (1 - Eb) * n ≤ (2 * Z.pos Mb + 1) * m * n)
    by (apply Z.mul_le_mono_nonneg_r; lia).
  assert ((2 * Z.pos Mb + 1) * (n * m) ≤ (2 * Z.pos Ma - 1) * (n * m))
    by (apply Z.mul_le_mono_nonneg_r; lia).
  lia.
Qed.

(** A quotient that is at most one is rounded to at most [1.0]. *)
Lemma rounds_to_le_one (a n : Z) (x : float) :
  0 < n → a ≤ n → rounds_to a n x → float_ge f1_0 x = true.
Proof.
  intros Hn Han [[-> _]|(M & E & -> & HE & HM & Hnorm & [Hlo _] & _)];
    [done|].
  assert (2 ^ (1 - E) = 2 * 2 ^ (- E)) as Hp.
  { replace (1 - E) with (Z.succ (- E)) by lia.
    by rewrite Z.pow_succ_r by lia. }
  assert (0 < 2 ^ (- E)) as Hpos by (apply Z.pow_pos_nonneg; lia).
  assert (Z.pos M ≤ 2 ^ (- E)) as HMP.
  { assert (a * 2 ^ (1 - E) ≤ n * 2 ^ (1 - E))
      by (apply Z.mul_le_mono_nonneg_r; lia).
    assert (2 * Z.pos M - 1 ≤ 2 ^ (1 - E)).
    { apply (Z.mul_le_mono_pos_r _ _ n); lia. }
    lia. }
  unfold float_ge, f1_0. cbn [SFcompare].
  rewrite Pos.compare_cont_spec. cbn [Pos.switch_Eq].
  destruct (Z.compare_spec (-52) E) as [<-|Hlt|Hgt]; [| |done].
  - destruct (Pos.compare_spec 4503599627370496 M) as [?|HltM|?]; try done.
    exfalso. change (2 ^ (- -52)) with (Z.pos 4503599627370496) in HMP. lia.
  - exfalso. specialize (Hnorm ltac:(lia)).
    assert (2 ^ (- E) < 2 ^ 52) by (apply Z.pow_lt_mono_r; lia). lia.
Qed.

Lemma float_ge_refl_rounded (a n : Z) (x : float) :
  rounds_to a n x → float_ge x x = true.
Proof.
  intros [[-> _]|(M & E & -> & _)]; [done|apply float_ge_refl_finite].
Qed.

(** The quotient of two counts over the same number of baskets is a small
    double when it is not zero. *)
Lemma int_div_small (a n : Z) :
  1 ≤ a ≤ n →
  float_is_zero (SFdiv prec emax (float_of_int a) (float_of_int n)) = false →
  ∃ M E, SFdiv prec emax (float_of_int a) (float_of_int n)
         = S754_finite false M E ∧ small_double M E.
Proof.
  intros Ha Hnz.
  destruct (rounds_to_cases _ _ _ (int_div_rounds a n Ha)) as [Hz|Hfin];
    [|done].
  by rewrite Hz in Hnz.
Qed.

(** Dividing a support by the support of a larger antecedent count gives
    no more: [x / y' >= x / y] when [x <= y' <= y] are quotients of counts
    by the same number of baskets, and [x] is not zero. *)
Lemma int_quot_div_anti (a b' b n : Z) :
  1 ≤ a → a ≤ b' → b' ≤ b → b ≤ n →
  let q c := SFdiv prec emax (float_of_int c) (float_of_int n) in
  float_is_zero (q a) = false →
  float_ge (SFdiv prec emax (q a) (q b')) (SFdiv prec emax (q a) (q b)) = true
  ∧ float_ge f1_0 (SFdiv prec emax (q a) (q b)) = true
  ∧ float_ge (SFdiv prec emax (q a) (q b)) f0_0 = true.
Proof.
  intros Ha Hab' Hb'b Hbn q Hnz.
  pose proof (int_div_mono a b' n ltac:(lia) ltac:(lia) ltac:(lia)) as Hge1.
  pose proof (int_div_mono b' b n ltac:(lia) ltac:(lia) ltac:(lia)) as Hge2.
  fold (q a) in Hge1. fold (q b') in Hge1, Hge2. fold (q b) in Hge2.
  pose proof (float_ge_trans _ _ _ Hge2 Hge1) as Hge3.
  destruct (int_div_small a n ltac:(lia) Hnz) as (Ma & Ea & Hqa & Hsa).
  fold (q a) in Hqa.
  assert (∀ c, 1 ≤ c ≤ n → float_ge (q c) (q a) = true →
            ∃ M E, q c = S754_finite false M E ∧ small_double M E) as Hsmall.
  { intros c Hc Hge. apply int_div_small; [done|]. fold (q c).
    rewrite Hqa in Hge. by destruct (q c). }
  destruct (Hsmall b' ltac:(lia) Hge1) as (Mb' & Eb' & Hqb' & Hsb').
  destruct (Hsmall b ltac:(lia) Hge3) as (Mb & Eb & Hqb & Hsb).
  rewrite Hqa, Hqb', Hqb in *.
  pose proof (float_div_rounds Ma Mb' Ea Eb' Hsa Hsb' Hge1) as Hr'.
  pose proof (float_div_rounds Ma Mb Ea Eb Hsa Hsb Hge3) as Hr.
  destruct (float_ge_scaled _ _ _ _ Hsa Hsb' Hge1) as [Hle1 _].
  destruct (float_ge_scaled _ _ _ _ Hsb' Hsb Hge2) as [Hle2 Heq2].
  destruct (float_ge_scaled _ _ _ _ Hsa Hsb Hge3) as [Hle3 _].
  assert (0 < scaled Ma Ea) as Hpa.
  { unfold scaled. destruct Hsa as (? & _).
    assert (0 < 2 ^ (Ea + 1074)) by (apply Z.pow_pos_nonneg; lia). lia. }
  split.
  - destruct (Z.eq_dec (scaled Mb' Eb') (scaled Mb Eb)) as [Heq|Hne].
    + destruct (Heq2 Heq) as [-> ->]. by eapply float_ge_refl_rounded.
    + assert (scaled Ma Ea * scaled Mb' Eb' < scaled Ma Ea * scaled Mb Eb)
        as Hlt by (apply Z.mul_lt_mono_pos_l; lia).
      apply (rounds_to_lt_mono (scaled Ma Ea) (scaled Mb Eb)
               (scaled Ma Ea) (scaled Mb' Eb')); try done; lia.
  - split.
    + apply (rounds_to_le_one (scaled Ma Ea) (scaled Mb Eb)); try done; lia.
    + by destruct (rounds_to_cases _ _ _ Hr) as [->|(M & E & -> & _)].
Qed.

(** The quotient of two such quotients, the first of the lesser count, is
    a NaN (zero by zero) or lies between [0.0] and [1.0]. *)
Lemma int_quot_div_range (a b n : Z) :
  0 ≤ a → a ≤ b → b ≤ n → 0 < n →
  let q c := SFdiv prec emax (float_of_int c) (float_of_int n) in
  SFdiv prec emax (q a) (q b) = S754_nan
  ∨ (float_ge (SFdiv prec emax (q a) (q b)) f0_0 = true
     ∧ float_ge f1_0 (SFdiv prec emax (q a) (q b)) = true).
Proof.
  intros Ha Hab Hbn Hn q.
  assert (∀ c, 0 ≤ c ≤ n →
            q c = S754_zero false
            ∨ ∃ M E, q c = S754_finite false M E) as Hq.
  { intros c Hc. destruct (Z.eq_dec c 0) as [->|?].
    - left. by apply int_div_zero.
    - destruct (rounds_to_cases _ _ _ (int_div_rounds c n ltac:(lia)))
        as [?|(M & E & ? & _)]; eauto. }
  destruct (float_is_zero (q a)) eqn:Hza.
  - destruct (Hq a ltac:(lia)) as [Hqa|(M & E & Hqa)];
      rewrite Hqa in Hza |- *; [|done].
    by destruct (Hq b ltac:(lia)) as [->|(M & E & ->)]; [left|right].
  - right. assert (1 ≤ a) as Ha1.
    { destruct (Z.eq_dec a 0) as [->|?]; [|lia].
      unfold q in Hza. by rewrite int_div_zero in Hza. }
    by destruct (int_quot_div_anti a b b n Ha1 Hab ltac:(lia) Hbn Hza)
      as (_ & ? & ?).
Qed.

(** ** Doubles: a count divided by itself *)

Lemma int_div_one (n : Z) :
  0 < n → SFdiv prec emax (float_of_int n) (float_of_int n) = f1_0.
Proof.
  intros Hn.
  destruct (int_div_rounds n n)
    as [[_ Hz]|(M & E & -> & HE & HM & Hnorm & [Hlo Hhi] & _)]; [lia|..].
  { assert (0 < 2 ^ 1075) by (by apply Z.pow_pos_nonneg). nia. }
  assert (2 ^ (1 - E) = 2 * 2 ^ (- E)) as Hp.
  { replace (1 - E) with (Z.succ (- E)) by lia.
    by rewrite Z.pow_succ_r by lia. }
  assert (0 < 2 ^ (- E)) as Hpos by (apply Z.pow_pos_nonneg; lia).
  rewrite Hp in Hlo, Hhi. set (P := 2 ^ (- E)) in *.
  assert (Z.pos M = P) as HMP.
  { assert (2 * Z.pos M - 1 ≤ 2 * P)
      by (apply (Z.mul_le_mono_pos_r _ _ n); lia).
    assert (2 * P ≤ 2 * Z.pos M + 1)
      by (apply (Z.mul_le_mono_pos_r _ _ n); lia).
    lia. }
  assert (- E < 53) as HE1.
  { apply (Z.pow_lt_mono_r_iff 2); lia. }
  assert (52 ≤ - E) as HE2.
  { apply (Z.pow_le_mono_r_iff 2); [lia|lia|]. fold P. lia. }
  assert (E = -52) as -> by lia.
  unfold f1_0. f_equal. apply Pos2Z.inj. rewrite HMP. reflexivity.
Qed.

(** ** The result of a run *)

Section Results.
Context {Item : Type} `{Countable Item}.
Implicit Types (bs : list (gset Item)) (c : gset Item).
Implicit Types (self start : @Apriori Item _ _).

(** What is known of the object a run returned: the first loop left
    [start], and the second loop turned it into [self]. *)
Lemma apriori_returned bs ms mc (fuel : nat) self :
  apriori fuel (__init__ bs ms mc) = Some (Ok self) →
  ∃ start,
    levels_inv bs ms mc start ∧ level_done bs ms start ∧ no_rules start
    ∧ rule_phase start = Ok self
    ∧ rules_inv start self
    ∧ conseq_bound self = rule_keys (freq_list start).
Proof.
  intros Hrun. pose proof (apriori_spec bs ms mc fuel) as Hspec.
  rewrite Hrun in Hspec.
  destruct Hspec as (start & _ & Hinv & Hno & Hdone & Hr & Hrules & Hcb).
  by exists start.
Qed.

(** The second loop leaves alone all that the first loop built. *)
Lemma levels_inv_kept bs ms mc start self :
  rules_inv start self → levels_inv bs ms mc start →
  levels_inv bs ms mc self.
Proof.
  intros [Hb Hn Hms Hmc Hcl Hfl Hsd Hsb _ _ _] [? ? ? ? Hc Hf Hs ? ?].
  assert (∀ k level, input_level k start level → input_level k self level)
    as Hin.
  { intros k level. unfold input_level. by rewrite Hb, Hfl. }
  split; rewrite ?Hb, ?Hn, ?Hms, ?Hmc, ?Hcl, ?Hfl, ?Hsd, ?Hsb; try done.
  intros t cands Ht. destruct (Hc t cands Ht) as (? & level & ? & ?).
  split; [done|]. exists level. auto.
Qed.

Lemma level_done_kept bs ms start self :
  rules_inv start self → level_done bs ms start → level_done bs ms self.
Proof.
  intros [Hb _ _ _ Hcl Hfl _ _ _ _ _]. unfold level_done, input_level.
  by rewrite Hb, Hcl, Hfl.
Qed.

(** Every frequent itemset made of items of the baskets is in the level
    of its size: the first loop misses none. *)
Lemma frequent_level_complete bs ms mc self :
  levels_inv bs ms mc self → level_done bs ms self →
  ∀ (t : nat) c, size c = S t → c ⊆ ⋃ bs → frequent bs ms c →
    ∃ level, freq_list self !! t = Some level ∧ c ∈ level.
Proof.
  intros Hinv Hdone.
  assert (∀ (t : nat) level c,
            input_level t self level → c ∈ candidates t level →
            frequent bs ms c →
            ∃ freqs, freq_list self !! t = Some freqs ∧ c ∈ freqs) as Hstep.
  { intros t level c Hlevel Hc Hfr.
    assert (length (freq_list self) ≤ t → False)%nat as Hlen.
    { intros Hle.
      assert (t ≤ length (freq_list self))%nat as Hge.
      { destruct t as [|t]; [lia|]. destruct Hlevel as [Hl _].
        apply lookup_lt_Some in Hl. lia. }
      assert (t = length (freq_list self)) as -> by lia.
      destruct Hdone as [[_ Hnone]|[Hlen Hnone]].
      - rewrite (Hnone level Hlevel) in Hc. set_solver.
      - destruct (lookup_lt_is_Some_2 (cand_list self)
                    (length (freq_list self))) as [cands Hcands]; [lia|].
        destruct (inv_cands _ _ _ _ Hinv _ _ Hcands)
          as (_ & level' & Hlevel' & ->).
        rewrite (input_level_unique _ _ _ _ Hlevel' Hlevel) in Hcands.
        by apply (Hnone _ c Hcands). }
    destruct (lookup_lt_is_Some_2 (freq_list self) t) as [freqs Hfreqs];
      [lia|].
    exists freqs. split; [done|].
    destruct (inv_freqs _ _ _ _ Hinv _ _ Hfreqs) as (_ & cands & Hcands & ->).
    destruct (inv_cands _ _ _ _ Hinv _ _ Hcands)
      as (_ & level' & Hlevel' & ->).
    rewrite (input_level_unique _ _ _ _ Hlevel' Hlevel).
    apply list_elem_of_filter. by rewrite elem_of_elements. }
  induction t as [|t IH]; intros c Hsize HU Hfr.
  - apply (Hstep 0%nat (baskets self)); [done| |done].
    rewrite (inv_baskets _ _ _ _ Hinv). cbn [candidates].
    apply size_1_elem_of in Hsize as [x Hx]. apply leibniz_equiv in Hx.
    subst c. apply elem_of_singletons.
    assert (x ∈ ⋃ bs) as (b & Hb & Hxb)%elem_of_union_list by set_solver.
    by exists b, x.
  - assert (bs ≠ []) as Hbs.
    { intros ->. destruct (size_pos_elem_of c) as [x Hx]; [lia|].
      set_solver. }
    destruct (size_pos_elem_of c) as [x Hx]; [lia|].
    destruct (size_pos_elem_of (c ∖ {[x]})) as [y Hy].
    { rewrite size_difference by set_solver. rewrite size_singleton. lia. }
    assert (size (c ∖ {[x]}) = S t) as Hsx.
    { rewrite size_difference by set_solver. rewrite size_singleton. lia. }
    assert (size (c ∖ {[y]}) = S t) as Hsy.
    { rewrite size_difference by set_solver. rewrite size_singleton. lia. }
    destruct (IH (c ∖ {[x]})) as (level & Hlevel & Hin1);
      [done|set_solver|by apply (frequent_subset bs ms _ c); [|set_solver|]|].
    destruct (IH (c ∖ {[y]})) as (level' & Hlevel' & Hin2);
      [done|set_solver|by apply (frequent_subset bs ms _ c); [|set_solver|]|].
    rewrite Hlevel in Hlevel'. injection Hlevel' as <-.
    apply (Hstep (S t) level); [|cbn [candidates]|done].
    + split; [done|]. intros a Ha.
      by destruct (levels_inv_freq_size _ _ _ _ _ _ _ Hinv Hlevel Ha).
    + apply elem_of_joins. exists (c ∖ {[x]}), (c ∖ {[y]}).
      split; [done|]. split; [done|]. split; [set_solver|].
      split; [|lia]. apply set_eq. intros z.
      rewrite elem_of_union, !elem_of_difference, !elem_of_singleton.
      split; [|tauto]. intros Hz.
      destruct (decide (z = x)) as [->|?]; [|tauto].
      right. split; [done|]. set_solver.
Qed.

(** The object a run returned satisfies what the first loop established. *)
Lemma returned_levels bs ms mc (fuel : nat) self :
  apriori fuel (__init__ bs ms mc) = Some (Ok self) →
  levels_inv bs ms mc self ∧ level_done bs ms self.
Proof.
  intros (start & Hinv & Hdone & _ & _ & Hrules & _)%apriori_returned.
  split; [by eapply levels_inv_kept|by eapply level_done_kept].
Qed.

Lemma elem_of_freq_level bs ms mc self (i : nat) c :
  levels_inv bs ms mc self → level_done bs ms self →
  (∃ level, freq_list self !! i = Some level ∧ c ∈ level)
  ↔ size c = S i ∧ c ⊆ ⋃ bs ∧ frequent bs ms c.
Proof.
  intros Hinv Hdone. split.
  - intros (level & Hlevel & Hc).
    by destruct (levels_inv_freq_size _ _ _ _ _ _ _ Hinv Hlevel Hc)
      as (? & ? & ? & _).
  - intros (Hsize & HU & Hfr).
    by apply (frequent_level_complete bs ms mc).
Qed.

Lemma elem_of_freq_list bs ms mc self c :
  levels_inv bs ms mc self → level_done bs ms self →
  c ∈ concat (freq_list self) ↔ c ≠ ∅ ∧ c ⊆ ⋃ bs ∧ frequent bs ms c.
Proof.
  intros Hinv Hdone. rewrite elem_of_concat. split.
  - intros (level & [i Hi]%list_elem_of_lookup & Hc).
    destruct (proj1 (elem_of_freq_level bs ms mc self i c Hinv Hdone))
      as (Hsize & ? & ?); [by exists level|].
    split; [|done]. intros ->. by rewrite size_empty in Hsize.
  - intros (Hne & HU & Hfr).
    destruct (size c) as [|t] eqn:Hsize.
    { by apply size_empty_inv, leibniz_equiv in Hsize. }
    destruct (proj2 (elem_of_freq_level bs ms mc self t c Hinv Hdone))
      as (level & Hlevel & Hc); [done|].
    exists level. split; [|done]. by eapply list_elem_of_lookup_2.
Qed.

(** X1: the frequent itemsets of a run that returned are exactly the
    frequent itemsets of the baskets.  An itemset is in the level of index
    [i] exactly when it has [i + 1] items, all of them items of the
    baskets, and its support ratio is [>= min_supp]; so the levels together
    hold every non-empty itemset over the items of the baskets whose
    support ratio is [>= min_supp], and nothing else. *)
Theorem frequent_itemsets_found bs ms mc (fuel : nat) self :
  apriori fuel (__init__ bs ms mc) = Some (Ok self) →
  (∀ (i : nat) c,
     (∃ level, freq_list self !! i = Some level ∧ c ∈ level)
     ↔ size c = S i ∧ c ⊆ ⋃ bs ∧ float_ge (support bs c) ms = true)
  ∧ (∀ c, c ∈ concat (freq_list self)
          ↔ c ≠ ∅ ∧ c ⊆ ⋃ bs ∧ float_ge (support bs c) ms = true).
Proof.
  intros [Hinv Hdone]%returned_levels. split.
  - intros i c. by apply (elem_of_freq_level bs ms mc).
  - intros c. by apply (elem_of_freq_list bs ms mc).
Qed.

(** X2: in the object a run returned, the level of index [i] of
    [freq_list] and of [cand_list] holds itemsets of [i + 1] items only;
    no level is empty; no itemset occurs twice in [freq_list]; every
    frequent level is drawn from the candidate level of the same index;
    [cand_list] has as many levels as [freq_list] or one more, and
    [freq_list] has no more levels than the baskets have items. *)
Theorem levels_are_by_size bs ms mc (fuel : nat) self :
  apriori fuel (__init__ bs ms mc) = Some (Ok self) →
  (length (freq_list self) ≤ length (cand_list self)
   ≤ S (length (freq_list self)))%nat
  ∧ (length (freq_list self) ≤ size (⋃ bs))%nat
  ∧ NoDup (concat (freq_list self))
  ∧ (∀ (i : nat) level, freq_list self !! i = Some level →
       level ≠ []
       ∧ ∃ cands, cand_list self !! i = Some cands
                  ∧ ∀ c, c ∈ level → c ∈ cands ∧ size c = S i)
  ∧ (∀ (i : nat) cands, cand_list self !! i = Some cands →
       cands ≠ ∅ ∧ ∀ c, c ∈ cands → size c = S i ∧ c ⊆ ⋃ bs).
Proof.
  intros [Hinv Hdone]%returned_levels.
  split; [destruct Hdone as [[-> _]|[-> _]]; lia|].
  split; [by eapply levels_inv_bound|].
  split; [by eapply levels_inv_NoDup|]. split.
  - intros i level Hlevel.
    destruct (inv_freqs _ _ _ _ Hinv _ _ Hlevel) as (Hne & cands & Hc & _).
    split; [done|]. exists cands. split; [done|]. intros c Hin.
    destruct (levels_inv_freq_size _ _ _ _ _ _ _ Hinv Hlevel Hin)
      as (? & _ & _ & cands' & Hc' & ?).
    rewrite Hc in Hc'. by injection Hc' as <-.
  - intros i cands Hcands.
    destruct (inv_cands _ _ _ _ Hinv _ _ Hcands) as (Hne & _).
    split; [done|]. intros c Hin. by eapply inv_size.
Qed.

(** X3: in the object a run returned, the keys of [supp_dict] are the
    itemsets of [freq_list], so that [len(supp_dict)] is the number of
    frequent itemsets found; the value under a key is the number of baskets
    that contain the key divided by the number of baskets, and it is
    [>= min_supp]. *)
Theorem supp_dict_holds_the_frequent bs ms mc (fuel : nat) self :
  apriori fuel (__init__ bs ms mc) = Some (Ok self) →
  dom (supp_dict self) = list_to_set (concat (freq_list self))
  ∧ size (supp_dict self) = length (concat (freq_list self))
  ∧ ∀ c v, supp_dict self !! c = Some v →
      c ∈ concat (freq_list self)
      ∧ int_truediv (count bs c) (Z.of_nat (length bs)) = Ok v
      ∧ float_ge v ms = true.
Proof.
  intros [Hinv Hdone]%returned_levels.
  assert (dom (supp_dict self) = list_to_set (concat (freq_list self)))
    as Hdom.
  { apply set_eq. intros c.
    rewrite elem_of_dom, (inv_supp_dict _ _ _ _ Hinv), elem_of_list_to_set.
    case_decide; [by split; eauto|]. split; [by intros [? ?]|done]. }
  split; [done|]. split.
  - rewrite <- size_dom, Hdom. apply size_list_to_set.
    by eapply levels_inv_NoDup.
  - intros c v. rewrite (inv_supp_dict _ _ _ _ Hinv).
    destruct (decide (c ∈ _)) as [Hc|Hc]; [|done]. intros [= <-].
    split; [done|].
    apply (elem_of_freq_list bs ms mc) in Hc as (Hne & HU & Hfr);
      [|done..].
    split; [|done]. apply int_truediv_ok.
    destruct bs; [|done]. set_solver.
Qed.

(** The support ratio of an itemset lies between [0.0] and [1.0]. *)
Lemma support_range bs c :
  bs ≠ [] →
  float_ge (support bs c) f0_0 = true ∧ float_ge f1_0 (support bs c) = true.
Proof.
  intros Hbs. pose proof (count_bounds bs c) as Hc.
  assert (0 < Z.of_nat (length bs)) as Hn by (destruct bs; [done|simpl; lia]).
  unfold support, f0_0. split.
  - rewrite <- (int_div_zero (Z.of_nat (length bs))) by done.
    apply int_div_mono; lia.
  - rewrite <- (int_div_one (Z.of_nat (length bs))) by done.
    apply int_div_mono; lia.
Qed.

(** X4: in the object a run returned, every recorded support is a double
    between [0.0] and [1.0], and it is greater than [0.0] when [min_supp]
    is. *)
Theorem supports_are_ratios bs ms mc (fuel : nat) self :
  apriori fuel (__init__ bs ms mc) = Some (Ok self) →
  ∀ c v, supp_dict self !! c = Some v →
    float_ge v f0_0 = true ∧ float_ge f1_0 v = true
    ∧ (SFltb f0_0 ms = true → SFltb f0_0 v = true).
Proof.
  intros [Hinv Hdone]%returned_levels c v.
  rewrite (inv_supp_dict _ _ _ _ Hinv).
  destruct (decide (c ∈ _)) as [Hc|Hc]; [|done]. intros [= <-].
  apply (elem_of_freq_list bs ms mc) in Hc as (Hne & HU & Hfr); [|done..].
  assert (bs ≠ []) as Hbs by (intros ->; set_solver).
  destruct (support_range bs c Hbs) as [? ?].
  split; [done|]. split; [done|]. intros Hms.
  by apply (float_gt_zero_trans ms).
Qed.

Lemma filter_none {A} (P : A → Prop) `{∀ x, Decision (P x)} (l : list A) :
  (∀ x, x ∈ l → ¬ P x) → filter P l = [].
Proof.
  induction l as [|x l IH]; intros Hl; [done|].
  rewrite filter_cons, decide_False by (apply Hl; left).
  apply IH. intros y Hy. apply Hl. by right.
Qed.

(** X5: a [min_supp] that [1.0] is not [>=] to (a number above one, or a
    NaN) is accepted and finds nothing: the run returns after one round of
    the first loop, having recorded the candidates of one item when the
    baskets have items, and no frequent itemset, support, consequence or
    rule. *)
Theorem threshold_above_one_finds_nothing bs ms mc (fuel : nat) :
  float_ge f1_0 ms = false →
  ∃ self,
    apriori (S fuel) (__init__ bs ms mc) = Some (Ok self)
    ∧ self = new_cand_level (singletons bs) (__init__ bs ms mc)
    ∧ cand_list self
      = (if decide (⋃ bs = ∅) then [] else [singletons bs])
    ∧ freq_list self = [] ∧ supp_dict self = ∅
    ∧ conseq_dict self = ∅ ∧ rule_list self = [].
Proof.
  intros Hms. exists (new_cand_level (singletons bs) (__init__ bs ms mc)).
  assert (∀ c, bs ≠ [] → ¬ frequent bs ms c) as Hnone.
  { intros c Hbs Hfr. destruct (support_range bs c Hbs) as [_ Hle].
    pose proof (float_ge_trans _ _ _ Hle Hfr). congruence. }
  assert (singletons bs = ∅ ↔ ⋃ bs = ∅) as Hempty.
  { unfold singletons. split; [|by intros ->].
    intros Hs. apply set_eq. intros x. split; [|set_solver].
    intros Hx. assert ({[x]} ∈ (∅ : gset (gset Item))); [|set_solver].
    rewrite <- Hs. apply elem_of_map. eauto. }
  split.
  - unfold apriori. cbn [level_loop]. rewrite gen_cands_0.
    cbn [baskets __init__]. unfold new_cand_level.
    destruct (decide (singletons bs = ∅)) as [Hs|Hs].
    + rewrite (bool_decide_false (singletons bs ≠ ∅)) by (intros Hn; by apply Hn).
      cbn [cand_list __init__ length].
      rewrite bool_decide_true by lia. reflexivity.
    + rewrite (bool_decide_true (singletons bs ≠ ∅)) by done.
      cbn [cand_list set_cand_list __init__ app length].
      rewrite bool_decide_false by lia.
      assert (bs ≠ []) as Hbs.
      { intros ->. apply Hs. by apply Hempty. }
      rewrite (gen_freqs_S _ 0 (singletons bs)); [|done|done|done].
      cbn [baskets min_supp set_cand_list __init__].
      rewrite filter_none by (intros c _; by apply Hnone).
      cbn [new_freq_level record_supports foldl freq_list set_cand_list
           __init__ length].
      rewrite bool_decide_true by lia. reflexivity.
  - split; [done|]. unfold new_cand_level.
    destruct (decide (singletons bs = ∅)) as [Hs|Hs].
    + rewrite (bool_decide_false (singletons bs ≠ ∅)) by (intros Hn; by apply Hn).
      rewrite decide_True by (by apply Hempty). done.
    + rewrite (bool_decide_true (singletons bs ≠ ∅)) by done.
      rewrite decide_False by (by rewrite <- Hempty). done.
Qed.

Lemma count_Permutation bs bs' c : bs ≡ₚ bs' → count bs c = count bs' c.
Proof. intros Hp. unfold count. by rewrite Hp. Qed.

Lemma support_Permutation bs bs' c :
  bs ≡ₚ bs' → support bs c = support bs' c.
Proof.
  intros Hp. unfold support.
  by rewrite (count_Permutation bs bs' c Hp), (Permutation_length Hp).
Qed.

Lemma union_list_Permutation bs bs' : bs ≡ₚ bs' → ⋃ bs = ⋃ bs'.
Proof.
  intros Hp. apply set_eq. intros x. rewrite !elem_of_union_list.
  by setoid_rewrite Hp.
Qed.

(** Two objects whose frequent itemsets are related level by level. *)
Lemma freq_levels_incl (P Q : nat → gset Item → Prop)
    (l l' : list (list (gset Item))) :
  (∀ i c, (∃ level, l !! i = Some level ∧ c ∈ level) ↔ P i c) →
  (∀ i c, (∃ level, l' !! i = Some level ∧ c ∈ level) ↔ Q i c) →
  (∀ i level, l !! i = Some level → level ≠ []) →
  (∀ i c, P i c → Q i c) →
  ∀ i level, l !! i = Some level →
    ∃ level', l' !! i = Some level' ∧ ∀ c, c ∈ level → c ∈ level'.
Proof.
  intros HP HQ Hne HPQ i level Hi.
  destruct level as [|c0 level0] eqn:Hlevel; [by destruct (Hne i [] Hi)|].
  rewrite <- Hlevel in *.
  assert (c0 ∈ level) as Hc0 by (rewrite Hlevel; left).
  destruct (proj2 (HQ i c0)) as (level' & Hi' & _).
  { apply HPQ, HP. by exists level. }
  exists level'. split; [done|]. intros c Hc.
  destruct (proj2 (HQ i c)) as (level'' & Hi'' & Hin).
  { apply HPQ, HP. by exists level. }
  rewrite Hi' in Hi''. by injection Hi'' as <-.
Qed.

(** X6: the order of the baskets does not matter to what a run finds.  Two
    runs that returned, on the same baskets in two orders with the same
    thresholds, have the same [supp_dict] and, level by level, the same
    frequent itemsets. *)
Theorem basket_order_is_irrelevant bs bs' ms mc
    (fuel fuel' : nat) self self' :
  bs ≡ₚ bs' →
  apriori fuel (__init__ bs ms mc) = Some (Ok self) →
  apriori fuel' (__init__ bs' ms mc) = Some (Ok self') →
  supp_dict self' = supp_dict self
  ∧ length (freq_list self') = length (freq_list self)
  ∧ ∀ (i : nat) level, freq_list self !! i = Some level →
      ∃ level', freq_list self' !! i = Some level'
                ∧ ∀ c, c ∈ level' ↔ c ∈ level.
Proof.
  intros Hp [Hinv Hdone]%returned_levels [Hinv' Hdone']%returned_levels.
  pose proof (elem_of_freq_level bs ms mc self) as Hl.
  pose proof (elem_of_freq_level bs' ms mc self') as Hl'.
  assert (∀ (i : nat) c,
            (size c = S i ∧ c ⊆ ⋃ bs ∧ frequent bs ms c)
            ↔ (size c = S i ∧ c ⊆ ⋃ bs' ∧ frequent bs' ms c)) as Hsame.
  { intros i c. unfold frequent.
    by rewrite (support_Permutation bs bs' c Hp),
      (union_list_Permutation bs bs' Hp). }
  assert (∀ i level, freq_list self !! i = Some level →
            ∃ level', freq_list self' !! i = Some level'
                      ∧ ∀ c, c ∈ level → c ∈ level') as Hfwd.
  { apply (freq_levels_incl _ _ _ _ (λ i c, Hl i c Hinv Hdone)
             (λ i c, Hl' i c Hinv' Hdone')).
    - intros i level Hi. by destruct (inv_freqs _ _ _ _ Hinv _ _ Hi).
    - intros i c. apply Hsame. }
  assert (∀ i level', freq_list self' !! i = Some level' →
            ∃ level, freq_list self !! i = Some level
                     ∧ ∀ c, c ∈ level' → c ∈ level) as Hbwd.
  { apply (freq_levels_incl _ _ _ _ (λ i c, Hl' i c Hinv' Hdone')
             (λ i c, Hl i c Hinv Hdone)).
    - intros i level Hi. by destruct (inv_freqs _ _ _ _ Hinv' _ _ Hi).
    - intros i c. apply Hsame. }
  split; [|split].
  - apply map_eq. intros c.
    rewrite (inv_supp_dict _ _ _ _ Hinv), (inv_supp_dict _ _ _ _ Hinv').
    rewrite (support_Permutation bs bs' c Hp).
    destruct (decide (c ∈ concat (freq_list self'))) as [Hc|Hc];
      destruct (decide (c ∈ concat (freq_list self))) as [Hd|Hd];
      try done; exfalso.
    + apply Hd. apply (elem_of_freq_list bs ms mc); [done..|].
      apply (elem_of_freq_list bs' ms mc) in Hc; [|done..].
      unfold frequent in *.
      by rewrite (support_Permutation bs bs' c Hp),
        (union_list_Permutation bs bs' Hp).
    + apply Hc. apply (elem_of_freq_list bs' ms mc); [done..|].
      apply (elem_of_freq_list bs ms mc) in Hd; [|done..].
      unfold frequent in *.
      by rewrite <- (support_Permutation bs bs' c Hp),
        <- (union_list_Permutation bs bs' Hp).
  - destruct (Nat.lt_trichotomy (length (freq_list self'))
                (length (freq_list self))) as [Hlt|[Heq|Hgt]]; [|done|].
    + destruct (lookup_lt_is_Some_2 (freq_list self)
                  (length (freq_list self'))) as [level Hi]; [done|].
      destruct (Hfwd _ _ Hi) as (level' & Hi' & _).
      apply lookup_lt_Some in Hi'. lia.
    + destruct (lookup_lt_is_Some_2 (freq_list self')
                  (length (freq_list self))) as [level Hi]; [done|].
      destruct (Hbwd _ _ Hi) as (level' & Hi' & _).
      apply lookup_lt_Some in Hi'. lia.
  - intros i level Hi. destruct (Hfwd _ _ Hi) as (level' & Hi' & Hin).
    exists level'. split; [done|]. intros c. split; [|apply Hin].
    destruct (Hbwd _ _ Hi') as (level'' & Hi'' & Hin').
    rewrite Hi in Hi''. injection Hi'' as <-. apply Hin'.
Qed.

(** X7: raising [min_supp] can only shrink what a run finds.  When
    [ms' >= ms], a run with [ms'] that returned records no itemset and no
    support that a run with [ms] on the same baskets does not record, and
    each of its frequent levels is part of the level of the same index of
    the other run. *)
Theorem higher_threshold_finds_fewer bs ms ms' mc mc'
    (fuel fuel' : nat) self self' :
  float_ge ms' ms = true →
  apriori fuel (__init__ bs ms mc) = Some (Ok self) →
  apriori fuel' (__init__ bs ms' mc') = Some (Ok self') →
  supp_dict self' ⊆ supp_dict self
  ∧ ∀ (i : nat) level', freq_list self' !! i = Some level' →
      ∃ level, freq_list self !! i = Some level
               ∧ ∀ c, c ∈ level' → c ∈ level.
Proof.
  intros Hms [Hinv Hdone]%returned_levels [Hinv' Hdone']%returned_levels.
  assert (∀ c, frequent bs ms' c → frequent bs ms c) as Hfr.
  { intros c Hc. unfold frequent in *. by eapply float_ge_trans. }
  split.
  - apply map_subseteq_spec. intros c v.
    rewrite (inv_supp_dict _ _ _ _ Hinv), (inv_supp_dict _ _ _ _ Hinv').
    destruct (decide (c ∈ concat (freq_list self'))) as [Hc|Hc]; [|done].
    intros [= <-]. rewrite decide_True; [done|].
    apply (elem_of_freq_list bs ms mc); [done..|].
    apply (elem_of_freq_list bs ms' mc') in Hc as (? & ? & ?); [|done..].
    auto.
  - apply (freq_levels_incl _ _ _ _
             (λ i c, elem_of_freq_level bs ms' mc' self' i c Hinv' Hdone')
             (λ i c, elem_of_freq_level bs ms mc self i c Hinv Hdone)).
    + intros i level Hi. by destruct (inv_freqs _ _ _ _ Hinv' _ _ Hi).
    + intros i c (? & ? & ?). auto.
Qed.

End Results.

(** ** The second loop, exactly *)

Lemma raises_only_ret {A} E (a : A) (post : A → Prop) :
  post a → raises_only E (Ok a) post.
Proof. done. Qed.

Lemma raises_only_bind {A B} E (m : outcome A) (f : A → outcome B)
    (mid : A → Prop) (post : B → Prop) :
  raises_only E m mid → (∀ a, mid a → raises_only E (f a) post) →
  raises_only E (m ≫= f) post.
Proof. destruct m as [a|e]; simpl; [|done]. intros Hm Hf. by apply Hf. Qed.

Lemma raises_only_mono {A} E (m : outcome A) (post post' : A → Prop) :
  raises_only E m post → (∀ a, post a → post' a) → raises_only E m post'.
Proof. destruct m as [a|e]; simpl; [|done]. intros Hm Hpost. by apply Hpost. Qed.

Lemma raises_only_for_each {A S} E (inv : list A → S → Prop)
    (body : S → A → outcome S) (s0 : S) (l : list A) :
  inv [] s0 →
  (∀ done x rest s, l = done ++ x :: rest → inv done s →
     raises_only E (body s x) (inv (done ++ [x]))) →
  raises_only E (for_each body s0 l) (inv l).
Proof.
  intros H0 Hbody.
  assert (∀ done rest s, l = done ++ rest → inv done s →
            raises_only E (for_each body s rest) (inv l)) as Hgen.
  { intros done rest. revert done.
    induction rest as [|x rest IH]; intros done s Hl Hinv.
    - rewrite app_nil_r in Hl. by subst.
    - cbn [for_each]. eapply raises_only_bind; [by eapply Hbody|].
      intros s' Hs'. apply (IH (done ++ [x])); [|done].
      by rewrite <- app_assoc. }
  by apply (Hgen [] l s0).
Qed.

Lemma for_each_ext {A S} (f g : S → A → outcome S) (s : S) (l : list A) :
  (∀ s x, f s x = g s x) → for_each f s l = for_each g s l.
Proof.
  intros Hfg. revert s. induction l as [|x l IH]; intros s; [done|].
  cbn [for_each]. rewrite Hfg. destruct (g s x) as [s'|e]; simpl; [|done].
  apply IH.
Qed.

Lemma for_each_fmap {A B S} (f : A → B) (body : S → B → outcome S)
    (s : S) (l : list A) :
  for_each (λ s x, body s (f x)) s l = for_each body s (f <$> l).
Proof.
  revert s. induction l as [|x l IH]; intros s; [done|].
  cbn [for_each fmap list_fmap]. destruct (body s (f x)) as [s'|e]; simpl;
    [|done]. apply IH.
Qed.

Lemma for_each_filter {A S} (P : A → Prop) `{∀ x, Decision (P x)}
    (body : S → A → outcome S) (s : S) (l : list A) :
  for_each (λ s x, if bool_decide (P x) then body s x else Ok s) s l
  = for_each body s (filter P l).
Proof.
  revert s. induction l as [|x l IH]; intros s; [done|].
  cbn [for_each]. rewrite filter_cons.
  destruct (decide (P x)) as [HP|HP].
  - rewrite bool_decide_true by done. cbn [for_each].
    destruct (body s x) as [s'|e]; simpl; [|done]. apply IH.
  - rewrite bool_decide_false by done. simpl. apply IH.
Qed.

Section Rules_proofs.
Context {Item : Type} `{Countable Item}.
Implicit Types (bs : list (gset Item)) (freq conseq : gset Item).
Implicit Types (self start : @Apriori Item _ _).

Lemma frame_refl self : frame self self.
Proof. by split. Qed.

Lemma frame_trans self1 self2 self3 :
  frame self1 self2 → frame self2 self3 → frame self1 self3.
Proof. intros [] []. split; congruence. Qed.

(** The loops of [gen_conseqs] examine [conseq_cands]. *)
Lemma gen_conseqs_unfold freq (k : nat) self clevels :
  conseq_dict self !! freq = Some clevels → length clevels = k →
  gen_conseqs freq k self
  = ('(conseqs, self') ←
       for_each (check_body freq) ([], self) (conseq_cands freq k clevels);
     match conseqs with
     | [] => Ok self'
     | _ => append_conseq freq conseqs self'
     end).
Proof.
  intros Hd Hlen. unfold gen_conseqs. f_equal.
  destruct k as [|k].
  - rewrite bool_decide_true by done. cbn [conseq_cands].
    rewrite <- for_each_fmap. apply for_each_ext. by intros [conseqs s] x.
  - rewrite bool_decide_false by done. unfold dict_get. rewrite Hd.
    cbn [mbind outcome_bind]. rewrite getitem_pred.
    destruct (lookup_lt_is_Some_2 clevels k) as [prev Hprev]; [lia|].
    cbn [conseq_cands]. rewrite !Hprev. cbn [mbind outcome_bind default].
    rewrite <- for_each_filter, <- for_each_fmap. apply for_each_ext.
    intros [conseqs s] [ci cj]. cbn [fst snd].
    replace (k + 1)%nat with (S k) by lia.
    destruct (decide (size (ci ∪ cj) = S (S k))) as [Hsz|Hsz].
    + rewrite !bool_decide_true by (done || lia). done.
    + rewrite !bool_decide_false by (done || lia). done.
Qed.

Lemma conseq_cands_app freq (t : nat) (clevels more : list (list (gset Item))) :
  (t ≤ length clevels)%nat →
  conseq_cands freq t (clevels ++ more) = conseq_cands freq t clevels.
Proof.
  intros Ht. destruct t as [|t]; [done|]. cbn [conseq_cands].
  by rewrite lookup_app_l by lia.
Qed.

(** The consequences examined for [freq] at level [k] are parts of [freq]
    of [k + 1] items. *)
Lemma conseq_cands_sizes bs mc freq clevels :
  conseq_levels_exact bs mc freq clevels →
  ∀ (k : nat) c, c ∈ conseq_cands freq k clevels → c ⊆ freq ∧ size c = S k.
Proof.
  intros Hexact. induction k as [|k IH]; intros c; cbn [conseq_cands].
  - intros (item & -> & Hitem%elem_of_elements)%list_elem_of_fmap.
    split; [set_solver|apply size_singleton].
  - intros [Hsz ([a b] & -> & Hab)%list_elem_of_fmap]%list_elem_of_filter.
    split; [|done]. cbn [fst snd].
    destruct (clevels !! k) as [prev|] eqn:Hprev; cbn [default] in Hab.
    2:{ by apply elem_of_nil in Hab. }
    destruct (Hexact k prev Hprev) as [_ Hlvl].
    apply elem_of_join_pairs in Hab as (i & j & _ & Hi & Hj).
    apply list_elem_of_lookup_2 in Hi, Hj. rewrite Hlvl in Hi, Hj.
    apply list_elem_of_filter in Hi as [_ Hi], Hj as [_ Hj].
    apply IH in Hi as [? _], Hj as [? _]. set_solver.
Qed.

Lemma conseq_levels_exact_snoc bs mc freq clevels :
  conseq_levels_exact bs mc freq clevels →
  let kept := filter (confident bs mc freq)
                (conseq_cands freq (length clevels) clevels) in
  kept ≠ [] → conseq_levels_exact bs mc freq (clevels ++ [kept]).
Proof.
  intros Hexact kept Hne t lvl Ht.
  destruct (decide (t < length clevels)%nat) as [Hlt|Hge].
  - rewrite lookup_app_l in Ht by done.
    rewrite conseq_cands_app by lia. by apply Hexact.
  - rewrite lookup_app_r in Ht by lia.
    apply list_lookup_singleton_Some in Ht as [Ht <-].
    assert (t = length clevels) as -> by lia.
    by rewrite conseq_cands_app by lia.
Qed.

Lemma rules_of_app bs (keys keys' : list (gset Item)) d :
  rules_of bs (keys ++ keys') d = rules_of bs keys d ++ rules_of bs keys' d.
Proof. apply bind_app. Qed.

Lemma rules_of_ext bs (keys : list (gset Item)) d d' :
  (∀ f, f ∈ keys → d !! f = d' !! f) → rules_of bs keys d = rules_of bs keys d'.
Proof.
  intros Hd. apply Forall_bind_ext, Forall_forall. intros f Hf.
  by rewrite (Hd f Hf).
Qed.

Lemma rules_of_singleton bs (f : gset Item) d :
  rules_of bs [f] d = (lvl ← default [] (d !! f); rule_of bs f <$> lvl).
Proof. unfold rules_of. rewrite bind_cons. apply app_nil_r. Qed.

Lemma elem_of_rules_of bs (keys : list (gset Item)) d r :
  r ∈ rules_of bs keys d
  ↔ ∃ freq clevels lvl conseq,
      freq ∈ keys ∧ d !! freq = Some clevels ∧ lvl ∈ clevels
      ∧ conseq ∈ lvl ∧ r = rule_of bs freq conseq.
Proof.
  unfold rules_of. rewrite list_elem_of_bind. split.
  - intros (freq & Hr & Hfreq).
    apply list_elem_of_bind in Hr as (lvl & Hr & Hlvl).
    apply list_elem_of_fmap in Hr as (conseq & -> & Hconseq).
    destruct (d !! freq) as [clevels|] eqn:Hd; cbn [default] in Hlvl.
    + by exists freq, clevels, lvl, conseq.
    + by apply elem_of_nil in Hlvl.
  - intros (freq & clevels & lvl & conseq & Hfreq & Hd & Hlvl & Hc & ->).
    exists freq. split; [|done]. apply list_elem_of_bind. exists lvl.
    rewrite Hd. split; [|done]. apply list_elem_of_fmap. by exists conseq.
Qed.

Lemma NoDup_concat_elem {A} (ls : list (list A)) (l : list A) :
  NoDup (concat ls) → l ∈ ls → NoDup l.
Proof.
  induction ls as [|l' ls IH]; simpl; [by intros _ ?%elem_of_nil|].
  intros (Hl' & _ & Hls)%NoDup_app [->|Hin]%elem_of_cons; auto.
Qed.

Section second_loop_exact.
Context (bs : list (gset Item)) (ms mc : float) (start : @Apriori Item _ _).
Context (Hlevels : levels_inv bs ms mc start).


Lemma check_rule_exact self (i : nat) level freq conseq :
  frame start self →
  freq_list start !! i = Some level → freq ∈ level →
  conseq ⊆ freq → conseq ≠ ∅ → conseq ≠ freq →
  raises_only (zero_support ms) (check_rule freq conseq self) (λ '(ok, self'),
    ok = bool_decide (confident bs mc freq conseq)
    ∧ self' = (if ok then append_rule (rule_of bs freq conseq) self
               else self)
    ∧ float_is_zero (support bs (freq ∖ conseq)) = false).
Proof.
  intros Hframe Hi Hfreq Hsub Hne Hneq. unfold check_rule.
  rewrite (frame_supp_dict _ _ Hframe), (frame_min_conf _ _ Hframe),
    (inv_min_conf _ _ _ _ Hlevels).
  assert (freq ∖ conseq ⊆ freq) as Hante by set_solver.
  assert (freq ∖ conseq ≠ ∅) as Hante_ne.
  { intros Hempty. apply Hneq. apply set_eq. intros x. split; [set_solver|].
    intros Hx. destruct (decide (x ∈ conseq)); [done|]. set_solver. }
  destruct (size (freq ∖ conseq)) as [|t] eqn:Hsize.
  { by apply size_empty_inv, leibniz_equiv in Hsize. }
  destruct (downward_closed _ _ _ _ Hlevels t (freq ∖ conseq) i level freq
              Hi Hfreq Hante Hsize) as (level' & Hi' & Hin').
  assert (freq ∈ concat (freq_list start)) as Hin1.
  { apply elem_of_concat. exists level. split; [|done].
    by eapply list_elem_of_lookup_2. }
  assert (freq ∖ conseq ∈ concat (freq_list start)) as Hin2.
  { apply elem_of_concat. exists level'. split; [|done].
    by eapply list_elem_of_lookup_2. }
  unfold dict_get. rewrite !(inv_supp_dict _ _ _ _ Hlevels).
  rewrite (decide_True _ _ Hin1), (decide_True _ _ Hin2).
  cbn [mbind outcome_bind]. unfold float_truediv.
  destruct (float_is_zero (support bs (freq ∖ conseq))) eqn:Hzero.
  { cbn [mbind outcome_bind raises_only]. split; [done|].
    destruct (SFltb f0_0 ms) eqn:Hms; [|done].
    destruct (levels_inv_freq_size _ _ _ _ _ _ _ Hlevels Hi' Hin')
      as (_ & _ & Hfr & _).
    pose proof (float_ge_zero_lt ms _ Hms Hfr). congruence. }
  cbn [mbind outcome_bind]. fold (confidence bs freq conseq).
  destruct (float_ge (confidence bs freq conseq) mc) eqn:Hge;
    cbn [raises_only].
  - by rewrite bool_decide_true.
  - by rewrite bool_decide_false by (unfold confident; congruence).
Qed.

Lemma check_loop_exact (i k : nat) level freq (cs : list (gset Item)) :
  freq_list start !! i = Some level → freq ∈ level → (k < i)%nat →
  (∀ c, c ∈ cs → c ⊆ freq ∧ size c = S k) →
  ∀ acc self, frame start self →
  raises_only (zero_support ms) (for_each (check_body freq) (acc, self) cs)
    (λ '(conseqs, self'),
       conseqs = acc ++ filter (confident bs mc freq) cs
       ∧ frame start self'
       ∧ conseq_dict self' = conseq_dict self
       ∧ conseq_bound self' = conseq_bound self
       ∧ rule_list self'
         = rule_list self
           ++ (rule_of bs freq <$> filter (confident bs mc freq) cs)
       ∧ ∀ c, c ∈ cs → float_is_zero (support bs (freq ∖ c)) = false).
Proof.
  intros Hi Hfreq Hk.
  destruct (levels_inv_freq_size _ _ _ _ _ _ _ Hlevels Hi Hfreq)
    as (Hsize & _).
  induction cs as [|c cs IH]; intros Hcs acc self Hframe.
  - cbn [for_each raises_only filter list_filter fmap list_fmap].
    rewrite !app_nil_r. split_and!; try done. by intros c ?%elem_of_nil.
  - cbn [for_each]. unfold check_body at 2. cbn [fst snd].
    destruct (Hcs c) as [Hsub Hsz]; [left|].
    assert (c ≠ ∅) as Hne by (intros ->; by rewrite size_empty in Hsz).
    assert (c ≠ freq) as Hneq by (intros ->; lia).
    pose proof (check_rule_exact self i level freq c Hframe Hi Hfreq Hsub
                  Hne Hneq) as Hcheck.
    destruct (check_rule freq c self) as [[ok self']|e];
      cbn [mbind outcome_bind raises_only] in *; [|done].
    destruct Hcheck as (Hok & Hself' & Hnz). rewrite filter_cons.
    destruct (decide (confident bs mc freq c)) as [Hc|Hc].
    + rewrite bool_decide_true in Hok by done. subst.
      eapply raises_only_mono.
      { apply IH; [intros ? ?; apply Hcs; by right|].
        by destruct Hframe. }
      intros [conseqs' self''] (-> & ? & -> & -> & -> & Hall).
      cbn [append_rule conseq_dict conseq_bound rule_list fmap list_fmap].
      rewrite <- !app_assoc. split_and!; try done.
      intros c' [->|Hc']%elem_of_cons; auto.
    + rewrite bool_decide_false in Hok by done. subst.
      eapply raises_only_mono.
      { apply IH; [intros ? ?; apply Hcs; by right|done]. }
      intros [conseqs' self''] (-> & ? & -> & -> & -> & Hall).
      split_and!; try done.
      intros c' [->|Hc']%elem_of_cons; auto.
Qed.

Lemma gen_conseqs_exact self (i k : nat) level freq clevels :
  frame start self →
  freq_list start !! i = Some level → freq ∈ level → (k < i)%nat →
  conseq_dict self !! freq = Some clevels → length clevels = k →
  conseq_levels_exact bs mc freq clevels →
  let kept := filter (confident bs mc freq) (conseq_cands freq k clevels) in
  raises_only (zero_support ms) (gen_conseqs freq k self) (λ self',
    frame start self'
    ∧ conseq_bound self' = conseq_bound self
    ∧ rule_list self' = rule_list self ++ (rule_of bs freq <$> kept)
    ∧ conseq_dict self'
      = (if decide (kept = []) then conseq_dict self
         else <[freq := clevels ++ [kept]]> (conseq_dict self))
    ∧ ∀ c, c ∈ conseq_cands freq k clevels →
        float_is_zero (support bs (freq ∖ c)) = false).
Proof.
  intros Hframe Hi Hfreq Hk Hd Hlen Hexact kept.
  rewrite (gen_conseqs_unfold freq k self clevels Hd Hlen).
  eapply raises_only_bind.
  { apply (check_loop_exact i k level freq); try done.
    by apply (conseq_cands_sizes bs mc). }
  intros [conseqs self'] (-> & Hframe' & Hcd & Hcb & Hrl & Hall).
  rewrite app_nil_l. fold kept in Hrl |- *.
  destruct kept as [|c kept'] eqn:Hkept.
  - by rewrite decide_True.
  - rewrite decide_False by done. rewrite <- Hkept in *.
    unfold append_conseq, dict_get. rewrite Hcd, Hd.
    cbn [mbind outcome_bind raises_only]. split; [by destruct Hframe'|].
    cbn [conseq_bound rule_list conseq_dict]. done.
Qed.

Lemma conseq_loop_exact (i : nat) level freq (todo : nat) :
  freq_list start !! i = Some level → freq ∈ level →
  ∀ (k : nat) self clevels,
    frame start self → (k + todo = i)%nat →
    conseq_dict self !! freq = Some clevels → length clevels = k →
    conseq_levels_exact bs mc freq clevels →
    conseq_levels_checked bs freq k clevels →
    raises_only (zero_support ms) (conseq_loop freq todo k self) (λ self',
      frame start self'
      ∧ conseq_bound self' = conseq_bound self
      ∧ ∃ more,
          conseq_dict self' = <[freq := clevels ++ more]> (conseq_dict self)
          ∧ conseq_levels_done bs mc freq i (clevels ++ more)
          ∧ rule_list self'
            = rule_list self ++ (lvl ← more; rule_of bs freq <$> lvl)).
Proof.
  intros Hi Hfreq.
  induction todo as [|todo IH];
    intros k self clevels Hframe Hk Hd Hlen Hexact Hchk.
  - cbn [conseq_loop raises_only]. split; [done|]. split; [done|].
    exists []. rewrite !app_nil_r. split; [by rewrite insert_id|].
    split; [|done]. split; [lia|]. split; [done|]. split; [lia|].
    intros t c Ht. apply (Hchk t c). lia.
  - cbn [conseq_loop]. eapply raises_only_bind.
    { by apply (gen_conseqs_exact self i k level freq clevels); try lia. }
    intros self1 (Hframe1 & Hcb1 & Hrl1 & Hcd1 & Hall1). cbn beta in *.
    assert (conseq_levels_checked bs freq (S k) clevels) as Hchk1.
    { intros t c Ht Hc. destruct (decide (t = k)) as [->|?]; [by apply Hall1|].
      apply (Hchk t c); [lia|done]. }
    set (kept := filter (confident bs mc freq) (conseq_cands freq k clevels))
      in *.
    unfold dict_get. destruct (decide (kept = [])) as [Hkept|Hkept].
    + rewrite Hcd1, Hd. cbn [mbind outcome_bind].
      rewrite bool_decide_true by lia. cbn [raises_only].
      split; [done|]. split; [done|]. exists [].
      rewrite !app_nil_r, Hcd1. split; [by rewrite insert_id|].
      split.
      * split; [lia|]. split; [done|].
        split; [intros _; by rewrite Hlen|].
        intros t c Ht. apply (Hchk1 t c). lia.
      * rewrite Hrl1, Hkept. apply app_nil_r.
    + rewrite Hcd1, lookup_insert_eq. cbn [mbind outcome_bind].
      rewrite bool_decide_false by (rewrite length_app; simpl; lia).
      eapply raises_only_mono.
      { apply (IH (S k) self1 (clevels ++ [kept])); try done; try lia.
        - by rewrite Hcd1, lookup_insert_eq.
        - rewrite length_app. simpl. lia.
        - subst k. by apply conseq_levels_exact_snoc.
        - intros t c Ht Hc. apply (Hchk1 t c); [done|].
          by rewrite conseq_cands_app in Hc by lia. }
      intros self' (Hframe' & Hcb' & more & Hcd' & Hdone' & Hrl').
      split; [done|]. split; [congruence|]. exists (kept :: more).
      rewrite <- app_assoc in Hcd', Hdone'. cbn [app] in Hcd', Hdone'.
      split; [by rewrite Hcd', Hcd1, insert_insert_eq|].
      split; [done|]. rewrite Hrl', Hrl1, bind_cons. by rewrite <- app_assoc.
Qed.

Lemma rule_level_exact self (i : nat) level :
  frame start self → freq_list start !! i = Some level → (0 < i)%nat →
  raises_only (zero_support ms)
    (for_each (λ self freq,
       let k := 0%nat in
       let self := bind_conseq freq [] self in
       conseq_loop freq (i - k) k self) self level)
    (λ self',
       frame start self'
       ∧ conseq_bound self' = conseq_bound self ++ level
       ∧ rule_list self'
         = rule_list self ++ rules_of bs level (conseq_dict self')
       ∧ (∀ f, f ∉ level → conseq_dict self' !! f = conseq_dict self !! f)
       ∧ (∀ f, f ∈ level →
            ∃ final, conseq_dict self' !! f = Some final
                     ∧ conseq_levels_done bs mc f i final)).
Proof.
  intros Hframe Hi Hpos.
  assert (NoDup level) as Hnd.
  { apply (NoDup_concat_elem (freq_list start)).
    - by eapply levels_inv_NoDup.
    - by eapply list_elem_of_lookup_2. }
  apply (raises_only_for_each (zero_support ms) (λ done s,
    frame start s
    ∧ conseq_bound s = conseq_bound self ++ done
    ∧ rule_list s = rule_list self ++ rules_of bs done (conseq_dict s)
    ∧ (∀ f, f ∉ done → conseq_dict s !! f = conseq_dict self !! f)
    ∧ (∀ f, f ∈ done →
         ∃ final, conseq_dict s !! f = Some final
                  ∧ conseq_levels_done bs mc f i final))).
  { split; [done|]. rewrite !app_nil_r. split; [done|]. split; [done|].
    split; [done|]. by intros f ?%elem_of_nil. }
  intros done x rest s Hl (Hfs & Hcb & Hrl & Hout & Hin). cbn zeta.
  assert (x ∈ level) as Hx.
  { rewrite Hl. apply elem_of_app. right. left. }
  assert (x ∉ done) as Hxd.
  { rewrite Hl in Hnd. apply NoDup_app in Hnd as (_ & Hnd & _).
    intros Hxd. apply (Hnd x Hxd). left. }
  eapply raises_only_mono.
  { apply (conseq_loop_exact i level x (i - 0) Hi Hx 0%nat
             (bind_conseq x [] s) []).
    - by destruct Hfs.
    - lia.
    - cbn [bind_conseq conseq_dict]. apply lookup_insert_eq.
    - done.
    - by intros t lvl ?.
    - intros t c Ht. lia. }
  intros s' (Hfs' & Hcb' & more & Hcd' & Hdone' & Hrl').
  cbn [bind_conseq conseq_dict conseq_bound rule_list app] in *.
  rewrite insert_insert_eq in Hcd'.
  split; [done|]. split; [by rewrite Hcb', Hcb, <- app_assoc|].
  split; [|split].
  - rewrite Hrl', Hrl, rules_of_app, rules_of_singleton, <- app_assoc.
    f_equal. f_equal.
    + apply rules_of_ext. intros f Hf. rewrite Hcd'.
      rewrite lookup_insert_ne; [done|]. by intros ->.
    + by rewrite Hcd', lookup_insert_eq.
  - intros f Hf. apply not_elem_of_app in Hf as [Hf Hfx].
    rewrite Hcd', lookup_insert_ne.
    + by apply Hout.
    + intros ->. apply Hfx. left.
  - intros f [Hf| ->%list_elem_of_singleton]%elem_of_app.
    + rewrite Hcd', lookup_insert_ne by (by intros ->). by apply Hin.
    + exists more. by rewrite Hcd', lookup_insert_eq.
Qed.

Lemma rule_phase_exact :
  no_rules start →
  raises_only (zero_support ms) (rule_phase start) (λ self,
    frame start self
    ∧ conseq_bound self = rule_keys (freq_list start)
    ∧ rule_list self
      = rules_of bs (rule_keys (freq_list start)) (conseq_dict self)
    ∧ (∀ f, f ∉ rule_keys (freq_list start) → conseq_dict self !! f = None)
    ∧ (∀ (i : nat) level f,
         freq_list start !! i = Some level → (0 < i)%nat → f ∈ level →
         ∃ final, conseq_dict self !! f = Some final
                  ∧ conseq_levels_done bs mc f i final)).
Proof.
  intros (Hcd0 & Hrl0 & Hcb0).
  set (keys := λ done : list (nat * list (gset Item)),
         concat ((λ '(i, freqs), if bool_decide (0 < i)%nat then freqs
                                 else []) <$> done)).
  assert (∀ done done', keys (done ++ done') = keys done ++ keys done')
    as Hkeys_app.
  { intros done done'. unfold keys. by rewrite fmap_app, concat_app. }
  assert (NoDup (keys (enumerate (freq_list start)))) as Hnd.
  { apply rule_keys_NoDup. by eapply levels_inv_NoDup. }
  unfold rule_phase.
  eapply raises_only_mono.
  { apply (raises_only_for_each (zero_support ms) (λ done s,
      frame start s
      ∧ conseq_bound s = keys done
      ∧ rule_list s = rules_of bs (keys done) (conseq_dict s)
      ∧ (∀ f, f ∉ keys done → conseq_dict s !! f = None)
      ∧ (∀ (i : nat) level f,
           (i, level) ∈ done → (0 < i)%nat → f ∈ level →
           ∃ final, conseq_dict s !! f = Some final
                    ∧ conseq_levels_done bs mc f i final))).
    { split; [done|]. split; [done|]. split; [done|].
      split; [by intros f _; rewrite Hcd0|].
      by intros i level f ?%elem_of_nil. }
    intros done [i level] rest s Hl (Hfs & Hcb & Hrl & Hout & Hin).
    assert (freq_list start !! i = Some level) as Hi.
    { apply elem_of_enumerate. rewrite Hl. apply elem_of_app. right. left. }
    rewrite Hl, Hkeys_app in Hnd.
    destruct (decide (0 < i)%nat) as [Hpos|Hpos].
    - rewrite bool_decide_true by done.
      assert (keys ((i, level) :: rest) = level ++ keys rest) as Hk.
      { unfold keys. cbn [fmap list_fmap concat].
        by rewrite bool_decide_true. }
      rewrite Hk in Hnd. apply NoDup_app in Hnd as (_ & Hdisj & _).
      assert (keys (done ++ [(i, level)]) = keys done ++ level) as Hk'.
      { rewrite Hkeys_app. unfold keys. cbn [fmap list_fmap concat].
        by rewrite bool_decide_true, app_nil_r. }
      eapply raises_only_mono; [by apply rule_level_exact|].
      intros s' (Hfs' & Hcb' & Hrl' & Hout' & Hin'). rewrite Hk'.
      split; [done|]. split; [by rewrite Hcb', Hcb|].
      split; [|split].
      + rewrite Hrl', Hrl, rules_of_app. f_equal.
        apply rules_of_ext. intros f Hf. symmetry. apply Hout'.
        intros Hf'. apply (Hdisj f Hf). apply elem_of_app. by left.
      + intros f Hf. apply not_elem_of_app in Hf as [Hf Hfl].
        rewrite Hout' by done. by apply Hout.
      + intros j lvl f [Hj|Hj%list_elem_of_singleton]%elem_of_app Hjpos Hf.
        * rewrite Hout'; [by eapply Hin|].
          intros Hf'. apply (Hdisj f); [|apply elem_of_app; by left].
          unfold keys. apply elem_of_concat. exists lvl. split; [|done].
          apply list_elem_of_fmap. exists (j, lvl).
          by rewrite bool_decide_true.
        * injection Hj as -> ->. by apply Hin'.
    - rewrite bool_decide_false by done. cbn [raises_only].
      assert (keys (done ++ [(i, level)]) = keys done) as Hk'.
      { rewrite Hkeys_app. unfold keys. cbn [fmap list_fmap concat].
        by rewrite bool_decide_false, !app_nil_r. }
      rewrite Hk'. split; [done|]. split; [done|]. split; [done|].
      split; [done|].
      intros j lvl f [Hj|Hj%list_elem_of_singleton]%elem_of_app Hjpos Hf.
      + by eapply Hin.
      + injection Hj as -> ->. lia. }
  intros self (Hfs & Hcb & Hrl & Hout & Hin). unfold rule_keys.
  fold (keys (enumerate (freq_list start))).
  split; [done|]. split; [done|]. split; [done|]. split; [done|].
  intros i level f Hi Hpos Hf. apply (Hin i level f); [|done..].
  by apply elem_of_enumerate.
Qed.

End second_loop_exact.

End Rules_proofs.

(** ** The rules of a run *)

Section Rules_results.
Context {Item : Type} `{Countable Item}.
Implicit Types (bs : list (gset Item)) (freq conseq : gset Item).
Implicit Types (self start : @Apriori Item _ _).

(** A run raises no exception but [ZeroDivisionError]; when it returns,
    the rule list and the consequences are those of the second loop. *)
Lemma apriori_exact bs ms mc (fuel : nat) r :
  apriori fuel (__init__ bs ms mc) = Some r →
  ∃ start,
    levels_inv bs ms mc start ∧ level_done bs ms start
    ∧ raises_only (zero_support ms) r
        (λ self,
           frame start self
           ∧ rule_list self
             = rules_of bs (rule_keys (freq_list start)) (conseq_dict self)
           ∧ (∀ f, f ∉ rule_keys (freq_list start) →
                conseq_dict self !! f = None)
           ∧ (∀ (i : nat) level f,
                freq_list start !! i = Some level → (0 < i)%nat →
                f ∈ level →
                ∃ final, conseq_dict self !! f = Some final
                         ∧ conseq_levels_done bs mc f i final)).
Proof.
  intros Hrun. pose proof (apriori_spec bs ms mc fuel) as Hspec.
  rewrite Hrun in Hspec.
  destruct Hspec as (start & _ & Hinv & Hno & Hdone & -> & _).
  exists start. split; [done|]. split; [done|].
  eapply raises_only_mono; [by apply (rule_phase_exact bs ms mc)|].
  intros self (? & _ & ? & ? & ?). done.
Qed.

Lemma elem_of_tail_levels (levels : list (list (gset Item))) f :
  f ∈ concat (tail levels)
  ↔ ∃ (i : nat) level, levels !! i = Some level ∧ (0 < i)%nat ∧ f ∈ level.
Proof.
  rewrite elem_of_concat. split.
  - intros (level & [i Hi]%list_elem_of_lookup & Hf).
    rewrite lookup_tail in Hi. exists (S i), level. split; [done|].
    split; [lia|done].
  - intros (i & level & Hi & Hpos & Hf). exists level. split; [|done].
    destruct i as [|i]; [lia|]. apply (list_elem_of_lookup_2 _ i).
    by rewrite lookup_tail.
Qed.

(** The object a run returned: the levels of the first loop, and the
    consequences and rules of the second. *)
Lemma returned_exact bs ms mc (fuel : nat) self :
  apriori fuel (__init__ bs ms mc) = Some (Ok self) →
  levels_inv bs ms mc self ∧ level_done bs ms self
  ∧ rule_list self
    = rules_of bs (concat (tail (freq_list self))) (conseq_dict self)
  ∧ (∀ f, f ∉ concat (tail (freq_list self)) → conseq_dict self !! f = None)
  ∧ (∀ (i : nat) level f,
       freq_list self !! i = Some level → (0 < i)%nat → f ∈ level →
       ∃ final, conseq_dict self !! f = Some final
                ∧ conseq_levels_done bs mc f i final).
Proof.
  intros Hrun. destruct (returned_levels _ _ _ _ _ Hrun) as [Hinv Hdone].
  destruct (apriori_exact _ _ _ _ _ Hrun)
    as (start & _ & _ & Hframe & Hrl & Hout & Hin).
  rewrite rule_keys_tail, <- (frame_freq_list _ _ Hframe) in Hrl, Hout.
  setoid_rewrite <- (frame_freq_list _ _ Hframe) in Hin. done.
Qed.

Lemma subset_size_lt (c freq : gset Item) :
  c ⊆ freq → c ≠ freq → (size c < size freq)%nat.
Proof.
  intros Hsub Hne. apply subset_size. split; [done|]. intros Hsup.
  apply Hne. apply set_eq. intros x. split; [apply Hsub|apply Hsup].
Qed.

(** With confidence that does not grow when a consequence grows, every
    confident consequence of [freq] is in the level of its size. *)
Lemma conseq_level_found bs mc freq (i : nat) final :
  conseq_levels_done bs mc freq i final → size freq = S i →
  (∀ c c' : gset Item, c' ⊆ c → c ⊆ freq →
     confident bs mc freq c → confident bs mc freq c') →
  ∀ (t : nat) c, size c = S t → c ⊆ freq → c ≠ freq →
    confident bs mc freq c →
    ∃ lvl, final !! t = Some lvl ∧ c ∈ lvl.
Proof.
  intros (Hlen & Hexact & Hclosed & _) Hsize Hmono.
  assert (∀ (t : nat) c, (t < i)%nat → (t ≤ length final)%nat →
            c ∈ conseq_cands freq t final → confident bs mc freq c →
            ∃ lvl, final !! t = Some lvl ∧ c ∈ lvl) as Hstep.
  { intros t c Hti Htl Hc Hconf.
    destruct (final !! t) as [lvl|] eqn:Ht.
    - exists lvl. split; [done|]. destruct (Hexact t lvl Ht) as [_ ->].
      by apply list_elem_of_filter.
    - apply lookup_ge_None in Ht.
      assert (t = length final) as -> by lia.
      assert (c ∈ filter (confident bs mc freq)
                    (conseq_cands freq (length final) final)) as Hin
        by (by apply list_elem_of_filter).
      rewrite Hclosed in Hin by done. by apply elem_of_nil in Hin. }
  induction t as [|t IH]; intros c Hsz Hsub Hne Hconf;
    pose proof (subset_size_lt c freq Hsub Hne) as Hlt.
  - apply Hstep; [lia|lia| |done]. cbn [conseq_cands].
    apply size_1_elem_of in Hsz as [x Hx]. apply leibniz_equiv in Hx.
    subst c. apply list_elem_of_fmap. exists x. split; [done|].
    apply elem_of_elements. set_solver.
  - destruct (size_pos_elem_of c) as [x Hx]; [lia|].
    destruct (size_pos_elem_of (c ∖ {[x]})) as [y Hy].
    { rewrite size_difference by set_solver. rewrite size_singleton. lia. }
    assert (size (c ∖ {[x]}) = S t) as Hsx.
    { rewrite size_difference by set_solver. rewrite size_singleton. lia. }
    assert (size (c ∖ {[y]}) = S t) as Hsy.
    { rewrite size_difference by set_solver. rewrite size_singleton. lia. }
    assert (∀ z, c ∖ {[z]} ⊆ freq) as Hsubz by set_solver.
    assert (∀ z, size (c ∖ {[z]}) = S t → c ∖ {[z]} ≠ freq) as Hnez.
    { intros z Hz Heq. rewrite Heq in Hz. lia. }
    destruct (IH (c ∖ {[x]})) as (lvl & Hlvl & Hin1); [done|done|auto| |].
    { apply (Hmono c); [set_solver|done|done]. }
    destruct (IH (c ∖ {[y]})) as (lvl' & Hlvl' & Hin2); [done|done|auto| |].
    { apply (Hmono c); [set_solver|done|done]. }
    rewrite Hlvl in Hlvl'. injection Hlvl' as <-.
    apply Hstep; [lia| |  |done].
    { apply lookup_lt_Some in Hlvl. lia. }
    cbn [conseq_cands]. rewrite Hlvl. cbn [default].
    apply list_elem_of_filter. split; [done|].
    assert (c = (c ∖ {[x]}) ∪ (c ∖ {[y]})) as Hunion.
    { apply set_eq. intros z.
      rewrite elem_of_union, !elem_of_difference, !elem_of_singleton.
      split; [|tauto]. intros Hz.
      destruct (decide (z = x)) as [->|?]; [|tauto].
      right. split; [done|]. set_solver. }
    apply list_elem_of_lookup in Hin1 as [p1 Hp1], Hin2 as [p2 Hp2].
    assert (p1 ≠ p2) as Hp.
    { intros ->. rewrite Hp1 in Hp2. injection Hp2 as Heq.
      assert (y ∈ c ∖ {[x]}) as Hy' by done. rewrite Heq in Hy'.
      set_solver. }
    apply list_elem_of_fmap.
    destruct (decide (p1 < p2)%nat) as [Hlt12|Hge12].
    + exists (c ∖ {[x]}, c ∖ {[y]}). split; [done|].
      apply elem_of_join_pairs. exists p1, p2. done.
    + exists (c ∖ {[y]}, c ∖ {[x]}). cbn [fst snd].
      split; [by rewrite (union_comm_L (c ∖ {[y]}))|].
      apply elem_of_join_pairs. exists p2, p1. split; [lia|done].
Qed.

Lemma support_positive bs ms c :
  SFltb f0_0 ms = true → frequent bs ms c →
  float_is_zero (support bs c) = false ∧ 1 ≤ count bs c ∧ bs ≠ [].
Proof.
  intros Hms Hfr. pose proof (float_ge_zero_lt ms _ Hms Hfr) as Hnz.
  split; [done|]. pose proof (count_bounds bs c) as Hc.
  assert (bs ≠ []) as Hbs.
  { intros ->. by destruct ms. }
  split; [|done].
  destruct (Z.eq_dec (count bs c) 0) as [Hz|?]; [|lia].
  unfold support in Hnz. rewrite Hz, int_div_zero in Hnz; [done|].
  destruct bs; [done|simpl; lia].
Qed.

(** The confidence of a rule does not grow when its consequence does. *)
Lemma confident_sub bs ms mc freq (c c' : gset Item) :
  SFltb f0_0 ms = true → frequent bs ms freq →
  c' ⊆ c → confident bs mc freq c → confident bs mc freq c'.
Proof.
  intros Hms Hfr Hsub Hconf.
  destruct (support_positive bs ms freq Hms Hfr) as (Hnz & Hpos & Hbs).
  unfold confident, confidence in *.
  pose proof (count_bounds bs (freq ∖ c)) as Hb.
  pose proof (count_anti bs (freq ∖ c) (freq ∖ c') ltac:(set_solver)) as H1.
  pose proof (count_anti bs (freq ∖ c') freq ltac:(set_solver)) as H2.
  destruct (int_quot_div_anti (count bs freq) (count bs (freq ∖ c'))
              (count bs (freq ∖ c)) (Z.of_nat (length bs)))
    as [Hanti _]; [lia..|done|].
  by eapply float_ge_trans.
Qed.

Lemma difference_union_id (freq conseq : gset Item) :
  conseq ⊆ freq → (freq ∖ conseq) ∪ conseq = freq.
Proof.
  intros Hsub. apply set_eq. intros x.
  rewrite elem_of_union, elem_of_difference.
  destruct (decide (x ∈ conseq)); set_solver.
Qed.

Lemma union_difference_id (ante conseq : gset Item) :
  ante ## conseq → (ante ∪ conseq) ∖ conseq = ante.
Proof. intros Hdisj. set_solver. Qed.

(** X8: in the object a run returned, the keys of [conseq_dict] are the
    frequent itemsets of two items or more, and [rule_list] is what
    [conseq_dict] holds, in order: key by key in the order of [freq_list],
    level by level, consequence by consequence, the rule from the key
    without the consequence to the consequence, with the quotient of the
    two supports as confidence.  Level [t] of a key holds parts of the key
    of [t + 1] items whose confidence is [>= min_conf], and is not
    empty. *)
Theorem rule_list_follows_conseq_dict bs ms mc (fuel : nat) self :
  apriori fuel (__init__ bs ms mc) = Some (Ok self) →
  dom (conseq_dict self) = list_to_set (concat (tail (freq_list self)))
  ∧ rule_list self
    = rules_of bs (concat (tail (freq_list self))) (conseq_dict self)
  ∧ ∀ freq clevels (t : nat) lvl,
      conseq_dict self !! freq = Some clevels → clevels !! t = Some lvl →
      lvl ≠ []
      ∧ ∀ conseq, conseq ∈ lvl →
          conseq ⊆ freq ∧ size conseq = S t
          ∧ float_ge (confidence bs freq conseq) mc = true.
Proof.
  intros (Hinv & Hdone & Hrl & Hout & Hin)%returned_exact.
  split; [|split; [done|]].
  - apply set_eq. intros f. rewrite elem_of_dom, elem_of_list_to_set. split.
    + intros [clevels Hf].
      destruct (decide (f ∈ concat (tail (freq_list self)))) as [|Hn];
        [done|].
      rewrite (Hout f Hn) in Hf. done.
    + intros (i & level & Hi & Hpos & Hf)%elem_of_tail_levels.
      destruct (Hin i level f Hi Hpos Hf) as (final & -> & _). eauto.
  - intros freq clevels t lvl Hd Ht.
    destruct (decide (freq ∈ concat (tail (freq_list self)))) as [Hk|Hn].
    2:{ rewrite (Hout freq Hn) in Hd. done. }
    apply elem_of_tail_levels in Hk as (i & level & Hi & Hpos & Hf).
    destruct (Hin i level freq Hi Hpos Hf) as (final & Hd' & _ & Hexact & _).
    rewrite Hd in Hd'. injection Hd' as <-.
    destruct (Hexact t lvl Ht) as [Hne Hlvl]. split; [done|].
    intros conseq Hc. rewrite Hlvl in Hc.
    apply list_elem_of_filter in Hc as [Hconf Hc].
    destruct (conseq_cands_sizes bs mc freq clevels Hexact t conseq Hc).
    done.
Qed.

Lemma rules_characterised bs ms mc (fuel : nat) self :
  SFltb f0_0 ms = true →
  apriori fuel (__init__ bs ms mc) = Some (Ok self) →
  ∀ (ante conseq : gset Item) (conf : float),
    (ante, conseq, conf) ∈ rule_list self
    ↔ ante ≠ ∅ ∧ conseq ≠ ∅ ∧ ante ## conseq
      ∧ ante ∪ conseq ⊆ ⋃ bs
      ∧ float_ge (support bs (ante ∪ conseq)) ms = true
      ∧ conf = SFdiv prec emax (support bs (ante ∪ conseq))
                 (support bs ante)
      ∧ float_ge conf mc = true.
Proof.
  intros Hms (Hinv & Hdone & Hrl & Hout & Hin)%returned_exact
    ante conseq conf.
  rewrite Hrl, elem_of_rules_of. split.
  - intros (freq & clevels & lvl & c & Hkey & Hd & Hlvl & Hc & Hr).
    injection Hr as -> -> ->.
    apply elem_of_tail_levels in Hkey as (i & level & Hi & Hpos & Hf).
    destruct (Hin i level freq Hi Hpos Hf)
      as (final & Hd' & Hlen & Hexact & _).
    rewrite Hd in Hd'. injection Hd' as <-.
    apply list_elem_of_lookup in Hlvl as [t Ht].
    destruct (Hexact t lvl Ht) as [_ Heq]. rewrite Heq in Hc.
    apply list_elem_of_filter in Hc as [Hconf Hc].
    destruct (conseq_cands_sizes bs mc freq clevels Hexact t c Hc)
      as [Hsub Hsz].
    destruct (levels_inv_freq_size _ _ _ _ _ _ _ Hinv Hi Hf)
      as (Hsize & HU & Hfr & _).
    apply lookup_lt_Some in Ht.
    rewrite (difference_union_id freq c Hsub).
    split.
    { intros Hempty.
      assert (size (freq ∖ c) = 0%nat) as Hz
        by (rewrite Hempty; apply size_empty).
      rewrite size_difference in Hz by done. lia. }
    split; [intros ->; by rewrite size_empty in Hsz|].
    split; [set_solver|]. done.
  - intros (Hne_a & Hne_c & Hdisj & HU & Hfr & -> & Hconf).
    set (freq := ante ∪ conseq) in *.
    assert (freq ∖ conseq = ante) as Hante
      by (by apply union_difference_id).
    assert (conseq ⊆ freq) as Hsub by set_solver.
    assert (conseq ≠ freq) as Hneq.
    { intros Heq. apply Hne_a. rewrite <- Hante, <- Heq. set_solver. }
    pose proof (subset_size_lt conseq freq Hsub Hneq) as Hlt.
    destruct (size conseq) as [|t] eqn:Hsz.
    { by apply size_empty_inv, leibniz_equiv in Hsz. }
    destruct (size freq) as [|i] eqn:Hsize; [lia|].
    destruct (proj2 (elem_of_freq_level bs ms mc self i freq Hinv Hdone))
      as (level & Hi & Hf); [done|].
    destruct (Hin i level freq Hi ltac:(lia) Hf) as (final & Hd & Hfinal).
    assert (confident bs mc freq conseq) as Hc.
    { unfold confident, confidence. by rewrite Hante. }
    destruct (conseq_level_found bs mc freq i final Hfinal Hsize) with
      (t := t) (c := conseq) as (lvl & Hlvl & Hin_lvl); try done.
    { intros c c' Hcc' _ Hcf. by apply (confident_sub bs ms mc freq c c'). }
    exists freq, final, lvl, conseq. split.
    { apply elem_of_tail_levels. exists i, level. split; [done|].
      split; [lia|done]. }
    split; [done|]. split; [by eapply list_elem_of_lookup_2|].
    split; [done|]. unfold rule_of, confidence. by rewrite Hante.
Qed.

(** X9: with [0 < min_supp], the rules of a run that returned are exactly
    the confident rules over the frequent itemsets.  A triple
    [(ante, conseq, conf)] is in [rule_list] exactly when [ante] and
    [conseq] are not empty and share no item, their union is made of items
    of the baskets and has a support ratio [>= min_supp], [conf] is the
    support of the union divided by the support of [ante], and
    [conf >= min_conf]. *)
Theorem rules_found bs ms mc (fuel : nat) self :
  SFltb f0_0 ms = true →
  apriori fuel (__init__ bs ms mc) = Some (Ok self) →
  ∀ (ante conseq : gset Item) (conf : float),
    (ante, conseq, conf) ∈ rule_list self
    ↔ ante ≠ ∅ ∧ conseq ≠ ∅ ∧ ante ## conseq
      ∧ ante ∪ conseq ⊆ ⋃ bs
      ∧ float_ge (support bs (ante ∪ conseq)) ms = true
      ∧ conf = SFdiv prec emax (support bs (ante ∪ conseq))
                 (support bs ante)
      ∧ float_ge conf mc = true.
Proof. apply rules_characterised. Qed.

Lemma empty_run (ms mc : float) (fuel : nat) :
  apriori (S fuel) (__init__ ([] : list (gset Item)) ms mc)
  = Some (Ok (__init__ [] ms mc)).
Proof.
  unfold apriori. cbn [level_loop]. rewrite gen_cands_0.
  cbn [baskets __init__]. unfold new_cand_level.
  rewrite (bool_decide_false (singletons [] ≠ ∅))
    by (intros Hne; by apply Hne).
  by rewrite bool_decide_true by (simpl; lia).
Qed.

(** X10: the only exception a run raises is [ZeroDivisionError], never a
    [KeyError] or an [IndexError], and it raises it only when [min_supp]
    is not above zero. *)
Theorem apriori_raises_only_zero_division bs ms mc (fuel : nat) e :
  apriori fuel (__init__ bs ms mc) = Some (Raise e) →
  e = ZeroDivisionError ∧ SFltb f0_0 ms = false ∧ bs ≠ [].
Proof.
  intros Hrun.
  destruct (apriori_exact _ _ _ _ _ Hrun) as (_ & _ & _ & -> & Hms).
  split; [done|]. split; [done|]. intros ->.
  destruct fuel as [|fuel]; [done|].
  by rewrite (empty_run ms mc fuel) in Hrun.
Qed.

(** X11: in the object a run returned, the confidence of every rule is a
    double between [0.0] and [1.0], and it is [>= min_conf]. *)
Theorem confidences_are_ratios bs ms mc (fuel : nat) self :
  apriori fuel (__init__ bs ms mc) = Some (Ok self) →
  ∀ (ante conseq : gset Item) (conf : float),
    (ante, conseq, conf) ∈ rule_list self →
    float_ge conf f0_0 = true ∧ float_ge f1_0 conf = true
    ∧ float_ge conf mc = true.
Proof.
  intros (Hinv & Hdone & Hrl & Hout & Hin)%returned_exact ante conseq conf.
  rewrite Hrl, elem_of_rules_of.
  intros (freq & clevels & lvl & c & Hkey & Hd & Hlvl & Hc & Hr).
  injection Hr as -> -> ->.
  apply elem_of_tail_levels in Hkey as (i & level & Hi & Hpos & Hf).
  destruct (Hin i level freq Hi Hpos Hf) as (final & Hd' & _ & Hexact & _).
  rewrite Hd in Hd'. injection Hd' as <-.
  apply list_elem_of_lookup in Hlvl as [t Ht].
  destruct (Hexact t lvl Ht) as [_ Heq]. rewrite Heq in Hc.
  apply list_elem_of_filter in Hc as [Hconf _].
  destruct (levels_inv_freq_size _ _ _ _ _ _ _ Hinv Hi Hf)
    as (_ & _ & _ & cands & Hcands & _).
  pose proof (levels_inv_nonempty _ _ _ _ _ _ Hinv Hcands) as Hbs.
  pose proof (count_bounds bs (freq ∖ c)) as Hb.
  pose proof (count_bounds bs freq) as Ha.
  pose proof (count_anti bs (freq ∖ c) freq ltac:(set_solver)) as Hab.
  unfold confident in Hconf. unfold confidence, support in *.
  destruct (int_quot_div_range (count bs freq) (count bs (freq ∖ c))
              (Z.of_nat (length bs))) as [Hnan|[? ?]]; try lia.
  { destruct bs; [done|simpl; lia]. }
  { by rewrite Hnan in Hconf. }
  done.
Qed.

Lemma count_zero bs (c : gset Item) :
  (∀ b, b ∈ bs → ¬ c ⊆ b) → count bs c = 0.
Proof.
  intros Hnone. unfold count. by rewrite filter_none.
Qed.

Lemma count_pos bs (c : gset Item) :
  1 ≤ count bs c → ∃ b, b ∈ bs ∧ c ⊆ b.
Proof.
  unfold count. destruct (filter (λ b, c ⊆ b) bs) as [|b l] eqn:Hf;
    [simpl; lia|].
  intros _. exists b.
  assert (b ∈ filter (λ b, c ⊆ b) bs) as Hb by (rewrite Hf; left).
  apply list_elem_of_filter in Hb as [? ?]. done.
Qed.

(** With enough fuel the run ends. *)
Lemma apriori_ends bs ms mc (fuel : nat) :
  (size (⋃ bs) < fuel)%nat →
  ∃ r, apriori fuel (__init__ bs ms mc) = Some r.
Proof.
  intros Hfuel. pose proof (apriori_spec bs ms mc fuel) as Hspec.
  destruct (apriori fuel (__init__ bs ms mc)) as [r|]; [by exists r|lia].
Qed.

(** X12: a [min_supp] of zero or less makes the run divide by zero as soon
    as the baskets hold three items of which two are never together.
    All sets of items are then frequent, the set of the three items is
    examined for rules, and the antecedent made of the two items that are
    never together has the support [0.0]: the run raises
    [ZeroDivisionError]. *)
Theorem zero_threshold_divides_by_zero bs ms mc (x y z : Item)
    (fuel : nat) :
  float_ge f0_0 ms = true →
  x ≠ y → x ≠ z → y ≠ z → x ∈ ⋃ bs → y ∈ ⋃ bs → z ∈ ⋃ bs →
  (∀ b, b ∈ bs → ¬ {[x; y]} ⊆ b) →
  (size (⋃ bs) < fuel)%nat →
  apriori fuel (__init__ bs ms mc) = Some (Raise ZeroDivisionError).
Proof.
  intros Hms Hxy Hxz Hyz Hx Hy Hz Hnever Hfuel.
  destruct (apriori_ends bs ms mc fuel Hfuel) as [[self|e] Hrun].
  2:{ destruct (apriori_exact _ _ _ _ _ Hrun) as (_ & _ & _ & -> & _).
      done. }
  exfalso.
  destruct (returned_exact _ _ _ _ _ Hrun) as (Hinv & Hdone & _ & _ & Hin).
  assert (bs ≠ []) as Hbs by (intros ->; set_solver).
  set (freq := ({[x; y; z]} : gset Item)).
  assert (size freq = 3%nat) as Hsize.
  { unfold freq. rewrite !size_union by set_solver.
    by rewrite !size_singleton. }
  assert (frequent bs ms freq) as Hfr.
  { unfold frequent. eapply float_ge_trans; [|done].
    by destruct (support_range bs freq Hbs). }
  destruct (proj2 (elem_of_freq_level bs ms mc self 2 freq Hinv Hdone))
    as (level & Hi & Hf).
  { split; [done|]. split; [|done]. unfold freq. set_solver. }
  destruct (Hin 2%nat level freq Hi ltac:(lia) Hf)
    as (final & _ & _ & _ & _ & Hchk).
  assert (float_is_zero (support bs (freq ∖ {[z]})) = false) as Hnz.
  { apply (Hchk 0%nat {[z]}); [lia|]. cbn [conseq_cands].
    apply list_elem_of_fmap. exists z. split; [done|].
    apply elem_of_elements. unfold freq. set_solver. }
  assert (freq ∖ {[z]} = {[x; y]}) as Hante by (unfold freq; set_solver).
  rewrite Hante in Hnz. unfold support in Hnz.
  rewrite (count_zero bs {[x; y]} Hnever), int_div_zero in Hnz; [done|].
  destruct bs; [done|simpl; lia].
Qed.

(** X13: with [0 < min_supp], every frequent itemset of a run that
    returned is part of at least one basket, so that no frequent itemset
    has more items than the largest basket. *)
Theorem frequent_itemsets_occur bs ms mc (fuel : nat) self :
  SFltb f0_0 ms = true →
  apriori fuel (__init__ bs ms mc) = Some (Ok self) →
  ∀ c, c ∈ concat (freq_list self) →
    ∃ b, b ∈ bs ∧ c ⊆ b ∧ (size c ≤ size b)%nat.
Proof.
  intros Hms [Hinv Hdone]%returned_levels c Hc.
  apply (elem_of_freq_list bs ms mc) in Hc as (_ & _ & Hfr); [|done..].
  destruct (support_positive bs ms c Hms Hfr) as (_ & Hpos & _).
  destruct (count_pos bs c Hpos) as (b & Hb & Hsub).
  exists b. split; [done|]. split; [done|]. by apply subseteq_size.
Qed.

(** X14: with a [min_supp] of zero or less, every non-empty set of items
    of the baskets is a frequent itemset of a run that returned, those
    that no basket contains too: there are as many frequent levels as the
    baskets have items. *)
Theorem zero_threshold_keeps_everything bs ms mc (fuel : nat) self :
  float_ge f0_0 ms = true →
  apriori fuel (__init__ bs ms mc) = Some (Ok self) →
  (∀ c, c ∈ concat (freq_list self) ↔ c ≠ ∅ ∧ c ⊆ ⋃ bs)
  ∧ length (freq_list self) = size (⋃ bs).
Proof.
  intros Hms [Hinv Hdone]%returned_levels.
  assert (∀ c, c ≠ ∅ → c ⊆ ⋃ bs → frequent bs ms c) as Hall.
  { intros c Hne HU. unfold frequent. eapply float_ge_trans; [|done].
    apply support_range. intros ->. set_solver. }
  split.
  - intros c. rewrite (elem_of_freq_list bs ms mc) by done.
    split; [by intros (? & ? & _)|]. intros [? ?]. auto.
  - apply Nat.le_antisymm; [by eapply levels_inv_bound|].
    destruct (size (⋃ bs)) as [|t] eqn:Hsize; [lia|].
    destruct (proj2 (elem_of_freq_level bs ms mc self t (⋃ bs) Hinv Hdone))
      as (level & Hi & _).
    { split; [done|]. split; [done|]. apply Hall; [|done].
      intros Hempty. rewrite Hempty, size_empty in Hsize. lia. }
    apply lookup_lt_Some in Hi. lia.
Qed.

(** X15: stricter thresholds find no new rule.  When [0 < ms], [ms' >= ms]
    and [mc' >= mc], every rule of a run with [ms'] and [mc'] that
    returned is a rule of a run with [ms] and [mc] on the same baskets. *)
Theorem stricter_thresholds_find_fewer_rules bs ms ms' mc mc'
    (fuel fuel' : nat) self self' :
  SFltb f0_0 ms = true → float_ge ms' ms = true → float_ge mc' mc = true →
  apriori fuel (__init__ bs ms mc) = Some (Ok self) →
  apriori fuel' (__init__ bs ms' mc') = Some (Ok self') →
  ∀ r, r ∈ rule_list self' → r ∈ rule_list self.
Proof.
  intros Hms Hms' Hmc Hrun Hrun' [[ante conseq] conf].
  pose proof (float_gt_zero_trans ms ms' Hms Hms') as Hpos'.
  rewrite (rules_characterised bs ms' mc' fuel' self' Hpos' Hrun').
  rewrite (rules_characterised bs ms mc fuel self Hms Hrun).
  intros (? & ? & ? & ? & Hfr & ? & Hconf). split_and!; try done.
  - by eapply float_ge_trans.
  - by eapply float_ge_trans.
Qed.

(** X16: the order of the baskets does not matter to the rules found.
    With [0 < min_supp], two runs that returned, on the same baskets in two
    orders with the same thresholds, have the same rules. *)
Theorem rules_ignore_basket_order bs bs' ms mc
    (fuel fuel' : nat) self self' :
  SFltb f0_0 ms = true → bs ≡ₚ bs' →
  apriori fuel (__init__ bs ms mc) = Some (Ok self) →
  apriori fuel' (__init__ bs' ms mc) = Some (Ok self') →
  ∀ r, r ∈ rule_list self' ↔ r ∈ rule_list self.
Proof.
  intros Hms Hp Hrun Hrun' [[ante conseq] conf].
  rewrite (rules_characterised bs' ms mc fuel' self' Hms Hrun').
  rewrite (rules_characterised bs ms mc fuel self Hms Hrun).
  by rewrite !(support_Permutation bs bs' _ Hp),
    (union_list_Permutation bs bs' Hp).
Qed.

End Rules_results.

(** ** Methods called on any object *)

Section Methods_proofs.
Context {Item : Type} `{Countable Item}.
Implicit Types (self : @Apriori Item _ _).

Lemma getitem_read {A} (l : list A) (k : nat) :
  getitem l (Z.of_nat k - 1)
  = match read_level l k with
    | Some x => Ok x
    | None => Raise IndexError
    end.
Proof.
  destruct k as [|k]; [|apply getitem_pred].
  unfold getitem, read_level. change (Z.of_nat 0 - 1) with (-1).
  cbn [Z.ltb Z.compare]. rewrite last_lookup.
  destruct l as [|x l]; [done|].
  destruct (Z.ltb_spec (-1 + Z.of_nat (length (x :: l))) 0) as [Hlt|_].
  { simpl length in Hlt. lia. }
  replace (Z.to_nat (-1 + Z.of_nat (length (x :: l))))
    with (pred (length (x :: l))) by (simpl length; lia).
  done.
Qed.

(** [gen_freqs] as one equation of the model, with its candidates in the
    order of [elements]. *)
Lemma gen_freqs_run self (k : nat) :
  match read_level (cand_list self) k with
  | None => gen_freqs k self = Raise IndexError
  | Some cands =>
      if decide (cands = ∅) then gen_freqs k self = Ok self
      else if decide (n_baskets self = 0)
      then gen_freqs k self = Raise ZeroDivisionError
      else
        let kept := filter (λ c, float_ge (ratio self c) (min_supp self)
                                 = true) (elements cands) in
        gen_freqs k self
        = Ok (new_freq_level kept
                (foldl (λ self' c, bind_supp c (ratio self c) self')
                       self kept))
  end.
Proof.
  unfold gen_freqs. pose proof (getitem_read (cand_list self) k) as Hget.
  revert Hget. generalize (getitem (cand_list self) (Z.of_nat k - 1)).
  intros get Hget.
  destruct (read_level (cand_list self) k) as [cands|]; [|by subst get].
  destruct (gen_freqs_count get cands (baskets self) (λ _, 0))
    as (g & Hcount & Hg); [done|].
  rewrite (bind_Ok get cands _ Hget). cbv beta zeta.
  change ((λ k0 : gset Item, (k0, 0)) <$> elements cands)
    with (tally (λ _, 0) (elements cands)).
  rewrite Hcount. cbn [mbind outcome_bind].
  destruct (decide (cands = ∅)) as [->|Hne].
  { by rewrite elements_empty. }
  destruct (decide (n_baskets self = 0)) as [Hz|Hnz].
  - destruct (elements cands) as [|c l] eqn:Hel.
    { by apply elements_empty_inv, leibniz_equiv in Hel. }
    cbn [tally fmap list_fmap for_each]. unfold int_truediv.
    by rewrite Hz.
  - rewrite (gen_freqs_filter (n_baskets self) (min_supp self)
               (ratio self)); [|done|done|done|].
    + cbn [mbind outcome_bind app]. unfold new_freq_level.
      by destruct (filter _ _).
    + intros c Hc. unfold ratio.
      by rewrite Hg by (by apply elem_of_elements).
Qed.

Lemma bind_ratios_fields (f : gset Item → float) kept self :
  let self' := foldl (λ self' c, bind_supp c (f c) self') self kept in
  baskets self' = baskets self ∧ n_baskets self' = n_baskets self
  ∧ min_supp self' = min_supp self ∧ min_conf self' = min_conf self
  ∧ cand_list self' = cand_list self ∧ freq_list self' = freq_list self
  ∧ conseq_dict self' = conseq_dict self ∧ rule_list self' = rule_list self
  ∧ ∀ c, supp_dict self' !! c
         = if decide (c ∈ kept) then Some (f c) else supp_dict self !! c.
Proof.
  induction kept as [|x kept IH] using rev_ind; cbv zeta.
  - by split_and!.
  - cbv zeta in IH. rewrite foldl_app. cbn [foldl].
    destruct IH as (? & ? & ? & ? & ? & ? & ? & ? & IH).
    split_and!; try done. intros c. cbn [supp_dict bind_supp].
    destruct (decide (c = x)) as [->|Hne].
    + rewrite lookup_insert_eq.
      rewrite decide_True; [done|]. apply elem_of_app. right. left.
    + rewrite lookup_insert_ne by done. rewrite IH.
      destruct (decide (c ∈ kept)) as [Hin|Hout].
      * rewrite decide_True; [done|]. apply elem_of_app. by left.
      * rewrite decide_False; [done|].
        intros [?|?%list_elem_of_singleton]%elem_of_app; done.
Qed.

(** X17: what [gen_freqs k] does on any object, for [k >= 0].  It reads
    the candidate level [cand_list[k - 1]], the last one when [k = 0], and
    raises [IndexError] when there is none.  A level without candidates
    leaves the object as it is.  Else it raises [ZeroDivisionError] when
    [n_baskets] is zero, and otherwise keeps, once each, the candidates
    whose count divided by [n_baskets] is [>= min_supp], binds each to
    that quotient in [supp_dict], and appends them to [freq_list] as one
    level when there are some; the other collections and the settings are
    not touched.  The quotient is the double nearest to the count divided
    by [n_baskets], when the count does not exceed [n_baskets]. *)
Theorem gen_freqs_outcome self (k : nat) :
  match read_level (cand_list self) k with
  | None => gen_freqs k self = Raise IndexError
  | Some cands =>
      if decide (cands = ∅) then gen_freqs k self = Ok self
      else if decide (n_baskets self = 0)
      then gen_freqs k self = Raise ZeroDivisionError
      else ∃ self' (kept : list (gset Item)),
        gen_freqs k self = Ok self'
        ∧ NoDup kept
        ∧ (∀ c, c ∈ kept ↔
             c ∈ cands ∧ float_ge (ratio self c) (min_supp self) = true)
        ∧ freq_list self'
          = (if decide (kept = []) then freq_list self
             else freq_list self ++ [kept])
        ∧ (∀ c, supp_dict self' !! c
                = if decide (c ∈ kept) then Some (ratio self c)
                  else supp_dict self !! c)
        ∧ (∀ c, count (baskets self) c ≤ n_baskets self →
             rounds_to (count (baskets self) c) (n_baskets self)
               (ratio self c))
        ∧ baskets self' = baskets self ∧ n_baskets self' = n_baskets self
        ∧ min_supp self' = min_supp self ∧ min_conf self' = min_conf self
        ∧ cand_list self' = cand_list self
        ∧ conseq_dict self' = conseq_dict self
        ∧ rule_list self' = rule_list self
  end.
Proof.
  pose proof (gen_freqs_run self k) as Hrun.
  destruct (read_level (cand_list self) k) as [cands|]; [|done].
  destruct (decide (cands = ∅)); [done|].
  destruct (decide (n_baskets self = 0)) as [|Hnz]; [done|].
  cbv zeta in Hrun.
  set (kept := filter (λ c, float_ge (ratio self c) (min_supp self) = true)
                      (elements cands)) in *.
  pose proof (bind_ratios_fields (ratio self) kept self) as Hbind.
  pose proof (new_freq_level_fields kept
    (foldl (λ self' c, bind_supp c (ratio self c) self') self kept)) as Hnew.
  cbv zeta in Hbind, Hnew.
  destruct Hbind as (Hb1 & Hb2 & Hb3 & Hb4 & Hb5 & Hb6 & Hb7 & Hb8 & Hb9).
  destruct Hnew
    as (Hn1 & Hn2 & Hn3 & Hn4 & Hn5 & Hn6 & Hn7 & Hn8 & _ & _ & Hn11).
  eexists _, kept. split; [exact Hrun|].
  split; [apply NoDup_filter, NoDup_elements|].
  split.
  { intros c. unfold kept. by rewrite list_elem_of_filter, elem_of_elements,
      (comm (∧)). }
  split; [by rewrite Hn11, Hb6|].
  split; [intros c; by rewrite Hn6, Hb9|].
  split.
  { intros c Hle. unfold ratio.
    assert (0 ≤ count (baskets self) c) as Hc by (unfold count; lia).
    destruct (decide (count (baskets self) c = 0)) as [Hz|Hpos].
    - rewrite Hz, int_div_zero by lia. left. split; [done|lia].
    - apply int_div_rounds. lia. }
  split_and!; congruence.
Qed.

(** X18: what [gen_cands k] does on any object, for [k >= 0].  It raises
    [IndexError] exactly when [k >= 1] and [freq_list] has fewer than [k]
    levels, and raises nothing else.  When it returns it has changed
    [cand_list] at most, by appending one level that is not empty and that
    holds itemsets of [k + 1] items only. *)
Theorem gen_cands_outcome self (k : nat) :
  if decide (0 < k ∧ length (freq_list self) < k)%nat
  then gen_cands k self = Raise IndexError
  else ∃ cands : gset (gset Item),
    gen_cands k self
    = Ok (if decide (cands = ∅) then self
          else set_cand_list (cand_list self ++ [cands]) self)
    ∧ ∀ c, c ∈ cands → size c = S k.
Proof.
  destruct k as [|k].
  - rewrite decide_False by lia. exists (singletons (baskets self)).
    rewrite gen_cands_0. unfold new_cand_level. split.
    + destruct (decide (singletons (baskets self) = ∅)) as [He|He].
      * by rewrite bool_decide_false by (intros Hn; by apply Hn).
      * by rewrite bool_decide_true.
    + intros c (b & x & _ & _ & ->)%elem_of_singletons.
      apply size_singleton.
  - unfold gen_cands. rewrite bool_decide_false by done.
    rewrite getitem_pred.
    destruct (freq_list self !! k) as [level|] eqn:Hlevel.
    + rewrite decide_False
        by (apply lookup_lt_Some in Hlevel; lia).
      cbn [mbind outcome_bind].
      set (cands := foldl _ _ _).
      exists cands. split.
      * destruct (decide (cands = ∅)) as [He|He].
        -- by rewrite bool_decide_false by (intros Hn; by apply Hn).
        -- by rewrite bool_decide_true.
      * intros c Hc. unfold cands in Hc.
        apply elem_of_gen_cands_joins in Hc
          as (i & j & a & b & _ & _ & _ & _ & Hsz). lia.
    + rewrite decide_True; [done|].
      apply lookup_ge_None in Hlevel. lia.
Qed.

End Methods_proofs.

(** ** Rules appended more than once *)

Lemma twice_not_NoDup {A} (x : A) (l : list A) : twice x l → ¬ NoDup l.
Proof.
  intros (l1 & l2 & l3 & ->) (_ & _ & Hnd)%NoDup_app.
  apply NoDup_cons in Hnd as [Hx _]. apply Hx.
  apply elem_of_app. right. left.
Qed.

Lemma twice_app {A} (x : A) (l k1 k2 : list A) :
  twice x l → twice x (k1 ++ l ++ k2).
Proof.
  intros (l1 & l2 & l3 & ->). exists (k1 ++ l1), l2, (l3 ++ k2).
  by rewrite <- !app_assoc, <- !app_comm_cons, <- !app_assoc,
    <- !app_comm_cons.
Qed.

Lemma twice_fmap {A B} (f : A → B) (x : A) (l : list A) :
  twice x l → twice (f x) (f <$> l).
Proof.
  intros (l1 & l2 & l3 & ->). exists (f <$> l1), (f <$> l2), (f <$> l3).
  by rewrite !fmap_app, !fmap_cons, !fmap_app, !fmap_cons.
Qed.

Lemma twice_filter {A} (P : A → Prop) `{∀ x, Decision (P x)} (x : A)
    (l : list A) :
  P x → twice x l → twice x (filter P l).
Proof.
  intros HP (l1 & l2 & l3 & ->).
  exists (filter P l1), (filter P l2), (filter P l3).
  rewrite !filter_app, !filter_cons, !decide_True by done.
  by rewrite filter_app, filter_cons, decide_True.
Qed.

Lemma twice_bind {A B} (f : A → list B) (x : B) (y : A) (l : list A) :
  y ∈ l → twice x (f y) → twice x (l ≫= f).
Proof.
  intros (l1 & l2 & ->)%list_elem_of_split Hx.
  rewrite bind_app, bind_cons. by apply twice_app.
Qed.

(** Two different elements with the same image. *)
Lemma twice_fmap_2 {A B} (f : A → B) (u v : A) (l : list A) :
  u ∈ l → v ∈ l → u ≠ v → f u = f v → twice (f u) (f <$> l).
Proof.
  intros (l1 & l2 & ->)%list_elem_of_split Hv Huv Hf.
  apply elem_of_app in Hv as [Hv|Hv].
  - apply list_elem_of_split in Hv as (k1 & k2 & ->).
    exists (f <$> k1), (f <$> k2), (f <$> l2).
    rewrite !fmap_app, !fmap_cons, <- !app_assoc. simpl. by rewrite Hf.
  - apply elem_of_cons in Hv as [->|Hv]; [done|].
    apply list_elem_of_split in Hv as (k1 & k2 & ->).
    exists (f <$> l1), (f <$> k1), (f <$> k2).
    by rewrite !fmap_app, !fmap_cons, !fmap_app, !fmap_cons, Hf.
Qed.

Section Duplicates.
Context {Item : Type} `{Countable Item}.
Implicit Types (bs : list (gset Item)) (freq conseq : gset Item).

Lemma NoDup_enumerate {A} (l : list A) : NoDup (enumerate l).
Proof.
  apply NoDup_alt. intros i j [k x] Hi Hj. unfold enumerate in *.
  rewrite list_lookup_imap in Hi, Hj.
  destruct (l !! i) as [xi|]; [|done]. destruct (l !! j) as [xj|]; [|done].
  simpl in *. congruence.
Qed.

Lemma elem_of_if_singleton {A} (P : Prop) `{Decision P} (p q : A) :
  p ∈ (if bool_decide P then [q] else []) → P ∧ p = q.
Proof.
  case_bool_decide; [|by intros ?%elem_of_nil].
  by intros ->%list_elem_of_singleton.
Qed.

Lemma NoDup_join_pairs (l : list (gset Item)) :
  NoDup l → NoDup (join_pairs l).
Proof.
  intros Hnd. unfold join_pairs. apply NoDup_bind.
  - intros [i x] [i' x'] [a b] Hi Hi' Ha Ha'.
    apply elem_of_enumerate in Hi, Hi'.
    apply list_elem_of_bind in Ha as ([j y] & Ha & _).
    apply list_elem_of_bind in Ha' as ([j' y'] & Ha' & _).
    apply elem_of_if_singleton in Ha as [_ Ha], Ha' as [_ Ha'].
    simplify_eq. f_equal. by eapply (proj1 (NoDup_alt l) Hnd).
  - intros [i x] Hi. apply NoDup_bind.
    + intros [j y] [j' y'] [a b] Hj Hj' Ha Ha'.
      apply elem_of_enumerate in Hj, Hj'.
      apply elem_of_if_singleton in Ha as [_ Ha], Ha' as [_ Ha'].
      simplify_eq. f_equal. by eapply (proj1 (NoDup_alt l) Hnd).
    + intros [j y] _. case_bool_decide; [apply NoDup_singleton|constructor].
    + apply NoDup_enumerate.
  - apply NoDup_enumerate.
Qed.

(** Two different members of a list are joined, in one order or the
    other. *)
Lemma join_pairs_unordered (l : list (gset Item)) (a b : gset Item) :
  a ∈ l → b ∈ l → a ≠ b → (a, b) ∈ join_pairs l ∨ (b, a) ∈ join_pairs l.
Proof.
  intros [i Hi]%list_elem_of_lookup [j Hj]%list_elem_of_lookup Hab.
  destruct (Nat.lt_trichotomy i j) as [Hlt|[->|Hgt]].
  - left. apply elem_of_join_pairs. by exists i, j.
  - congruence.
  - right. apply elem_of_join_pairs. by exists j, i.
Qed.

(** The unions of the pairs of a list of different one-item sets are all
    different. *)
Lemma NoDup_join_unions (l : list (gset Item)) :
  NoDup l → (∀ a, a ∈ l → size a = 1%nat) →
  NoDup ((λ p, p.1 ∪ p.2) <$> join_pairs l).
Proof.
  intros Hnd Hone. apply NoDup_fmap_2_strong; [|by apply NoDup_join_pairs].
  intros [a b] [a' b'] Hab Hab' Heq. cbn [fst snd] in Heq.
  apply elem_of_join_pairs in Hab as (i & j & Hij & Hi & Hj).
  apply elem_of_join_pairs in Hab' as (i' & j' & Hij' & Hi' & Hj').
  pose proof (proj1 (NoDup_alt l) Hnd) as Hpos.
  assert (∀ c, c ∈ l → ∃ x : Item, c = {[x]}) as Hsingle.
  { intros c Hc. destruct (size_1_elem_of c (Hone c Hc)) as [x Hx].
    exists x. by apply leibniz_equiv. }
  destruct (Hsingle a) as [x ->]; [by eapply list_elem_of_lookup_2|].
  destruct (Hsingle b) as [y ->]; [by eapply list_elem_of_lookup_2|].
  destruct (Hsingle a') as [x' ->]; [by eapply list_elem_of_lookup_2|].
  destruct (Hsingle b') as [y' ->]; [by eapply list_elem_of_lookup_2|].
  assert (x = x' ∨ x = y') as Hx.
  { assert (x ∈ ({[x']} ∪ {[y']} : gset Item)) as Hx
      by (rewrite <- Heq; apply elem_of_union_l, elem_of_singleton; done).
    apply elem_of_union in Hx. by rewrite !elem_of_singleton in Hx. }
  assert (y = x' ∨ y = y') as Hy.
  { assert (y ∈ ({[x']} ∪ {[y']} : gset Item)) as Hy
      by (rewrite <- Heq; apply elem_of_union_r, elem_of_singleton; done).
    apply elem_of_union in Hy. by rewrite !elem_of_singleton in Hy. }
  destruct Hx as [->| ->], Hy as [->| ->].
  - assert (i = i') as -> by (by eapply Hpos).
    assert (j = i') by (by eapply Hpos). lia.
  - done.
  - assert (i = j') as -> by (by eapply Hpos).
    assert (j = i') by (by eapply Hpos). lia.
  - assert (i = j') as -> by (by eapply Hpos).
    assert (j = j') by (by eapply Hpos). lia.
Qed.

Lemma rule_of_inj bs freq freq' (c c' : gset Item) :
  c ⊆ freq → c' ⊆ freq' → rule_of bs freq c = rule_of bs freq' c' →
  freq = freq' ∧ c = c'.
Proof.
  intros Hc Hc' Heq. injection Heq as Hante -> _. split; [|done].
  by rewrite <- (difference_union_id freq c'), <- (difference_union_id freq' c'),
    Hante.
Qed.

Lemma conseq_levels_done_exact bs mc freq (i : nat) final :
  conseq_levels_done bs mc freq i final →
  conseq_levels_exact bs mc freq final.
Proof. by intros (_ & ? & _). Qed.

(** The consequences of one frequent itemset. *)
Lemma conseq_levels_members bs mc freq (i : nat) final (t : nat) lvl c :
  conseq_levels_done bs mc freq i final →
  final !! t = Some lvl → c ∈ lvl →
  c ⊆ freq ∧ size c = S t ∧ confident bs mc freq c ∧ (t < i)%nat.
Proof.
  intros (Hlen & Hexact & _) Ht Hc.
  destruct (Hexact t lvl Ht) as [_ Heq]. rewrite Heq in Hc.
  apply list_elem_of_filter in Hc as [Hconf Hc].
  destruct (conseq_cands_sizes bs mc freq final Hexact t c Hc).
  apply lookup_lt_Some in Ht. split_and!; try done. lia.
Qed.

(** X19: with [0 < min_supp], the rule list of a run that returned has a
    rule twice exactly when it has a rule whose consequence has three
    items or more.  Rules with a consequence of one or two items are
    appended once; a consequence of three items or more is the union of
    more than one pair of kept consequences, and its rule is checked and
    appended once for each pair. *)
Theorem rules_repeat_from_three_items bs ms mc (fuel : nat) self :
  SFltb f0_0 ms = true →
  apriori fuel (__init__ bs ms mc) = Some (Ok self) →
  NoDup (rule_list self)
  ↔ ∀ (ante conseq : gset Item) (conf : float),
      (ante, conseq, conf) ∈ rule_list self → (size conseq ≤ 2)%nat.
Proof.
  intros Hms (Hinv & Hdone & Hrl & Hout & Hin)%returned_exact.
  assert (∀ freq, freq ∈ concat (tail (freq_list self)) →
            ∃ (i : nat) final,
              size freq = S i ∧ frequent bs ms freq
              ∧ conseq_dict self !! freq = Some final
              ∧ conseq_levels_done bs mc freq i final) as Hkey.
  { intros freq (i & level & Hi & Hpos & Hf)%elem_of_tail_levels.
    destruct (Hin i level freq Hi Hpos Hf) as (final & Hd & Hfinal).
    destruct (levels_inv_freq_size _ _ _ _ _ _ _ Hinv Hi Hf)
      as (Hsize & _ & Hfr & _).
    by exists i, final. }
  split.
  - (* a consequence of three items is reached by two pairs *)
    intros Hnd ante conseq conf Hr.
    destruct (decide (size conseq ≤ 2)%nat) as [|Hbig]; [done|].
    exfalso. revert Hnd. apply (twice_not_NoDup (ante, conseq, conf)).
    rewrite Hrl in Hr |- *.
    apply elem_of_rules_of in Hr
      as (freq & clevels & lvl & c & Hfreq & Hd & Hlvl & Hc & Hr).
    injection Hr as -> -> ->.
    destruct (Hkey freq Hfreq) as (i & final & Hsize & Hfr & Hd' & Hfinal).
    rewrite Hd in Hd'. injection Hd' as ->.
    apply list_elem_of_lookup in Hlvl as [t Ht].
    destruct (conseq_levels_members bs mc freq i final t lvl c Hfinal Ht Hc)
      as (Hsub & Hsz & Hconf & Hti).
    destruct t as [|[|t]]; [lia|lia|].
    (* three items of the consequence *)
    destruct (size_pos_elem_of c) as [x Hx]; [lia|].
    destruct (size_pos_elem_of (c ∖ {[x]})) as [y Hy].
    { rewrite size_difference by set_solver. rewrite size_singleton. lia. }
    destruct (size_pos_elem_of (c ∖ {[x]} ∖ {[y]})) as [z Hz].
    { rewrite !size_difference by set_solver. rewrite !size_singleton.
      lia. }
    assert (x ∈ c ∧ y ∈ c ∧ z ∈ c ∧ x ≠ y ∧ x ≠ z ∧ y ≠ z)
      as (Hxc & Hyc & Hzc & Hxy & Hxz & Hyz) by set_solver.
    assert (∀ w, w ∈ c → size (c ∖ {[w]}) = S (S t)) as Hsw.
    { intros w Hw. rewrite size_difference by set_solver.
      rewrite size_singleton. lia. }
    assert (c ≠ freq) as Hneq.
    { intros ->. destruct Hfinal as (Hlen & _). lia. }
    assert (∀ w, w ∈ c → ∃ prev, final !! S t = Some prev
                                 ∧ c ∖ {[w]} ∈ prev) as Hprev.
    { intros w Hw.
      apply (conseq_level_found bs mc freq i final Hfinal Hsize).
      - intros c1 c2 Hc12 _ Hc1. by apply (confident_sub bs ms mc freq c1).
      - by apply Hsw.
      - set_solver.
      - intros Heq. pose proof (Hsw w Hw) as Hs. rewrite Heq in Hs. lia.
      - apply (confident_sub bs ms mc freq c); [done|done|set_solver|done]. }
    destruct (Hprev x Hxc) as (prev & Hp & Hpx).
    destruct (Hprev y Hyc) as (prev' & Hp' & Hpy).
    rewrite Hp in Hp'. injection Hp' as <-.
    destruct (Hprev z Hzc) as (prev' & Hp' & Hpz).
    rewrite Hp in Hp'. injection Hp' as <-.
    assert (∀ v w, v ∈ c → w ∈ c → v ≠ w →
              (c ∖ {[v]}) ∪ (c ∖ {[w]}) = c) as Hunion.
    { intros v w Hv Hw Hvw. apply set_eq. intros u.
      rewrite elem_of_union, !elem_of_difference, !elem_of_singleton.
      split; [tauto|]. intros Hu.
      destruct (decide (u = v)) as [->|?]; [right|left]; done. }
    assert (∀ v w, v ∈ c → w ∈ c → v ≠ w → c ∖ {[v]} ≠ c ∖ {[w]}) as Hdiff.
    { intros v w Hv Hw Hvw Heq.
      assert (w ∈ c ∖ {[v]}) as Hin' by set_solver.
      rewrite Heq in Hin'. set_solver. }
    set (union := λ p : gset Item * gset Item, p.1 ∪ p.2).
    assert (∃ u v, u ∈ join_pairs prev ∧ v ∈ join_pairs prev ∧ u ≠ v
                   ∧ union u = c ∧ union v = c) as (u & v & Hu & Hv & Huv
                                                    & Huc & Hvc).
    { destruct (join_pairs_unordered prev (c ∖ {[x]}) (c ∖ {[y]}))
        as [Hu|Hu]; [done|done|by apply Hdiff|..];
        destruct (join_pairs_unordered prev (c ∖ {[x]}) (c ∖ {[z]}))
          as [Hv|Hv]; try done; try (by apply Hdiff);
        eexists _, _; (split; [exact Hu|]); (split; [exact Hv|]);
        unfold union; cbn [fst snd];
        rewrite ?(union_comm_L (c ∖ {[y]}) (c ∖ {[x]})),
          ?(union_comm_L (c ∖ {[z]}) (c ∖ {[x]})), !Hunion by done;
        (split; [|done]); intros Heq;
        pose proof (f_equal fst Heq) as Heq1;
        pose proof (f_equal snd Heq) as Heq2; cbn [fst snd] in Heq1, Heq2;
        first [ by apply (Hdiff y z) | by apply (Hdiff x z)
              | by apply (Hdiff y x) | by apply (Hdiff x y)
              | by apply (Hdiff z x) | by apply (Hdiff z y) ]. }
    destruct (conseq_levels_done_exact _ _ _ _ _ Hfinal (S (S t)) lvl Ht) as [_ Hlvl_eq].
    change (freq ∖ c, c, confidence bs freq c) with (rule_of bs freq c).
    unfold rules_of.
    apply (twice_bind _ _ freq); [done|]. rewrite Hd. cbn [default].
    apply (twice_bind _ _ lvl); [by eapply list_elem_of_lookup_2|].
    apply twice_fmap. rewrite Hlvl_eq. cbn [conseq_cands].
    rewrite Hp. cbn [default].
    apply twice_filter; [done|]. apply twice_filter; [done|].
    rewrite <- Huc. fold union. apply (twice_fmap_2 union u v); try done.
    by rewrite Huc, Hvc.
  - (* consequences of one or two items are reached once *)
    intros Hsmall. rewrite Hrl. unfold rules_of. apply NoDup_bind.
    + intros freq1 freq2 r Hf1 Hf2 Hr1 Hr2.
      destruct (Hkey freq1 Hf1) as (i1 & final1 & _ & _ & Hd1 & Hfinal1).
      destruct (Hkey freq2 Hf2) as (i2 & final2 & _ & _ & Hd2 & Hfinal2).
      rewrite Hd1 in Hr1. rewrite Hd2 in Hr2. cbn [default] in Hr1, Hr2.
      apply list_elem_of_bind in Hr1 as (lvl1 & Hr1 & Hl1).
      apply list_elem_of_bind in Hr2 as (lvl2 & Hr2 & Hl2).
      apply list_elem_of_fmap in Hr1 as (c1 & -> & Hc1).
      apply list_elem_of_fmap in Hr2 as (c2 & Heq & Hc2).
      apply list_elem_of_lookup in Hl1 as [t1 Ht1], Hl2 as [t2 Ht2].
      destruct (conseq_levels_members _ _ _ _ _ _ _ _ Hfinal1 Ht1 Hc1)
        as (Hs1 & _).
      destruct (conseq_levels_members _ _ _ _ _ _ _ _ Hfinal2 Ht2 Hc2)
        as (Hs2 & _).
      by destruct (rule_of_inj bs freq1 freq2 c1 c2 Hs1 Hs2 Heq).
    + intros freq Hf.
      destruct (Hkey freq Hf) as (i & final & Hsize & _ & Hd & Hfinal).
      rewrite Hd. cbn [default]. apply NoDup_bind.
      * intros lvl1 lvl2 r Hl1 Hl2 Hr1 Hr2.
        apply list_elem_of_fmap in Hr1 as (c1 & -> & Hc1).
        apply list_elem_of_fmap in Hr2 as (c2 & Heq & Hc2).
        apply list_elem_of_lookup in Hl1 as [t1 Ht1], Hl2 as [t2 Ht2].
        destruct (conseq_levels_members _ _ _ _ _ _ _ _ Hfinal Ht1 Hc1)
          as (Hs1 & Hz1 & _).
        destruct (conseq_levels_members _ _ _ _ _ _ _ _ Hfinal Ht2 Hc2)
          as (Hs2 & Hz2 & _).
        destruct (rule_of_inj bs freq freq c1 c2 Hs1 Hs2 Heq) as [_ ->].
        assert (t1 = t2) as -> by lia. congruence.
      * intros lvl [t Ht]%list_elem_of_lookup.
        destruct (conseq_levels_done_exact _ _ _ _ _ Hfinal t lvl Ht) as [Hne Hlvl].
        apply NoDup_fmap_2_strong.
        { intros c1 c2 _ _ Heq. by injection Heq. }
        destruct t as [|[|t]].
        -- rewrite Hlvl. cbn [conseq_cands]. apply NoDup_filter.
           apply NoDup_fmap_2; [|apply NoDup_elements].
           intros a b Hab. by apply singleton_inj in Hab.
        -- rewrite Hlvl. cbn [conseq_cands]. do 2 apply NoDup_filter.
           destruct (final !! 0%nat) as [prev|] eqn:Hprev; cbn [default];
             [|constructor].
           destruct (conseq_levels_done_exact _ _ _ _ _ Hfinal 0%nat prev Hprev) as [_ Hprev_eq].
           apply NoDup_join_unions.
           ++ rewrite Hprev_eq. cbn [conseq_cands]. apply NoDup_filter.
              apply NoDup_fmap_2; [|apply NoDup_elements].
              intros a b Hab. by apply singleton_inj in Hab.
           ++ intros a Ha.
              by destruct (conseq_levels_members _ _ _ _ _ _ _ _ Hfinal
                             Hprev Ha) as (_ & ? & _).
        -- exfalso. destruct lvl as [|c lvl']; [done|].
           assert (c ∈ c :: lvl') as Hc by left.
           destruct (conseq_levels_members _ _ _ _ _ _ _ _ Hfinal Ht Hc)
             as (_ & Hsz & _).
           assert (size c ≤ 2)%nat; [|lia].
           apply (Hsmall (freq ∖ c) c (confidence bs freq c)).
           rewrite Hrl. apply elem_of_rules_of.
           exists freq, final, (c :: lvl'), c. split_and!; try done.
           by eapply list_elem_of_lookup_2.
      * apply NoDup_alt. intros t1 t2 lvl Ht1 Ht2.
        destruct (conseq_levels_done_exact _ _ _ _ _ Hfinal t1 lvl Ht1) as [Hne _].
        destruct lvl as [|c lvl']; [done|].
        assert (c ∈ c :: lvl') as Hc by left.
        destruct (conseq_levels_members _ _ _ _ _ _ _ _ Hfinal Ht1 Hc)
          as (_ & Hz1 & _).
        destruct (conseq_levels_members _ _ _ _ _ _ _ _ Hfinal Ht2 Hc)
          as (_ & Hz2 & _).
        lia.
    + rewrite <- rule_keys_tail. apply rule_keys_NoDup.
      by eapply levels_inv_NoDup.
Qed.

(** X20: [check_rule] called on the object a run returned.  It raises
    [KeyError] when [freq] is not one of the frequent itemsets found, or
    when [conseq] covers [freq] and leaves no antecedent; else it raises
    [ZeroDivisionError] when the support of the antecedent is [0.0], which
    does not happen with [0 < min_supp]; else it returns whether the
    confidence is [>= min_conf], having appended the rule, once more if it
    was there, in that case only. *)
Theorem check_rule_after_run bs ms mc (fuel : nat) self freq conseq :
  apriori fuel (__init__ bs ms mc) = Some (Ok self) →
  check_rule freq conseq self
  = (if decide (freq ∈ concat (freq_list self) ∧ freq ∖ conseq ≠ ∅)
     then
       if float_is_zero (support bs (freq ∖ conseq))
       then Raise ZeroDivisionError
       else Ok (bool_decide (confident bs mc freq conseq),
                if decide (confident bs mc freq conseq)
                then append_rule (rule_of bs freq conseq) self else self)
     else Raise KeyError)
  ∧ (SFltb f0_0 ms = true → freq ∈ concat (freq_list self) →
     freq ∖ conseq ≠ ∅ →
     float_is_zero (support bs (freq ∖ conseq)) = false).
Proof.
  intros [Hinv Hdone]%returned_levels.
  assert (freq ∈ concat (freq_list self) → freq ∖ conseq ≠ ∅ →
          freq ∖ conseq ∈ concat (freq_list self)) as Hante.
  { intros (level & [i Hi]%list_elem_of_lookup & Hf)%elem_of_concat Hne.
    destruct (size (freq ∖ conseq)) as [|t] eqn:Hsize.
    { by apply size_empty_inv, leibniz_equiv in Hsize. }
    destruct (downward_closed _ _ _ _ Hinv t (freq ∖ conseq) i level freq
                Hi Hf ltac:(set_solver) Hsize) as (level' & Hi' & Hin').
    apply elem_of_concat. exists level'. split; [|done].
    by eapply list_elem_of_lookup_2. }
  split.
  - unfold check_rule, dict_get. rewrite !(inv_supp_dict _ _ _ _ Hinv).
    rewrite (inv_min_conf _ _ _ _ Hinv).
    destruct (decide (freq ∈ concat (freq_list self) ∧ freq ∖ conseq ≠ ∅))
      as [[Hf Hne]|Hn].
    + rewrite (decide_True _ _ Hf), (decide_True _ _ (Hante Hf Hne)).
      cbn [mbind outcome_bind]. unfold float_truediv.
      destruct (float_is_zero (support bs (freq ∖ conseq))); [done|].
      cbn [mbind outcome_bind]. fold (confidence bs freq conseq).
      destruct (float_ge (confidence bs freq conseq) mc) eqn:Hge.
      * rewrite bool_decide_true, decide_True by done. done.
      * rewrite bool_decide_false, decide_False
          by (unfold confident; congruence).
        done.
    + destruct (decide (freq ∈ concat (freq_list self))) as [Hf|Hf]; [|done].
      cbn [mbind outcome_bind].
      destruct (decide (freq ∖ conseq = ∅)) as [Hempty|Hne]; [|tauto].
      rewrite Hempty.
      destruct (decide (∅ ∈ concat (freq_list self))) as [Hin|?]; [|done].
      by apply (elem_of_freq_list bs ms mc) in Hin as (? & _).
  - intros Hms Hf Hne. specialize (Hante Hf Hne).
    apply (elem_of_freq_list bs ms mc) in Hante as (_ & _ & Hfr); [|done..].
    by destruct (support_positive bs ms _ Hms Hfr).
Qed.

End Duplicates.

(** ** The script: printing an itemset *)

Lemma pretty_N_char_no_bar (x : N) : pretty_N_char x ≠ "|"%char.
Proof. unfold pretty_N_char. by repeat case_match. Qed.

Lemma pretty_N_go_bar_free (x : N) (s : string) :
  bar_free s → bar_free (pretty_N_go x s).
Proof.
  revert s. induction (N.lt_wf_0 x) as [x _ IH]. intros s Hs.
  assert (x = 0 ∨ 0 < x)%N as [->|Hpos] by lia.
  - by rewrite pretty_N_go_0.
  - rewrite pretty_N_go_step by done. apply IH.
    + by apply N.div_lt.
    + split; [apply pretty_N_char_no_bar|done].
Qed.

Lemma pretty_N_go_length (x : N) (s : string) :
  (String.length s ≤ String.length (pretty_N_go x s))%nat.
Proof.
  revert s. induction (N.lt_wf_0 x) as [x _ IH]. intros s.
  assert (x = 0 ∨ 0 < x)%N as [->|Hpos] by lia.
  - by rewrite pretty_N_go_0.
  - rewrite pretty_N_go_step by done.
    etrans; [|apply IH; by apply N.div_lt]. simpl. lia.
Qed.

Lemma pretty_pos_printed (p : positive) :
  bar_free (pretty p) ∧ pretty p ≠ EmptyString.
Proof.
  unfold pretty, pretty_positive, pretty, pretty_N.
  rewrite decide_False by done. split.
  - by apply pretty_N_go_bar_free.
  - rewrite pretty_N_go_step by done.
    intros Hempty.
    pose proof (pretty_N_go_length (N.pos p `div` 10)
                  (String (pretty_N_char (N.pos p `mod` 10)) "")) as Hlen.
    rewrite Hempty in Hlen. simpl in Hlen. lia.
Qed.

(** An integer is written without a bar, and with a character at least. *)
Lemma pretty_Z_printed (z : Z) :
  bar_free (pretty z) ∧ pretty z ≠ EmptyString.
Proof.
  destruct z as [|p|p]; unfold pretty, pretty_Z.
  - by repeat split.
  - apply pretty_pos_printed.
  - destruct (pretty_pos_printed p) as [Hfree _]. by repeat split.
Qed.

Lemma bar_free_append_bar (s r : string) :
  ¬ bar_free (s +:+ "|" +:+ r).
Proof. induction s as [|c s IH]; simpl; [by intros [? _]|]. tauto. Qed.

(** Two texts cut at their first bar are cut at the same place. *)
Lemma append_bar_inj (s s' r r' : string) :
  bar_free s → bar_free s' →
  s +:+ "|" +:+ r = s' +:+ "|" +:+ r' → s = s' ∧ r = r'.
Proof.
  revert s'. induction s as [|c s IH]; intros [|c' s']; cbn [String.append bar_free].
  - intros _ _ Heq. by injection Heq.
  - intros _ [Hc _] Heq. injection Heq as Hc' _. by destruct Hc.
  - intros [Hc _] _ Heq. injection Heq as Hc' _. by destruct Hc.
  - intros [_ Hs] [_ Hs'] Heq. injection Heq as -> Heq.
    by destruct (IH s' Hs Hs' Heq) as [-> ->].
Qed.

(** Texts without bars, none empty, are read back from their join. *)
Lemma concat_bar_inj (l l' : list string) :
  Forall (λ s, bar_free s ∧ s ≠ EmptyString) l →
  Forall (λ s, bar_free s ∧ s ≠ EmptyString) l' →
  String.concat "|" l = String.concat "|" l' → l = l'.
Proof.
  intros Hl. revert l'. induction Hl as [|s l [Hs Hne] Hl IH];
    intros l' Hl'; destruct Hl' as [|s' l' [Hs' Hne'] Hl'].
  - done.
  - destruct l' as [|s'' l']; simpl; [congruence|].
    intros Heq. by destruct s'.
  - destruct l as [|s'' l]; simpl; [congruence|].
    intros Heq. by destruct s.
  - destruct l as [|t l], l' as [|t' l']; cbn [String.concat].
    + by intros ->.
    + intros ->. by destruct (bar_free_append_bar s' (String.concat "|" (t' :: l'))).
    + intros <-. by destruct (bar_free_append_bar s (String.concat "|" (t :: l))).
    + intros Heq. destruct (append_bar_inj _ _ _ _ Hs Hs' Heq) as [-> Heq'].
      f_equal. by apply IH.
Qed.

(** X21: the text that the script prints for an itemset of integers does
    not depend on the order in which the set lists its members, and two
    itemsets are printed alike only if they are the same. *)
Theorem formulate_tells_itemsets_apart (s s' : gset Z) :
  (∀ l, l ≡ₚ elements s → formulate_list l = formulate s)
  ∧ (formulate s = formulate s' ↔ s = s').
Proof.
  split.
  - intros l Hl. unfold formulate, formulate_list. do 2 f_equal.
    apply (Sorted_unique Z.le); try apply _.
    + apply Sorted_merge_sort, _.
    + apply Sorted_merge_sort, _.
    + by rewrite !merge_sort_Permutation.
  - split; [|by intros ->]. unfold formulate, formulate_list. intros Heq.
    apply concat_bar_inj in Heq.
    + apply (list_fmap_eq_inj pretty) in Heq; [|apply _].
      apply set_eq. intros x. rewrite <- !elem_of_elements.
      by rewrite <- (merge_sort_Permutation Z.le (elements s)), Heq,
        merge_sort_Permutation.
    + apply Forall_fmap, Forall_forall. intros z _. apply pretty_Z_printed.
    + apply Forall_fmap, Forall_forall. intros z _. apply pretty_Z_printed.
Qed.

(** ** Instances of the theorems on the result of a run *)

Lemma reversed_returns : reversed_result = Some (Ok reversed_self).
Proof. apply returns_returned. vm_compute. reflexivity. Qed.

Lemma strict_returns : strict_result = Some (Ok strict_self).
Proof. apply returns_returned. vm_compute. reflexivity. Qed.

Lemma four_strict_returns : four_strict_result = Some (Ok four_strict_self).
Proof. apply returns_returned. vm_compute. reflexivity. Qed.

Lemma three_twice_returns : three_twice_result = Some (Ok three_twice_self).
Proof. apply returns_returned. vm_compute. reflexivity. Qed.

Lemma three_twice_reversed_returns :
  three_twice_reversed_result = Some (Ok three_twice_reversed_self).
Proof. apply returns_returned. vm_compute. reflexivity. Qed.

Lemma pair_returns : pair_result = Some (Ok pair_self).
Proof. apply returns_returned. vm_compute. reflexivity. Qed.

Lemma apart_raises :
  apriori 4 (__init__ apart f0_0 f0_5) = Some (Raise ZeroDivisionError).
Proof. vm_compute. reflexivity. Qed.

Lemma frequent_itemsets_found_witness :
  apriori 3 (__init__ scenario f0_6 f0_75) = Some (Ok scenario_self)
  ∧ (∀ (i : nat) (c : gset Z),
       (∃ level, freq_list scenario_self !! i = Some level ∧ c ∈ level)
       ↔ size c = S i ∧ c ⊆ ⋃ scenario
         ∧ float_ge (support scenario c) f0_6 = true)
  ∧ (∀ c : gset Z, c ∈ concat (freq_list scenario_self)
       ↔ c ≠ ∅ ∧ c ⊆ ⋃ scenario
         ∧ float_ge (support scenario c) f0_6 = true).
Proof.
  split; [exact scenario_returns|].
  exact (frequent_itemsets_found scenario f0_6 f0_75 3 scenario_self
           scenario_returns).
Defined.

Lemma levels_are_by_size_witness :
  apriori 3 (__init__ scenario f0_6 f0_75) = Some (Ok scenario_self)
  ∧ (length (freq_list scenario_self) ≤ length (cand_list scenario_self)
     ≤ S (length (freq_list scenario_self)))%nat
  ∧ (length (freq_list scenario_self) ≤ size (⋃ scenario))%nat
  ∧ NoDup (concat (freq_list scenario_self))
  ∧ (∀ (i : nat) level, freq_list scenario_self !! i = Some level →
       level ≠ []
       ∧ ∃ cands, cand_list scenario_self !! i = Some cands
                  ∧ ∀ c, c ∈ level → c ∈ cands ∧ size c = S i)
  ∧ (∀ (i : nat) cands, cand_list scenario_self !! i = Some cands →
       cands ≠ ∅ ∧ ∀ c, c ∈ cands → size c = S i ∧ c ⊆ ⋃ scenario).
Proof.
  split; [exact scenario_returns|].
  exact (levels_are_by_size scenario f0_6 f0_75 3 scenario_self
           scenario_returns).
Defined.

Lemma supp_dict_holds_the_frequent_witness :
  apriori 3 (__init__ scenario f0_6 f0_75) = Some (Ok scenario_self)
  ∧ dom (supp_dict scenario_self)
    = list_to_set (concat (freq_list scenario_self))
  ∧ size (supp_dict scenario_self)
    = length (concat (freq_list scenario_self))
  ∧ ∀ c v, supp_dict scenario_self !! c = Some v →
      c ∈ concat (freq_list scenario_self)
      ∧ int_truediv (count scenario c) (Z.of_nat (length scenario)) = Ok v
      ∧ float_ge v f0_6 = true.
Proof.
  split; [exact scenario_returns|].
  exact (supp_dict_holds_the_frequent scenario f0_6 f0_75 3 scenario_self
           scenario_returns).
Defined.

Lemma supports_are_ratios_witness :
  apriori 3 (__init__ scenario f0_6 f0_75) = Some (Ok scenario_self)
  ∧ ∀ c v, supp_dict scenario_self !! c = Some v →
      float_ge v f0_0 = true ∧ float_ge f1_0 v = true
      ∧ (SFltb f0_0 f0_6 = true → SFltb f0_0 v = true).
Proof.
  split; [exact scenario_returns|].
  exact (supports_are_ratios scenario f0_6 f0_75 3 scenario_self
           scenario_returns).
Defined.

Lemma threshold_above_one_finds_nothing_witness :
  float_ge f1_0 f2_0 = false
  ∧ ∃ self,
      apriori 1 (__init__ [ ({[1]} : gset Z) ] f2_0 f0_5) = Some (Ok self)
      ∧ self = new_cand_level (singletons [ ({[1]} : gset Z) ])
                 (__init__ [ {[1]} ] f2_0 f0_5)
      ∧ cand_list self
        = (if decide (⋃ [ ({[1]} : gset Z) ] = ∅) then []
           else [singletons [ {[1]} ]])
      ∧ freq_list self = [] ∧ supp_dict self = ∅
      ∧ conseq_dict self = ∅ ∧ rule_list self = [].
Proof.
  assert (float_ge f1_0 f2_0 = false) as Hms by reflexivity.
  split; [exact Hms|].
  exact (threshold_above_one_finds_nothing [ ({[1]} : gset Z) ] f2_0 f0_5 0
           Hms).
Defined.

Lemma basket_order_is_irrelevant_witness :
  scenario ≡ₚ reverse scenario
  ∧ apriori 3 (__init__ scenario f0_6 f0_75) = Some (Ok scenario_self)
  ∧ apriori 3 (__init__ (reverse scenario) f0_6 f0_75)
    = Some (Ok reversed_self)
  ∧ supp_dict reversed_self = supp_dict scenario_self
  ∧ length (freq_list reversed_self) = length (freq_list scenario_self)
  ∧ ∀ (i : nat) level, freq_list scenario_self !! i = Some level →
      ∃ level', freq_list reversed_self !! i = Some level'
                ∧ ∀ c, c ∈ level' ↔ c ∈ level.
Proof.
  assert (scenario ≡ₚ reverse scenario) as Hp
    by (symmetry; apply reverse_Permutation).
  split; [exact Hp|]. split; [exact scenario_returns|].
  split; [exact reversed_returns|].
  exact (basket_order_is_irrelevant scenario (reverse scenario) f0_6 f0_75
           3 3 scenario_self reversed_self Hp scenario_returns
           reversed_returns).
Defined.

Lemma higher_threshold_finds_fewer_witness :
  float_ge f0_8 f0_6 = true
  ∧ apriori 3 (__init__ scenario f0_6 f0_75) = Some (Ok scenario_self)
  ∧ apriori 3 (__init__ scenario f0_8 f0_75) = Some (Ok strict_self)
  ∧ supp_dict strict_self ⊆ supp_dict scenario_self
  ∧ ∀ (i : nat) level', freq_list strict_self !! i = Some level' →
      ∃ level, freq_list scenario_self !! i = Some level
               ∧ ∀ c, c ∈ level' → c ∈ level.
Proof.
  assert (float_ge f0_8 f0_6 = true) as Hms by reflexivity.
  split; [exact Hms|]. split; [exact scenario_returns|].
  split; [exact strict_returns|].
  exact (higher_threshold_finds_fewer scenario f0_6 f0_8 f0_75 f0_75 3 3
           scenario_self strict_self Hms scenario_returns strict_returns).
Defined.

Lemma rule_list_follows_conseq_dict_witness :
  apriori 5 (__init__ [ {[1; 2; 3; 4]} ] f0_5 f0_5)
  = Some (Ok four_items_self)
  ∧ dom (conseq_dict four_items_self)
    = list_to_set (concat (tail (freq_list four_items_self)))
  ∧ rule_list four_items_self
    = rules_of [ {[1; 2; 3; 4]} ]
        (concat (tail (freq_list four_items_self)))
        (conseq_dict four_items_self)
  ∧ ∀ (freq : gset Z) clevels (t : nat) lvl,
      conseq_dict four_items_self !! freq = Some clevels →
      clevels !! t = Some lvl →
      lvl ≠ []
      ∧ ∀ conseq, conseq ∈ lvl →
          conseq ⊆ freq ∧ size conseq = S t
          ∧ float_ge (confidence [ {[1; 2; 3; 4]} ] freq conseq) f0_5
            = true.
Proof.
  split; [exact four_items_returns|].
  exact (rule_list_follows_conseq_dict [ {[1; 2; 3; 4]} ] f0_5 f0_5 5
           four_items_self four_items_returns).
Defined.

Lemma rules_found_witness :
  SFltb f0_0 f0_5 = true
  ∧ apriori 5 (__init__ [ {[1; 2; 3; 4]} ] f0_5 f0_5)
    = Some (Ok four_items_self)
  ∧ ∀ (ante conseq : gset Z) (conf : float),
      (ante, conseq, conf) ∈ rule_list four_items_self
      ↔ ante ≠ ∅ ∧ conseq ≠ ∅ ∧ ante ## conseq
        ∧ ante ∪ conseq ⊆ ⋃ [ {[1; 2; 3; 4]} ]
        ∧ float_ge (support [ {[1; 2; 3; 4]} ] (ante ∪ conseq)) f0_5 = true
        ∧ conf = SFdiv prec emax
                   (support [ {[1; 2; 3; 4]} ] (ante ∪ conseq))
                   (support [ {[1; 2; 3; 4]} ] ante)
        ∧ float_ge conf f0_5 = true.
Proof.
  assert (SFltb f0_0 f0_5 = true) as Hms by reflexivity.
  split; [exact Hms|]. split; [exact four_items_returns|].
  exact (rules_found [ {[1; 2; 3; 4]} ] f0_5 f0_5 5 four_items_self Hms
           four_items_returns).
Defined.

Lemma apriori_raises_only_zero_division_witness :
  apriori 4 (__init__ apart f0_0 f0_5) = Some (Raise ZeroDivisionError)
  ∧ ZeroDivisionError = ZeroDivisionError ∧ SFltb f0_0 f0_0 = false
  ∧ apart ≠ [].
Proof.
  split; [exact apart_raises|].
  exact (apriori_raises_only_zero_division apart f0_0 f0_5 4
           ZeroDivisionError apart_raises).
Defined.

Lemma confidences_are_ratios_witness :
  apriori 5 (__init__ [ {[1; 2; 3; 4]} ] f0_5 f0_5)
  = Some (Ok four_items_self)
  ∧ ∀ (ante conseq : gset Z) (conf : float),
      (ante, conseq, conf) ∈ rule_list four_items_self →
      float_ge conf f0_0 = true ∧ float_ge f1_0 conf = true
      ∧ float_ge conf f0_5 = true.
Proof.
  split; [exact four_items_returns|].
  exact (confidences_are_ratios [ {[1; 2; 3; 4]} ] f0_5 f0_5 5
           four_items_self four_items_returns).
Defined.

Lemma zero_threshold_divides_by_zero_witness :
  float_ge f0_0 f0_0 = true
  ∧ (1 : Z) ≠ 2 ∧ (1 : Z) ≠ 3 ∧ (2 : Z) ≠ 3
  ∧ 1 ∈ ⋃ apart ∧ 2 ∈ ⋃ apart ∧ 3 ∈ ⋃ apart
  ∧ (∀ b, b ∈ apart → ¬ {[1; 2]} ⊆ b)
  ∧ (size (⋃ apart) < 4)%nat
  ∧ apriori 4 (__init__ apart f0_0 f0_5) = Some (Raise ZeroDivisionError).
Proof.
  assert (float_ge f0_0 f0_0 = true) as Hms by reflexivity.
  assert ((1 : Z) ≠ 2) as H12 by lia.
  assert ((1 : Z) ≠ 3) as H13 by lia.
  assert ((2 : Z) ≠ 3) as H23 by lia.
  assert (1 ∈ ⋃ apart) as H1 by compute_done.
  assert (2 ∈ ⋃ apart) as H2 by compute_done.
  assert (3 ∈ ⋃ apart) as H3 by compute_done.
  assert (∀ b, b ∈ apart → ¬ {[1; 2]} ⊆ b) as Hnever.
  { apply Forall_forall. compute_done. }
  assert (size (⋃ apart) < 4)%nat as Hfuel by compute_done.
  split; [exact Hms|]. split; [exact H12|]. split; [exact H13|].
  split; [exact H23|]. split; [exact H1|]. split; [exact H2|].
  split; [exact H3|]. split; [exact Hnever|]. split; [exact Hfuel|].
  exact (zero_threshold_divides_by_zero apart f0_0 f0_5 1 2 3 4 Hms H12 H13
           H23 H1 H2 H3 Hnever Hfuel).
Defined.

Lemma frequent_itemsets_occur_witness :
  SFltb f0_0 f0_6 = true
  ∧ apriori 3 (__init__ scenario f0_6 f0_75) = Some (Ok scenario_self)
  ∧ ∀ c, c ∈ concat (freq_list scenario_self) →
      ∃ b, b ∈ scenario ∧ c ⊆ b ∧ (size c ≤ size b)%nat.
Proof.
  assert (SFltb f0_0 f0_6 = true) as Hms by reflexivity.
  split; [exact Hms|]. split; [exact scenario_returns|].
  exact (frequent_itemsets_occur scenario f0_6 f0_75 3 scenario_self Hms
           scenario_returns).
Defined.

Lemma zero_threshold_keeps_everything_witness :
  float_ge f0_0 f0_0 = true
  ∧ apriori 3 (__init__ [ {[1; 2]} ] f0_0 f0_5) = Some (Ok pair_self)
  ∧ (∀ c : gset Z, c ∈ concat (freq_list pair_self)
       ↔ c ≠ ∅ ∧ c ⊆ ⋃ [ {[1; 2]} ])
  ∧ length (freq_list pair_self) = size (⋃ [ ({[1; 2]} : gset Z) ]).
Proof.
  assert (float_ge f0_0 f0_0 = true) as Hms by reflexivity.
  split; [exact Hms|]. split; [exact pair_returns|].
  exact (zero_threshold_keeps_everything [ {[1; 2]} ] f0_0 f0_5 3 pair_self
           Hms pair_returns).
Defined.

Lemma stricter_thresholds_find_fewer_rules_witness :
  SFltb f0_0 f0_5 = true ∧ float_ge f0_5 f0_5 = true
  ∧ float_ge f0_8 f0_5 = true
  ∧ apriori 5 (__init__ [ {[1; 2; 3; 4]} ] f0_5 f0_5)
    = Some (Ok four_items_self)
  ∧ apriori 5 (__init__ [ {[1; 2; 3; 4]} ] f0_5 f0_8)
    = Some (Ok four_strict_self)
  ∧ ∀ r, r ∈ rule_list four_strict_self → r ∈ rule_list four_items_self.
Proof.
  assert (SFltb f0_0 f0_5 = true) as Hms by reflexivity.
  assert (float_ge f0_5 f0_5 = true) as Hms' by reflexivity.
  assert (float_ge f0_8 f0_5 = true) as Hmc by reflexivity.
  split; [exact Hms|]. split; [exact Hms'|]. split; [exact Hmc|].
  split; [exact four_items_returns|]. split; [exact four_strict_returns|].
  exact (stricter_thresholds_find_fewer_rules [ {[1; 2; 3; 4]} ] f0_5 f0_5
           f0_5 f0_8 5 5 four_items_self four_strict_self Hms Hms' Hmc
           four_items_returns four_strict_returns).
Defined.

Lemma rules_ignore_basket_order_witness :
  SFltb f0_0 f0_5 = true ∧ three_twice ≡ₚ reverse three_twice
  ∧ apriori 5 (__init__ three_twice f0_5 f0_5) = Some (Ok three_twice_self)
  ∧ apriori 5 (__init__ (reverse three_twice) f0_5 f0_5)
    = Some (Ok three_twice_reversed_self)
  ∧ ∀ r, r ∈ rule_list three_twice_reversed_self
         ↔ r ∈ rule_list three_twice_self.
Proof.
  assert (SFltb f0_0 f0_5 = true) as Hms by reflexivity.
  assert (three_twice ≡ₚ reverse three_twice) as Hp
    by (symmetry; apply reverse_Permutation).
  split; [exact Hms|]. split; [exact Hp|].
  split; [exact three_twice_returns|].
  split; [exact three_twice_reversed_returns|].
  exact (rules_ignore_basket_order three_twice (reverse three_twice) f0_5
           f0_5 5 5 three_twice_self three_twice_reversed_self Hms Hp
           three_twice_returns three_twice_reversed_returns).
Defined.

Lemma rules_repeat_from_three_items_witness :
  SFltb f0_0 f0_5 = true
  ∧ apriori 5 (__init__ [ {[1; 2; 3; 4]} ] f0_5 f0_5)
    = Some (Ok four_items_self)
  ∧ (NoDup (rule_list four_items_self)
     ↔ ∀ (ante conseq : gset Z) (conf : float),
         (ante, conseq, conf) ∈ rule_list four_items_self →
         (size conseq ≤ 2)%nat).
Proof.
  assert (SFltb f0_0 f0_5 = true) as Hms by reflexivity.
  split; [exact Hms|]. split; [exact four_items_returns|].
  exact (rules_repeat_from_three_items [ {[1; 2; 3; 4]} ] f0_5 f0_5 5
           four_items_self Hms four_items_returns).
Defined.

Lemma check_rule_after_run_witness :
  apriori 3 (__init__ scenario f0_6 f0_75) = Some (Ok scenario_self)
  ∧ check_rule {[1; 2]} {[2]} scenario_self
    = (if decide (({[1; 2]} : gset Z) ∈ concat (freq_list scenario_self)
                  ∧ ({[1; 2]} : gset Z) ∖ {[2]} ≠ ∅)
       then
         if float_is_zero (support scenario ({[1; 2]} ∖ {[2]}))
         then Raise ZeroDivisionError
         else Ok (bool_decide (confident scenario f0_75 {[1; 2]} {[2]}),
                  if decide (confident scenario f0_75 {[1; 2]} {[2]})
                  then append_rule (rule_of scenario {[1; 2]} {[2]})
                         scenario_self
                  else scenario_self)
       else Raise KeyError)
  ∧ (SFltb f0_0 f0_6 = true →
     ({[1; 2]} : gset Z) ∈ concat (freq_list scenario_self) →
     ({[1; 2]} : gset Z) ∖ {[2]} ≠ ∅ →
     float_is_zero (support scenario ({[1; 2]} ∖ {[2]})) = false).
Proof.
  split; [exact scenario_returns|].
  exact (check_rule_after_run scenario f0_6 f0_75 3 scenario_self
           {[1; 2]} {[2]} scenario_returns).
Defined.

(** [gen_freqs 0] on the scenario after [gen_cands 0] reads the last
    candidate level; [gen_freqs 1] finds no level before any candidate is
    recorded, and divides by zero on an object without baskets. *)
Lemma gen_freqs_outcome_witness :
  (∃ self' (kept : list (gset Z)),
     gen_freqs 0 scenario_level0 = Ok self'
     ∧ NoDup kept
     ∧ (∀ c, c ∈ kept ↔ c ∈ ({[ {[1]}; {[2]}; {[3]} ]} : gset (gset Z)))
     ∧ freq_list self' = [kept]
     ∧ supp_dict self' !! ({[1]} : gset Z) = Some f0_8
     ∧ rounds_to 4 5 f0_8
     ∧ cand_list self' = cand_list scenario_level0)
  ∧ gen_freqs 1 (__init__ scenario f0_6 f0_75) = Raise IndexError
  ∧ gen_freqs 1 orphan_level = Raise ZeroDivisionError.
Proof.
  split; [|split].
  - pose proof (gen_freqs_outcome scenario_level0 0) as Hx.
    assert (read_level (cand_list scenario_level0) 0
            = Some {[ {[1]}; {[2]}; {[3]} ]}) as Hread by compute_done.
    rewrite Hread in Hx.
    destruct (decide (({[ {[1]}; {[2]}; {[3]} ]} : gset (gset Z)) = ∅))
      as [He|_]; [exfalso; revert He; compute_done|].
    destruct (decide (n_baskets scenario_level0 = 0)) as [He|_];
      [exfalso; revert He; compute_done|].
    destruct Hx as (self' & kept & Hrun & Hnd & Hkept & Hfl & Hsd & Hround
                    & _ & _ & _ & _ & Hcl & _).
    assert (∀ c : gset Z,
              c ∈ ({[ {[1]}; {[2]}; {[3]} ]} : gset (gset Z)) →
              float_ge (ratio scenario_level0 c) (min_supp scenario_level0)
              = true) as Hall.
    { intros c Hc. repeat (apply elem_of_union in Hc as [Hc|Hc]);
        apply elem_of_singleton in Hc; rewrite Hc; compute_done. }
    assert (count (baskets scenario_level0) {[1]} = 4) as Hcount
      by compute_done.
    assert (n_baskets scenario_level0 = 5) as Hn by compute_done.
    assert (ratio scenario_level0 {[1]} = f0_8) as Hratio by compute_done.
    assert ({[1]} ∈ kept) as Hin.
    { apply Hkept. split; [|apply Hall]; apply elem_of_union; left;
        apply elem_of_union; left; apply elem_of_singleton; reflexivity. }
    exists self', kept. split; [exact Hrun|]. split; [exact Hnd|]. split.
    { intros c. split.
      - intros Hc. apply Hkept in Hc. exact (proj1 Hc).
      - intros Hc. apply Hkept. split; [exact Hc|exact (Hall c Hc)]. }
    split.
    { rewrite Hfl. destruct (decide (kept = [])) as [Hnil|_]; [|reflexivity].
      rewrite Hnil in Hin. apply elem_of_nil in Hin. destruct Hin. }
    split.
    { rewrite (Hsd {[1]}).
      destruct (decide ({[1]} ∈ kept)) as [_|Hout]; [|destruct (Hout Hin)].
      rewrite Hratio. reflexivity. }
    split; [|exact Hcl].
    pose proof (Hround {[1]}) as Hr. rewrite Hcount, Hn, Hratio in Hr.
    apply Hr. lia.
  - pose proof (gen_freqs_outcome (__init__ scenario f0_6 f0_75) 1) as Hx.
    exact Hx.
  - pose proof (gen_freqs_outcome orphan_level 1) as Hx.
    assert (read_level (cand_list orphan_level) 1 = Some {[ {[1]} ]})
      as Hread by reflexivity.
    rewrite Hread in Hx.
    destruct (decide (({[ {[1]} ]} : gset (gset Z)) = ∅))
      as [He|_]; [exfalso; revert He; compute_done|].
    destruct (decide (n_baskets orphan_level = 0)) as [_|Hne];
      [exact Hx|destruct Hne; reflexivity].
Defined.
